(** * gpu-curtains: scene stacks, bind groups and render pipeline entries

    A shallow embedding of the scheduling and resource-binding core of the
    library:

    - [JSArray]   the few [Array.prototype] methods the sources rely on;
    - [Scene]     [core/scenes/Scene.js]: stack partitions, [addMesh],
                  [addShaderPass], [addPingPongPlane] and the per-frame
                  [render] traversal, together with [MeshBase.render],
                  [Material.render] and [GPURenderer.render];
    - [BindGroups] [TextureBindGroup] (both revisions) and [SamplerBinding];
    - [Pipeline]  [RenderPipelineEntry.patchShaders] and [createShaders];
    - [MeshBase]  the creation counter of the mesh base mixin;
    - [SceneOps]  removal from the scene, [GPUCameraRenderer.renderSingleMesh]
                  and [GPURenderer.renderOnce];
    - [PipelineOps] [RenderPipelineEntry.createPipelineDescriptor];
    - [VideoUploads], [Materials] the textures of a material and their
                  bindings;
    - [DOMMesh]   the source loading of [curtains/meshes/DOMMesh.ts].

    Side effects on the GPU command encoder are modelled as a log of the
    calls issued on it.  The definitions come first; the properties follow
    in the modules [JSArrayFacts], [SceneFacts], [FrameFacts],
    [BindGroupFacts], [MeshBaseFacts] and [PipelineFacts], and further in
    [SortFacts], [SceneOpsFacts], [FrameOpsFacts], [PipelineOpsFacts],
    [DescriptorFacts], [VideoUploadFacts], [MaterialFacts] and
    [DOMMeshFacts]. *)

From Stdlib Require Import String Ascii DecimalString Decimal.
From Stdlib Require Import List ZArith Bool Lia Permutation Sorted FinFun.
Import ListNotations.

Set Implicit Arguments.

(* ================================================================== *)
(** ** JavaScript array helpers *)

Module JSArray.

Section Sorting.
Variable A : Type.
(** A comparator in the sense of [Array.prototype.sort]: a negative
    result puts the first argument first, a positive one the second. *)
Variable cmp : A -> A -> Z.

(** [Array.prototype.sort] is stable.  For a comparator that is a
    difference of integer keys every stable sort returns the same array;
    straight insertion is the one written out here. *)
Fixpoint insert (x : A) (l : list A) : list A :=
  match l with
  | [] => [x]
  | y :: l' => if (0 <? cmp x y)%Z then y :: insert x l' else x :: l
  end.

Definition sort (l : list A) : list A := fold_right insert [] l.
End Sorting.

(** [arr.splice(i, 0, x)]: insert [x] at position [i]; a position past the
    end appends. *)
Fixpoint splice (A : Type) (i : nat) (x : A) (l : list A) : list A :=
  match i, l with
  | O, _ => x :: l
  | S i', y :: l' => y :: splice i' x l'
  | S _, [] => [x]
  end.

(** [arr.find(p)] is [List.find]; [!arr.find(p)] tests that no element
    satisfies [p] (the elements are objects, hence truthy). *)
Definition none_found (A : Type) (p : A -> bool) (l : list A) : bool :=
  match find p l with Some _ => false | None => true end.

End JSArray.

(* ================================================================== *)
(** ** Scene stacks and the frame traversal *)

Module Scene.
Import JSArray.

(** A pipeline entry as the scene sees it: its [index] (identity within the
    pipeline manager) and the compiled [pipeline], absent while the entry is
    compiling or after a compilation error. *)
Record PipelineEntry := {
  pe_index : Z;
  pe_pipeline : option nat
}.

(** [Material]: the entry and the bind groups set at each draw, as pairs
    (group index, GPU bind group handle). *)
Record Material := {
  pipelineEntry : PipelineEntry;
  bindGroups : list (nat * nat);
  useProjection : bool            (* material.options.rendering.useProjection *)
}.

(** A rendered object: mesh, ping-pong plane or shader pass.
    [index] is the creation index, [documentPosition_z] the depth used to
    order transparent meshes (taken on the integers: the comparator only
    looks at the sign of a difference of depths), [renderTexture] the
    texture a ping-pong plane or shader pass samples (its handle). *)
Record Mesh := {
  uuid : nat;
  index : Z;
  transparent : bool;
  visible : bool;
  renderOrder : Z;
  documentPosition_z : Z;
  material : Material;
  renderTexture : nat
}.

Record ProjectionStack := {
  opaque : list Mesh;
  transparentStack : list Mesh
}.

Record Stacks := {
  unprojected : ProjectionStack;
  pingPongPlanes : list Mesh;
  shaderPasses : list Mesh;
  projected : ProjectionStack
}.

(** The renderer state the scene reads: readiness, the tracked [meshes],
    the camera bind group when the renderer is a camera renderer, and the
    scene stacks. *)
Record Renderer := {
  deviceManager_ready : bool;
  context : option nat;
  canvas_style_width : string;
  meshes : list Mesh;
  cameraBindGroup : option (nat * nat);
  stacks : Stacks
}.

(** [Scene.setStacks] *)
Definition setStacks : Stacks :=
  {| unprojected := {| opaque := []; transparentStack := [] |};
     pingPongPlanes := [];
     shaderPasses := [];
     projected := {| opaque := []; transparentStack := [] |} |}.

Definition set_stacks (r : Renderer) (s : Stacks) : Renderer :=
  {| deviceManager_ready := deviceManager_ready r;
     context := context r;
     canvas_style_width := canvas_style_width r;
     meshes := meshes r;
     cameraBindGroup := cameraBindGroup r;
     stacks := s |}.

Definition set_meshes (r : Renderer) (ms : list Mesh) : Renderer :=
  {| deviceManager_ready := deviceManager_ready r;
     context := context r;
     canvas_style_width := canvas_style_width r;
     meshes := ms;
     cameraBindGroup := cameraBindGroup r;
     stacks := stacks r |}.

(** The backwards scan of [addMesh]: [i + 1] for the last [i] whose
    pipeline entry index is the mesh's, [-1 -> 0] otherwise (the
    [Math.max(0, siblingMeshIndex)]). *)
Fixpoint siblingMeshIndex (pidx : Z) (similar : list Mesh) : nat :=
  match similar with
  | [] => 0
  | m :: rest =>
      match siblingMeshIndex pidx rest with
      | S k => S (S k)
      | O => if (pe_index (pipelineEntry (material m)) =? pidx)%Z then 1 else 0
      end
  end.

Definition byIndex (a b : Mesh) : Z := (index a - index b)%Z.
Definition byDepth (a b : Mesh) : Z := (documentPosition_z b - documentPosition_z a)%Z.
Definition byRenderOrder (a b : Mesh) : Z := (renderOrder b - renderOrder a)%Z.

(** The filter of [addMesh]: same transparency, another object. *)
Definition similarTo (mesh : Mesh) (m : Mesh) : bool :=
  Bool.eqb (transparent m) (transparent mesh) && negb (uuid m =? uuid mesh).

(** The array [addMesh] builds before storing it into the stack. *)
Definition similarMeshes (r : Renderer) (mesh : Mesh) : list Mesh :=
  let similar := filter (similarTo mesh) (meshes r) in
  let i := siblingMeshIndex (pe_index (pipelineEntry (material mesh))) similar in
  let l := splice i mesh similar in
  let l := sort byIndex l in
  let l := if transparent mesh then sort byDepth l else l in
  sort byRenderOrder l.

Definition set_substack (mesh : Mesh) (ps : ProjectionStack) (l : list Mesh)
  : ProjectionStack :=
  if transparent mesh
  then {| opaque := opaque ps; transparentStack := l |}
  else {| opaque := l; transparentStack := transparentStack ps |}.

Definition with_projectionStack (mesh : Mesh) (s : Stacks)
  (f : ProjectionStack -> ProjectionStack) : Stacks :=
  if useProjection (material mesh)
  then {| unprojected := unprojected s; pingPongPlanes := pingPongPlanes s;
          shaderPasses := shaderPasses s; projected := f (projected s) |}
  else {| unprojected := f (unprojected s); pingPongPlanes := pingPongPlanes s;
          shaderPasses := shaderPasses s; projected := projected s |}.

(** [Scene.addMesh] *)
Definition addMesh (r : Renderer) (mesh : Mesh) : Renderer :=
  set_stacks r
    (with_projectionStack mesh (stacks r)
       (fun ps => set_substack mesh ps (similarMeshes r mesh))).

(** [Scene.removeMesh] *)
Definition removeMesh (r : Renderer) (mesh : Mesh) : Renderer :=
  let keep := filter (fun m => negb (uuid m =? uuid mesh)) in
  set_stacks r
    (with_projectionStack mesh (stacks r)
       (fun ps =>
          if transparent mesh
          then {| opaque := opaque ps; transparentStack := keep (transparentStack ps) |}
          else {| opaque := keep (opaque ps); transparentStack := transparentStack ps |})).

(** [Scene.addShaderPass] *)
Definition addShaderPass (r : Renderer) (shaderPass : Mesh) : Renderer :=
  let s := stacks r in
  set_stacks r
    {| unprojected := unprojected s; pingPongPlanes := pingPongPlanes s;
       shaderPasses := sort byRenderOrder (shaderPasses s ++ [shaderPass]);
       projected := projected s |}.

(** [Scene.addPingPongPlane] *)
Definition addPingPongPlane (r : Renderer) (plane : Mesh) : Renderer :=
  let s := stacks r in
  set_stacks r
    {| unprojected := unprojected s;
       pingPongPlanes := sort byRenderOrder (pingPongPlanes s ++ [plane]);
       shaderPasses := shaderPasses s; projected := projected s |}.

(** [MeshBase.addToScene] with [autoRender] on: track the mesh in the
    renderer, then hand it to the scene. *)
Definition addToScene (r : Renderer) (mesh : Mesh) : Renderer :=
  addMesh (set_meshes r (meshes r ++ [mesh])) mesh.

(** The stack partition a mesh belongs to. *)
Definition partition_of (mesh : Mesh) (s : Stacks) : list Mesh :=
  let ps := if useProjection (material mesh) then projected s else unprojected s in
  if transparent mesh then transparentStack ps else opaque ps.


(** *** The command encoder

    Calls issued during a frame, in program order.  Render pass encoders
    are numbered in the order [beginRenderPass] hands them out. *)
Inductive Command :=
| OnBeforeRenderPass (object : nat)               (* object.onBeforeRenderPass() *)
| SetRenderPassCurrentTexture                     (* renderer.setRenderPassCurrentTexture(renderPass) *)
| BeginRenderPass (pass : nat)                    (* commandEncoder.beginRenderPass(descriptor) *)
| PassEnd (pass : nat)                            (* pass.end() *)
| CopyTextureToTexture (destination : nat)        (* swap chain texture -> destination *)
| SetBindGroup (pass : nat) (group : nat) (bindGroup : nat)
| SetCurrentPipeline (pass : nat) (entry : Z)     (* pipelineManager.setCurrentPipeline *)
| OnRenderCallback (object : nat)
| GeometryRender (object : nat) (pass : nat)
| OnAfterRenderCallback (object : nat)
| OnBeforeRenderCallback                          (* renderer._onBeforeRenderCallback *)
| OnBeforeRenderScene                             (* renderer.onBeforeRenderScene.execute *)
| OnAfterRenderCallbackRenderer                   (* renderer._onAfterRenderCallback *)
| OnAfterRenderScene.                             (* renderer.onAfterRenderScene.execute *)

Record Encoder := {
  nextPass : nat;
  commands : list Command
}.

(** Code that talks to the encoder: a state monad over [Encoder]. *)
Definition Enc (A : Type) : Type := Encoder -> A * Encoder.

Definition ret (A : Type) (a : A) : Enc A := fun e => (a, e).
Definition bind (A B : Type) (m : Enc A) (k : A -> Enc B) : Enc B :=
  fun e => let (a, e') := m e in k a e'.

Notation "x <- m ;; k" := (bind m (fun x => k))
  (at level 61, m at next level, right associativity).
Notation "m ;;; k" := (bind m (fun _ => k))
  (at level 61, right associativity).

Definition emit (cs : list Command) : Enc unit :=
  fun e => (tt, {| nextPass := nextPass e; commands := commands e ++ cs |}).

Definition beginRenderPass : Enc nat :=
  fun e => (nextPass e,
            {| nextPass := S (nextPass e);
               commands := commands e ++ [BeginRenderPass (nextPass e)] |}).

(** [arr.forEach(f)] *)
Fixpoint forEach (A : Type) (l : list A) (f : A -> Enc unit) : Enc unit :=
  match l with
  | [] => ret tt
  | x :: l' => f x ;;; forEach l' f
  end.

Definition is_some (A : Type) (o : option A) : bool :=
  match o with Some _ => true | None => false end.

Definition nonempty (s : string) : bool :=
  match s with EmptyString => false | _ => true end.

(** [GPURenderer.ready]:
    [deviceManager.ready && !!context && !!canvas.style.width] *)
Definition ready (r : Renderer) : bool :=
  deviceManager_ready r && is_some (context r) && nonempty (canvas_style_width r).

(** [Material.ready]: [!!(pipelineEntry && pipelineEntry.pipeline)].  Every
    material that reaches the scene has an entry ([addMesh] reads its
    index), so the first conjunct holds. *)
Definition Material_ready (m : Material) : bool :=
  is_some (pe_pipeline (pipelineEntry m)).

(** [Material.render(pass)] *)
Definition Material_render (r : Renderer) (m : Material) (pass : nat) : list Command :=
  if negb (ready r) then []
  else if negb (Material_ready m) then []
  else SetCurrentPipeline pass (pe_index (pipelineEntry m))
       :: map (fun bg => SetBindGroup pass (fst bg) (snd bg)) (bindGroups m).

(** [MeshBase.onRenderPass(pass)] *)
Definition onRenderPass (r : Renderer) (mesh : Mesh) (pass : nat) : list Command :=
  if negb (Material_ready (material mesh)) then []
  else OnRenderCallback (uuid mesh)
       :: Material_render r (material mesh) pass
       ++ [GeometryRender (uuid mesh) pass].

(** [MeshBase.render(pass)] *)
Definition Mesh_render (r : Renderer) (mesh : Mesh) (pass : nat) : list Command :=
  OnBeforeRenderPass (uuid mesh)
  :: (if negb (ready r) || negb (visible mesh) then []
      else onRenderPass r mesh pass ++ [OnAfterRenderCallback (uuid mesh)]).

(** The sub-stacks in the order the [for ... in] loops of [Scene.render]
    visit the keys of [this.stacks]. *)
Definition subStacks (s : Stacks) : list (list Mesh) :=
  [ opaque (unprojected s); transparentStack (unprojected s);
    pingPongPlanes s; shaderPasses s;
    opaque (projected s); transparentStack (projected s) ].

(** [Scene.render(commandEncoder)] *)
Definition render (r : Renderer) : Enc unit :=
  let s := stacks r in
  forEach (subStacks s) (fun subStack =>
    forEach subStack (fun element => emit [OnBeforeRenderPass (uuid element)])) ;;;
  emit [SetRenderPassCurrentTexture] ;;;
  forEach (pingPongPlanes s) (fun pingPongPlane =>
    pingPongRenderPass <- beginRenderPass ;;
    emit (Mesh_render r pingPongPlane pingPongRenderPass) ;;;
    emit [PassEnd pingPongRenderPass] ;;;
    emit [CopyTextureToTexture (renderTexture pingPongPlane)]) ;;;
  pass <- beginRenderPass ;;
  forEach (opaque (unprojected s)) (fun mesh => emit (Mesh_render r mesh pass)) ;;;
  forEach (transparentStack (unprojected s)) (fun mesh => emit (Mesh_render r mesh pass)) ;;;
  match cameraBindGroup r with
  | Some cbg => emit [SetBindGroup pass (fst cbg) (snd cbg)]
  | None => ret tt
  end ;;;
  forEach (opaque (projected s)) (fun mesh => emit (Mesh_render r mesh pass)) ;;;
  forEach (transparentStack (projected s)) (fun mesh => emit (Mesh_render r mesh pass)) ;;;
  emit [PassEnd pass] ;;;
  forEach (shaderPasses s) (fun shaderPass =>
    emit [CopyTextureToTexture (renderTexture shaderPass)] ;;;
    shaderPassRenderPass <- beginRenderPass ;;
    emit (Mesh_render r shaderPass shaderPassRenderPass) ;;;
    emit [PassEnd shaderPassRenderPass]).

(** [GPURenderer.render(commandEncoder)] *)
Definition GPURenderer_render (r : Renderer) : Enc unit :=
  if negb (ready r) then ret tt
  else
    emit [OnBeforeRenderCallback] ;;;
    emit [OnBeforeRenderScene] ;;;
    render r ;;;
    emit [OnAfterRenderCallbackRenderer] ;;;
    emit [OnAfterRenderScene].

(** The commands of one frame recorded on a fresh encoder. *)
Definition frame (r : Renderer) : list Command :=
  commands (snd (GPURenderer_render r {| nextPass := 0; commands := [] |})).

(** *** The traversal as the specification words it

    Six steps: refresh every member of every partition; acquire the
    output; one pass and one copy per ping-pong plane; one pass for the
    unprojected then the projected meshes; then, per shader pass in stack
    order, a copy and a pass of its own.  [n] is the number of the first
    render pass handed out. *)
Definition refreshStep (s : Stacks) : list Command :=
  map (fun element => OnBeforeRenderPass (uuid element)) (concat (subStacks s)).

Fixpoint pingPongStep (r : Renderer) (n : nat) (planes : list Mesh) : list Command :=
  match planes with
  | [] => []
  | p :: planes' =>
      BeginRenderPass n :: Mesh_render r p n
      ++ [PassEnd n; CopyTextureToTexture (renderTexture p)]
      ++ pingPongStep r (S n) planes'
  end.

Definition drawAll (r : Renderer) (pass : nat) (l : list Mesh) : list Command :=
  flat_map (fun mesh => Mesh_render r mesh pass) l.

Definition mainStep (r : Renderer) (pass : nat) : list Command :=
  let s := stacks r in
  BeginRenderPass pass
  :: drawAll r pass (opaque (unprojected s))
  ++ drawAll r pass (transparentStack (unprojected s))
  ++ match cameraBindGroup r with
     | Some cbg => [SetBindGroup pass (fst cbg) (snd cbg)]
     | None => []
     end
  ++ drawAll r pass (opaque (projected s))
  ++ drawAll r pass (transparentStack (projected s))
  ++ [PassEnd pass].

Fixpoint shaderPassStep (r : Renderer) (n : nat) (passes : list Mesh) : list Command :=
  match passes with
  | [] => []
  | p :: passes' =>
      CopyTextureToTexture (renderTexture p) :: BeginRenderPass n
      :: Mesh_render r p n ++ [PassEnd n]
      ++ shaderPassStep r (S n) passes'
  end.

Definition frameTrace (r : Renderer) (n : nat) : list Command :=
  let s := stacks r in
  let k := length (pingPongPlanes s) in
  refreshStep s
  ++ [SetRenderPassCurrentTexture]
  ++ pingPongStep r n (pingPongPlanes s)
  ++ mainStep r (n + k)
  ++ shaderPassStep r (n + k + 1) (shaderPasses s).

(** The four mesh partitions, in drawing order. *)
Definition meshStacks (s : Stacks) : list Mesh :=
  opaque (unprojected s) ++ transparentStack (unprojected s)
  ++ opaque (projected s) ++ transparentStack (projected s).

(** The asynchronous compilation of a pipeline entry completing between
    two frames: [this.pipeline = await ...createRenderPipelineAsync(...)].
    The entry is reached through the material of the object [u], wherever
    the renderer and the scene hold that object. *)
Definition compiled (pipeline : nat) (mesh : Mesh) : Mesh :=
  {| uuid := uuid mesh; index := index mesh; transparent := transparent mesh;
     visible := visible mesh; renderOrder := renderOrder mesh;
     documentPosition_z := documentPosition_z mesh;
     material :=
       {| pipelineEntry :=
            {| pe_index := pe_index (pipelineEntry (material mesh));
               pe_pipeline := Some pipeline |};
          bindGroups := bindGroups (material mesh);
          useProjection := useProjection (material mesh) |};
     renderTexture := renderTexture mesh |}.

Definition compiledIn (u pipeline : nat) (l : list Mesh) : list Mesh :=
  map (fun m => if uuid m =? u then compiled pipeline m else m) l.

Definition pipelineCompiled (r : Renderer) (u pipeline : nat) : Renderer :=
  let f := compiledIn u pipeline in
  let s := stacks r in
  {| deviceManager_ready := deviceManager_ready r;
     context := context r;
     canvas_style_width := canvas_style_width r;
     meshes := f (meshes r);
     cameraBindGroup := cameraBindGroup r;
     stacks :=
       {| unprojected := {| opaque := f (opaque (unprojected s));
                            transparentStack := f (transparentStack (unprojected s)) |};
          pingPongPlanes := f (pingPongPlanes s);
          shaderPasses := f (shaderPasses s);
          projected := {| opaque := f (opaque (projected s));
                          transparentStack := f (transparentStack (projected s)) |} |} |}.

(** The destinations of the texture copies of a command log, in order. *)
Definition copies (log : list Command) : list nat :=
  flat_map (fun c => match c with CopyTextureToTexture t => [t] | _ => [] end) log.

End Scene.

(* ================================================================== *)
(** ** Bind groups and bindings *)

Module BindGroups.
Import JSArray.

(** [SamplerBinding]: its [sampler] resource and the reset flag the
    owning bind group polls. *)
Record SamplerBinding := {
  sampler : option nat;
  shouldResetBindGroup : bool
}.

(** [set resource(value)] of [SamplerBinding] *)
Definition set_resource (b : SamplerBinding) (value : option nat) : SamplerBinding :=
  {| sampler := value;
     shouldResetBindGroup :=
       if Scene.is_some value && Scene.is_some (sampler b) then true
       else shouldResetBindGroup b |}.

(** The bindings a bind group holds; only sampler bindings are detailed. *)
Inductive Binding :=
| SamplerB (b : SamplerBinding)
| OtherB (name : string).

(** A texture of a material: the GPU texture, the external (video)
    texture, and, in the first revision, the sampler it owns. *)
Record Texture := {
  texture : option nat;
  externalTexture : option nat;
  texture_sampler : option nat
}.

Record Sampler := {
  gpuSampler : option nat
}.

Record TextureBindGroup := {
  bindGroup : option nat;
  bindings : list Binding;
  textures : list Texture;
  samplers : list Sampler;
  externalTexturesIndex : list nat;
  needsPipelineFlush : bool
}.

(** [get shouldCreateBindGroup()] of [TextureBindGroup.ts] *)
Definition shouldCreateBindGroup (g : TextureBindGroup) : bool :=
  negb (Scene.is_some (bindGroup g))
  && negb (length (bindings g) =? 0)
  && none_found (fun t => negb (Scene.is_some (texture t)
                                || Scene.is_some (externalTexture t))) (textures g)
  && none_found (fun s => negb (Scene.is_some (gpuSampler s))) (samplers g).

(** [canCreateBindGroup()] of the first revision of the class *)
Definition canCreateBindGroup (g : TextureBindGroup) : bool :=
  negb (Scene.is_some (bindGroup g))
  && none_found (fun t => negb (Scene.is_some (texture_sampler t))
                          || negb (Scene.is_some (texture t))) (textures g).

(** [externalTexturesIndex.includes(textureIndex)] *)
Definition arrayIncludes (l : list nat) (i : nat) : bool := existsb (Nat.eqb i) l.

(** [shouldUpdateVideoTextureBindGroupLayout(textureIndex)]: the returned
    boolean and the bind group afterwards. *)
Definition shouldUpdateVideoTextureBindGroupLayout
  (g : TextureBindGroup) (textureIndex : nat) : bool * TextureBindGroup :=
  if arrayIncludes (externalTexturesIndex g) textureIndex then (false, g)
  else (true,
        {| bindGroup := bindGroup g;
           bindings := bindings g;
           textures := textures g;
           samplers := samplers g;
           externalTexturesIndex := externalTexturesIndex g ++ [textureIndex];
           needsPipelineFlush := true |}).

(** Assigning [binding.resource = value] on the binding held at position
    [i] of the bind group; the binding object is shared with the group, so
    the group sees the new binding.  Positions that hold no sampler binding
    are left alone. *)
Fixpoint setBindingResource (bs : list Binding) (i : nat) (value : option nat)
  : list Binding :=
  match bs, i with
  | [], _ => []
  | SamplerB b :: bs', O => SamplerB (set_resource b value) :: bs'
  | b :: bs', O => b :: bs'
  | b :: bs', S i' => b :: setBindingResource bs' i' value
  end.

Definition setSamplerResource (g : TextureBindGroup) (i : nat) (value : option nat)
  : TextureBindGroup :=
  {| bindGroup := bindGroup g;
     bindings := setBindingResource (bindings g) i value;
     textures := textures g;
     samplers := samplers g;
     externalTexturesIndex := externalTexturesIndex g;
     needsPipelineFlush := needsPipelineFlush g |}.

(** The requirement as the specification words it: not created yet, and
    every resource behind a binding present. *)
Definition specCanCreate (g : TextureBindGroup) : Prop :=
  bindGroup g = None
  /\ Forall (fun t => texture t <> None \/ externalTexture t <> None) (textures g)
  /\ Forall (fun s => gpuSampler s <> None) (samplers g).

End BindGroups.

(* ================================================================== *)
(** ** The mesh creation counter *)

Module MeshBase.

(** An own data property with the attributes [Object.defineProperty]
    controls. *)
Record Property := {
  value : Z;
  writable : bool;
  enumerable : bool;
  configurable : bool
}.

(** An object: its own properties by name. *)
Definition Obj := list (string * Property).

Fixpoint getOwnProperty (o : Obj) (key : string) : option Property :=
  match o with
  | [] => None
  | (k, p) :: o' => if String.eqb k key then Some p else getOwnProperty o' key
  end.

Fixpoint setOwnProperty (o : Obj) (key : string) (p : Property) : Obj :=
  match o with
  | [] => [(key, p)]
  | (k, q) :: o' =>
      if String.eqb k key then (k, p) :: o' else (k, q) :: setOwnProperty o' key p
  end.

(** [Object.defineProperty(o, key, { value: v })]; [None] is the
    [TypeError] raised when a non-configurable, non-writable property would
    change.  Attributes left out of the descriptor default to [false] on a
    new property and are kept on an existing one. *)
Definition defineProperty (o : Obj) (key : string) (v : Z) : option Obj :=
  match getOwnProperty o key with
  | None =>
      Some (setOwnProperty o key
              {| value := v; writable := false; enumerable := false;
                 configurable := false |})
  | Some p =>
      if configurable p || writable p
      then Some (setOwnProperty o key
                   {| value := v; writable := writable p;
                      enumerable := enumerable p; configurable := configurable p |})
      else if (value p =? v)%Z then Some o else None
  end.

(** [o.key = v] in strict code (class bodies are strict); [None] is the
    [TypeError] raised on a read-only property. *)
Definition assign (o : Obj) (key : string) (v : Z) : option Obj :=
  match getOwnProperty o key with
  | None =>
      Some (setOwnProperty o key
              {| value := v; writable := true; enumerable := true;
                 configurable := true |})
  | Some p =>
      if writable p
      then Some (setOwnProperty o key
                   {| value := v; writable := true;
                      enumerable := enumerable p; configurable := configurable p |})
      else None
  end.

(** [Object.defineProperty(this, 'index', { value: meshIndex++ })] of the
    [MeshBase] constructor, on the object [this] the base constructor
    returned: the mesh (nothing when the definition throws) and the
    module-level counter afterwards. *)
Definition construct (this : Obj) (meshIndex : Z) : option Obj * Z :=
  (defineProperty this "index" meshIndex, (meshIndex + 1)%Z).

(** Constructing one mesh per base object, in order, threading the
    counter. *)
Fixpoint constructAll (bases : list Obj) (meshIndex : Z) : list (option Obj) * Z :=
  match bases with
  | [] => ([], meshIndex)
  | this :: rest =>
      let (m, c) := construct this meshIndex in
      let (ms, c') := constructAll rest c in
      (m :: ms, c')
  end.

(** Later writes attempted on a mesh. *)
Inductive Write :=
| Assign (key : string) (v : Z)
| Define (key : string) (v : Z).

(** A failed write throws and leaves the object as it was. *)
Definition write (o : Obj) (w : Write) : Obj :=
  match w with
  | Assign k v => match assign o k v with Some o' => o' | None => o end
  | Define k v => match defineProperty o k v with Some o' => o' | None => o end
  end.

Definition index (o : Obj) : option Z :=
  option_map value (getOwnProperty o "index").

End MeshBase.

(* ================================================================== *)
(** ** Render pipeline entries: shader patching *)

Module Pipeline.

Local Open Scope string_scope.

Notation "a +++ b" := (String.append a b) (at level 60, right associativity).

(** [s.indexOf(sub) !== -1] *)
Fixpoint includes (sub s : string) : bool :=
  String.prefix sub s
  || match s with
     | EmptyString => false
     | String _ s' => includes sub s'
     end.

(** A number inside a template literal. *)
Definition show (n : nat) : string := NilEmpty.string_of_uint (Nat.to_uint n).

(** [GPUShaderStage] *)
Definition VERTEX : N := 1.
Definition FRAGMENT : N := 2.
Definition COMPUTE : N := 4.

Record Binding := {
  visibility : N;
  wgslStructFragment : option string;
  wgslGroupFragment : list string
}.

Record BindGroup := {
  index : nat;
  bindings : list Binding
}.

(** One element of the [groupsBindings] array of [patchShaders]. *)
Record GroupBinding := {
  groupIndex : nat;
  gb_visibility : N;
  bindIndex : nat;
  gb_wgslStructFragment : option string;
  gb_wgslGroupFragment : string;
  newLine : bool
}.

(** The elements of an array paired with their positions, as the callback
    of [forEach] receives them. *)
Definition indexed (A : Type) (l : list A) : list (nat * A) :=
  combine (seq 0 (length l)) l.

(** The three nested [forEach] loops that fill [groupsBindings]; the state
    of the two inner loops is the counter [bindIndex] and the array. *)
Definition pushFragments (bindGroup : BindGroup) (bindingIndex : nat) (binding : Binding)
  (st : nat * list GroupBinding) : nat * list GroupBinding :=
  fold_left
    (fun (st : nat * list GroupBinding) (gf : nat * string) =>
       (S (fst st),
        (snd st ++
        [{| groupIndex := index bindGroup;
            gb_visibility := visibility binding;
            bindIndex := fst st;
            gb_wgslStructFragment := wgslStructFragment binding;
            gb_wgslGroupFragment := snd gf;
            newLine :=
              Nat.eqb bindingIndex (length (bindings bindGroup) - 1)
              && Nat.eqb (fst gf) (length (wgslGroupFragment binding) - 1) |}])%list))
    (indexed (wgslGroupFragment binding)) st.

Definition pushBindings (groupsBindings : list GroupBinding) (bindGroup : BindGroup)
  : list GroupBinding :=
  snd (fold_left
         (fun st (ib : nat * Binding) => pushFragments bindGroup (fst ib) (snd ib) st)
         (indexed (bindings bindGroup)) (0, groupsBindings)).

Definition groupsBindings (bindGroups : list BindGroup) : list GroupBinding :=
  fold_left pushBindings bindGroups [].

(** A fragment that is neither [undefined] nor the empty string. *)
Definition truthy (o : option string) : option string :=
  match o with
  | Some EmptyString => None
  | _ => o
  end.

(** The line a group binding contributes to a shader head. *)
Definition declaration (gb : GroupBinding) : string :=
  String (ascii_of_nat 10) "@group(" +++ show (groupIndex gb) +++ ") @binding("
  +++ show (bindIndex gb) +++ ") " +++ gb_wgslGroupFragment gb
  +++ (if newLine gb then String (ascii_of_nat 10) EmptyString else EmptyString).

Definition nl : string := String (ascii_of_nat 10) EmptyString.

(** The struct fragment, when the head lacks it, goes in front. *)
Definition patchStruct (head : string) (gb : GroupBinding) : string :=
  match truthy (gb_wgslStructFragment gb) with
  | Some structFragment =>
      if includes structFragment head then head
      else nl +++ structFragment +++ nl +++ head
  | None => head
  end.

(** The declaration, when the head lacks the group fragment, goes at the
    end. *)
Definition patchGroup (head : string) (gb : GroupBinding) : string :=
  if includes (gb_wgslGroupFragment gb) head then head
  else head +++ declaration gb.

(** What one iteration of [groupsBindings.forEach] does to a head it
    applies to. *)
Definition patchHead (head : string) (gb : GroupBinding) : string :=
  patchGroup (patchStruct head gb) gb.

Definition visibleIn (stage : N) (gb : GroupBinding) : bool :=
  (gb_visibility gb =? stage)%N
  || (gb_visibility gb =? N.lor VERTEX (N.lor FRAGMENT COMPUTE))%N.

Record Heads := {
  vertexHead : string;
  fragmentHead : string;
  fullHead : string
}.

Definition patchHeads (h : Heads) (gb : GroupBinding) : Heads :=
  {| vertexHead :=
       if visibleIn VERTEX gb then patchHead (vertexHead h) gb else vertexHead h;
     fragmentHead :=
       if visibleIn FRAGMENT gb then patchHead (fragmentHead h) gb else fragmentHead h;
     fullHead := patchHead (fullHead h) gb |}.

(** The shader chunks: the values of [ShaderChunks.vertex] and
    [ShaderChunks.fragment] (or of [ProjectedShaderChunks]) in key order.
    The chunk modules are not among the sources at hand and are taken as
    given. *)
Record Chunks := {
  vertexChunks : list string;
  fragmentChunks : list string
}.

Definition addChunks (c : Chunks) (h : Heads) : Heads :=
  let h :=
    fold_left (fun h chunk =>
      {| vertexHead := chunk +++ nl +++ vertexHead h;
         fragmentHead := fragmentHead h;
         fullHead := chunk +++ nl +++ fullHead h |}) (vertexChunks c) h in
  fold_left (fun h chunk =>
    {| vertexHead := vertexHead h;
       fragmentHead := chunk +++ nl +++ fragmentHead h;
       fullHead := if includes chunk (fullHead h) then fullHead h
                   else chunk +++ nl +++ fullHead h |}) (fragmentChunks c) h.

Record ShaderOption := {
  code : string;
  entryPoint : string
}.

Record Options := {
  optUseProjection : bool;
  optVertex : ShaderOption;
  optFragment : ShaderOption
}.

Record Shader := {
  head : string;
  shaderCode : string;
  module : option nat
}.

Record Shaders := {
  vertex : Shader;
  fragment : Shader;
  full : Shader
}.

Section Locale.

(** [String.prototype.localeCompare] of the host.  Which texts it takes
    for equal (result 0) is up to the implementation and the locale, so
    the comparison is a parameter of what follows. *)
Variable localeCompare : string -> string -> Z.

(** [vertex.entryPoint !== fragment.entryPoint &&
     vertex.code.localeCompare(fragment.code) === 0] *)
Definition isSameShader (o : Options) : bool :=
  negb (String.eqb (entryPoint (optVertex o)) (entryPoint (optFragment o)))
  && (localeCompare (code (optVertex o)) (code (optFragment o)) =? 0)%Z.

(** The heads once the chunks are in: the first part of [patchShaders]. *)
Definition chunkHeads (shaderChunks projectedShaderChunks : Chunks) (o : Options)
  : Heads :=
  let h := {| vertexHead := EmptyString; fragmentHead := EmptyString;
               fullHead := EmptyString |} in
  let h := addChunks shaderChunks h in
  if optUseProjection o then addChunks projectedShaderChunks h else h.

(** The heads [patchShaders] has built when it reaches the attributes. *)
Definition patchedHeads (shaderChunks projectedShaderChunks : Chunks) (o : Options)
  (bindGroups : list BindGroup) : Heads :=
  fold_left patchHeads (groupsBindings bindGroups)
    (chunkHeads shaderChunks projectedShaderChunks o).

(** [RenderPipelineEntry.patchShaders()]; [attributes] is
    [this.attributes.wgslStructFragment]. *)
Definition patchShaders (shaderChunks projectedShaderChunks : Chunks) (o : Options)
  (attributes : string) (bindGroups : list BindGroup) : Shaders :=
  let h := patchedHeads shaderChunks projectedShaderChunks o bindGroups in
  let vhead := attributes +++ nl +++ vertexHead h in
  let fullhead := attributes +++ nl +++ fullHead h in
  {| vertex := {| head := vhead; shaderCode := vhead +++ code (optVertex o);
                  module := None |};
     fragment := {| head := fragmentHead h;
                    shaderCode := fragmentHead h +++ code (optFragment o);
                    module := None |};
     full := {| head := fullhead;
                shaderCode :=
                  if isSameShader o then fullhead +++ code (optVertex o)
                  else fullhead +++ code (optVertex o) +++ code (optFragment o);
                module := None |} |}.

(** The argument of a [createShaderModule] call. *)
Record ShaderModuleDescriptor := {
  smCode : string;
  smType : string
}.

(** The device: the shader modules it has compiled, oldest first.  A
    module's handle is its position. *)
Definition Device := list ShaderModuleDescriptor.

(** [GPURenderer.createShaderModule]:
    [this.device?.createShaderModule(descriptor)].  A device compiles a new
    module at each call; without a device the result is [undefined]. *)
Definition GPURenderer_createShaderModule (device : option Device)
  (descriptor : ShaderModuleDescriptor) : option nat * option Device :=
  match device with
  | Some d => (Some (length d), Some (d ++ [descriptor])%list)
  | None => (None, None)
  end.

(** The position of the first element that satisfies [f]. *)
Fixpoint findIndex (A : Type) (f : A -> bool) (l : list A) : option nat :=
  match l with
  | [] => None
  | x :: l' => if f x then Some 0 else option_map S (findIndex f l')
  end.

(** Modelled from the spec: [PipelineEntry.createShaderModule] is missing
    from the sources at hand.  The specification has one text compiled
    into a single module that is reused: a module compiled from the same
    code is handed out again, and any other code goes to
    [GPURenderer.createShaderModule]. *)
Definition createShaderModule (device : option Device) (c : string) (type : string)
  : option nat * option Device :=
  match device with
  | Some d =>
      match findIndex (fun m => String.eqb (smCode m) c) d with
      | Some m => (Some m, device)
      | None =>
          GPURenderer_createShaderModule device {| smCode := c; smType := type |}
      end
  | None => GPURenderer_createShaderModule device {| smCode := c; smType := type |}
  end.

(** [RenderPipelineEntry.createShaders()] *)
Definition createShaders (shaderChunks projectedShaderChunks : Chunks) (o : Options)
  (attributes : string) (bindGroups : list BindGroup) (device : option Device)
  : Shaders * option Device :=
  let s := patchShaders shaderChunks projectedShaderChunks o attributes bindGroups in
  let same := isSameShader o in
  let (vm, device) :=
    createShaderModule device (shaderCode (if same then full s else vertex s))
                       "vertex" in
  let (fm, device) :=
    createShaderModule device (shaderCode (if same then full s else fragment s))
                       "fragment" in
  ({| vertex := {| head := head (vertex s); shaderCode := shaderCode (vertex s);
                   module := vm |};
      fragment := {| head := head (fragment s); shaderCode := shaderCode (fragment s);
                     module := fm |};
      full := full s |}, device).

End Locale.

(** *** The enumeration as the specification words it

    For each bind group in order, for each binding in declaration order,
    one slot per group fragment, the position counting up from 0 within
    the group. *)
Definition groupFragments (bindGroup : BindGroup) : list string :=
  flat_map wgslGroupFragment (bindings bindGroup).

Definition specSlots (bindGroups : list BindGroup) : list (nat * nat * string) :=
  flat_map
    (fun bindGroup =>
       map (fun pf => (index bindGroup, fst pf, snd pf))
           (indexed (groupFragments bindGroup)))
    bindGroups.

Definition slot (gb : GroupBinding) : nat * nat * string :=
  (groupIndex gb, bindIndex gb, gb_wgslGroupFragment gb).

(** The same enumeration with all that a group binding carries: the
    position of a group fragment is the number of group fragments of the
    bindings before its own plus its place in its binding, and the new
    line goes with the last group fragment of the last binding of the
    group. *)
Definition specBindingEntries (bindGroup : BindGroup) (bindingIndex : nat)
  (binding : Binding) : list GroupBinding :=
  map (fun pf : nat * string =>
         {| groupIndex := index bindGroup;
            gb_visibility := visibility binding;
            bindIndex :=
              length (flat_map wgslGroupFragment
                               (firstn bindingIndex (bindings bindGroup)))
              + fst pf;
            gb_wgslStructFragment := wgslStructFragment binding;
            gb_wgslGroupFragment := snd pf;
            newLine :=
              Nat.eqb bindingIndex (length (bindings bindGroup) - 1)
              && Nat.eqb (fst pf) (length (wgslGroupFragment binding) - 1) |})
      (combine (seq 0 (length (wgslGroupFragment binding)))
               (wgslGroupFragment binding)).

Definition specGroupBindings (bindGroups : list BindGroup) : list GroupBinding :=
  flat_map
    (fun bindGroup =>
       flat_map (fun ib => specBindingEntries bindGroup (fst ib) (snd ib))
                (combine (seq 0 (length (bindings bindGroup)))
                         (bindings bindGroup)))
    bindGroups.

(** *** The patching as the amended claim words it

    [sub] occurs in [s] when [s] is some text, then [sub], then some
    text. *)
Definition Occurs (sub s : string) : Prop := exists p t, s = p +++ sub +++ t.

(** The struct fragment of a group binding goes in front of the head,
    between two new lines, unless the binding has none (or an empty one)
    or its text occurs in the head. *)
Inductive StructStep (gb : GroupBinding) (h : string) : string -> Prop :=
| struct_none :
    gb_wgslStructFragment gb = None \/ gb_wgslStructFragment gb = Some EmptyString ->
    StructStep gb h h
| struct_present structFragment :
    gb_wgslStructFragment gb = Some structFragment ->
    Occurs structFragment h -> StructStep gb h h
| struct_added structFragment :
    gb_wgslStructFragment gb = Some structFragment ->
    structFragment <> EmptyString ->
    ~ Occurs structFragment h ->
    StructStep gb h
      (String (ascii_of_nat 10) structFragment +++ String (ascii_of_nat 10) h).

(** The declaration of a group binding goes at the end of the head, on a
    line of its own, unless the text of its group fragment occurs in the
    head; the numbers are written in decimal, and a new line follows when
    the group binding asks for one. *)
Inductive GroupStep (gb : GroupBinding) (h : string) : string -> Prop :=
| group_present :
    Occurs (gb_wgslGroupFragment gb) h -> GroupStep gb h h
| group_declared :
    ~ Occurs (gb_wgslGroupFragment gb) h ->
    GroupStep gb h
      (h +++ String (ascii_of_nat 10)
               ("@group(" +++ NilEmpty.string_of_uint (Nat.to_uint (groupIndex gb))
                +++ ") @binding("
                +++ NilEmpty.string_of_uint (Nat.to_uint (bindIndex gb))
                +++ ") " +++ gb_wgslGroupFragment gb
                +++ (if newLine gb then String (ascii_of_nat 10) EmptyString
                     else EmptyString))).

(** A head patched with the group bindings in their order: for each one
    the struct step, then the group step. *)
Inductive SpecPatched : string -> list GroupBinding -> string -> Prop :=
| spec_done h : SpecPatched h [] h
| spec_step h gb gbs h1 h2 h3 :
    StructStep gb h h1 -> GroupStep gb h1 h2 -> SpecPatched h2 gbs h3 ->
    SpecPatched h (gb :: gbs) h3.

(** [l1] is [l2] with some elements left out, order kept. *)
Inductive Subsequence (A : Type) : list A -> list A -> Prop :=
| sub_nil : Subsequence [] []
| sub_skip x l1 l2 : Subsequence l1 l2 -> Subsequence l1 (x :: l2)
| sub_keep x l1 l2 : Subsequence l1 l2 -> Subsequence (x :: l1) (x :: l2).

(** The text of the declarations of a list of group bindings. *)
Definition declarations (l : list GroupBinding) : string :=
  fold_right (fun gb s => declaration gb +++ s) EmptyString l.

(** The struct fragments of a list of group bindings, in order. *)
Definition structFragments (l : list GroupBinding) : list string :=
  flat_map (fun gb => match truthy (gb_wgslStructFragment gb) with
                      | Some structFragment => [structFragment]
                      | None => []
                      end) l.

(** The text of struct fragments put in front of a head one after the
    other: the last one added comes first. *)
Definition structDeclarations (l : list string) : string :=
  fold_right (fun structFragment s => s +++ nl +++ structFragment +++ nl)
             EmptyString l.

(** A head patched from [head0] with the group bindings [gbs]: in front
    some of the struct fragments, then [head0], then the declarations of
    some of the group bindings in their order; nothing is added that
    [head0] had, no struct fragment and no group fragment is added twice,
    and every struct fragment and group fragment of [gbs] occurs in the
    end. *)
Definition Patched (head0 : string) (gbs : list GroupBinding) (head : string) : Prop :=
  exists (structs : list string) (emitted : list GroupBinding),
    head = structDeclarations structs +++ head0 +++ declarations emitted
    /\ Subsequence structs (structFragments gbs)
    /\ Subsequence emitted gbs
    /\ NoDup structs
    /\ NoDup (map gb_wgslGroupFragment emitted)
    /\ (forall sf, In sf structs -> includes sf head0 = false)
    /\ (forall gb, In gb emitted -> includes (gb_wgslGroupFragment gb) head0 = false)
    /\ (forall sf, In sf (structFragments gbs) -> includes sf head = true)
    /\ (forall gb, In gb gbs -> includes (gb_wgslGroupFragment gb) head = true).

End Pipeline.

(* ================================================================== *)
(** ** Sample scenes *)

Module Examples.
Import Scene.

Definition sampleMaterial (entry : Z) (pipeline : option nat) (projection : bool)
  : Material :=
  {| pipelineEntry := {| pe_index := entry; pe_pipeline := pipeline |};
     bindGroups := [(0, 40)];
     useProjection := projection |}.

(** A mesh with the given identity, creation index, transparency, render
    order, depth, pipeline entry and projection. *)
Definition sampleMesh (u : nat) (i : Z) (t : bool) (order depth entry : Z)
  (projection : bool) : Mesh :=
  {| uuid := u; index := i; transparent := t; visible := true;
     renderOrder := order; documentPosition_z := depth;
     material := sampleMaterial entry None projection;
     renderTexture := 100 + u |}.

(** A ready renderer with nothing in it. *)
Definition emptyRenderer : Renderer :=
  {| deviceManager_ready := true; context := Some 0;
     canvas_style_width := "800px";
     meshes := []; cameraBindGroup := Some (0, 7); stacks := setStacks |}.

(** The same renderer before its context exists. *)
Definition notReadyRenderer : Renderer :=
  {| deviceManager_ready := true; context := None;
     canvas_style_width := "800px";
     meshes := []; cameraBindGroup := None; stacks := setStacks |}.

Definition order0 : Mesh := sampleMesh 1 0 false 0 0 0 false.
Definition order10 : Mesh := sampleMesh 2 1 false 10 0 0 false.
Definition flatOpaque : Mesh := sampleMesh 3 0 false 0 0 0 false.
Definition projectedOpaque : Mesh := sampleMesh 4 1 false 0 0 1 true.
Definition depth5 : Mesh := sampleMesh 5 0 true 0 5 0 true.
Definition depth1 : Mesh := sampleMesh 6 1 true 0 1 1 true.
Definition depth3 : Mesh := sampleMesh 7 2 true 0 3 0 true.
Definition passA : Mesh := sampleMesh 8 0 false 0 0 2 false.
Definition passB : Mesh := sampleMesh 9 1 false 1 0 3 false.
Definition passC : Mesh := sampleMesh 10 2 false 0 0 4 false.

(** A texture bind group with no binding, texture or sampler: the group
    of a material without textures, before its creation. *)
Definition emptyBindGroup : BindGroups.TextureBindGroup :=
  {| BindGroups.bindGroup := None;
     BindGroups.bindings := [];
     BindGroups.textures := [];
     BindGroups.samplers := [];
     BindGroups.externalTexturesIndex := [];
     BindGroups.needsPipelineFlush := false |}.

(** A created group with one video texture and its sampler binding, the
    video texture of index 0 already uploaded once. *)
Definition videoBindGroup : BindGroups.TextureBindGroup :=
  {| BindGroups.bindGroup := Some 3;
     BindGroups.bindings :=
       [BindGroups.OtherB "videoTexture";
        BindGroups.SamplerB {| BindGroups.sampler := Some 11;
                               BindGroups.shouldResetBindGroup := false |}];
     BindGroups.textures :=
       [{| BindGroups.texture := None; BindGroups.externalTexture := Some 21;
           BindGroups.texture_sampler := Some 11 |}];
     BindGroups.samplers := [{| BindGroups.gpuSampler := Some 11 |}];
     BindGroups.externalTexturesIndex := [0];
     BindGroups.needsPipelineFlush := false |}.

(** The object a base constructor hands to [MeshBase]: [type] and [uuid]
    are plain writable properties. *)
Definition baseObject (u : Z) : MeshBase.Obj :=
  [("type"%string, {| MeshBase.value := 0; MeshBase.writable := true;
                      MeshBase.enumerable := true; MeshBase.configurable := true |});
   ("uuid"%string, {| MeshBase.value := u; MeshBase.writable := true;
                      MeshBase.enumerable := true; MeshBase.configurable := true |})].

(** Two bind groups: a texture, its sampler and a second binding that
    names the same sampler in group 0; a uniform struct with two group
    fragments in group 1. *)
Definition sampleBindGroups : list Pipeline.BindGroup :=
  [ {| Pipeline.index := 0;
       Pipeline.bindings :=
         [ {| Pipeline.visibility := 2;
              Pipeline.wgslStructFragment := None;
              Pipeline.wgslGroupFragment := ["var tex: texture_2d<f32>;"%string] |};
           {| Pipeline.visibility := 2;
              Pipeline.wgslStructFragment := None;
              Pipeline.wgslGroupFragment := ["var smp: sampler;"%string] |};
           {| Pipeline.visibility := 2;
              Pipeline.wgslStructFragment := None;
              Pipeline.wgslGroupFragment := ["var smp: sampler;"%string] |} ] |};
    {| Pipeline.index := 1;
       Pipeline.bindings :=
         [ {| Pipeline.visibility := 7;
              Pipeline.wgslStructFragment := Some "struct P { a: f32 };"%string;
              Pipeline.wgslGroupFragment :=
                ["var<uniform> p: P;"%string; "var<uniform> q: P;"%string] |} ] |} ].

Definition noChunks : Pipeline.Chunks :=
  {| Pipeline.vertexChunks := []; Pipeline.fragmentChunks := [] |}.

(** One source text with the two entry points [vs] and [fs]. *)
Definition sharedSource : Pipeline.Options :=
  {| Pipeline.optUseProjection := false;
     Pipeline.optVertex := {| Pipeline.code := "@vertex fn vs() {} @fragment fn fs() {}";
                              Pipeline.entryPoint := "vs" |};
     Pipeline.optFragment := {| Pipeline.code := "@vertex fn vs() {} @fragment fn fs() {}";
                                Pipeline.entryPoint := "fs" |} |}.

(** The same source text for both stages, each with the default entry
    point [main]. *)
Definition sameEntryPoint : Pipeline.Options :=
  {| Pipeline.optUseProjection := false;
     Pipeline.optVertex := {| Pipeline.code := "fn main() {}";
                              Pipeline.entryPoint := "main" |};
     Pipeline.optFragment := {| Pipeline.code := "fn main() {}";
                                Pipeline.entryPoint := "main" |} |}.

(** A comparison of texts by code points: 0 for equal texts only. *)
Definition codePointCompare (a b : string) : Z :=
  match String.compare a b with
  | Eq => 0
  | Lt => -1
  | Gt => 1
  end.

(** One bind group with two bindings of different texts, the second text
    occurring inside the first. *)
Definition overlappingBindGroups : list Pipeline.BindGroup :=
  [ {| Pipeline.index := 0;
       Pipeline.bindings :=
         [ {| Pipeline.visibility := 2;
              Pipeline.wgslStructFragment := None;
              Pipeline.wgslGroupFragment :=
                ["var<uniform> time: f32; // seconds"%string] |};
           {| Pipeline.visibility := 2;
              Pipeline.wgslStructFragment := None;
              Pipeline.wgslGroupFragment :=
                ["var<uniform> time: f32;"%string] |} ] |} ].

End Examples.

(* ================================================================== *)
(** ** More of the scene and of the renderer *)

Module SceneOps.
Import JSArray Scene.

(** [Scene.removeShaderPass] *)
Definition removeShaderPass (r : Renderer) (shaderPass : Mesh) : Renderer :=
  let s := stacks r in
  set_stacks r
    {| unprojected := unprojected s; pingPongPlanes := pingPongPlanes s;
       shaderPasses :=
         filter (fun sP => negb (uuid sP =? uuid shaderPass)) (shaderPasses s);
       projected := projected s |}.

(** [Scene.removePingPongPlane] *)
Definition removePingPongPlane (r : Renderer) (pingPongPlane : Mesh) : Renderer :=
  let s := stacks r in
  set_stacks r
    {| unprojected := unprojected s;
       pingPongPlanes :=
         filter (fun pPP => negb (uuid pPP =? uuid pingPongPlane)) (pingPongPlanes s);
       shaderPasses := shaderPasses s; projected := projected s |}.

(** [MeshBase.removeFromScene] with [autoRender] on: out of the scene,
    then out of [renderer.meshes]. *)
Definition removeFromScene (r : Renderer) (mesh : Mesh) : Renderer :=
  let r := removeMesh r mesh in
  set_meshes r (filter (fun m => negb (uuid m =? uuid mesh)) (meshes r)).

(** The array [addMesh] would build if it put the mesh at position [i]
    instead of next to its pipeline sibling. *)
Definition similarMeshesAt (i : nat) (r : Renderer) (mesh : Mesh) : list Mesh :=
  let similar := filter (similarTo mesh) (meshes r) in
  let l := sort byIndex (splice i mesh similar) in
  let l := if transparent mesh then sort byDepth l else l in
  sort byRenderOrder l.

(** A command log is well bracketed when no render pass begins while
    another is open, every pass that begins is ended, the commands recorded
    on a pass encoder are issued while that pass is open, and texture
    copies are issued between passes.  [open] is the pass open so far. *)
Fixpoint bracketed (open : option nat) (log : list Command) : bool :=
  match log with
  | [] => negb (is_some open)
  | c :: log' =>
      match c, open with
      | BeginRenderPass p, None => bracketed (Some p) log'
      | BeginRenderPass _, Some _ => false
      | PassEnd p, Some q => (p =? q) && bracketed None log'
      | PassEnd _, None => false
      | CopyTextureToTexture _, None => bracketed None log'
      | CopyTextureToTexture _, Some _ => false
      | SetBindGroup p _ _, Some q => (p =? q) && bracketed open log'
      | SetCurrentPipeline p _, Some q => (p =? q) && bracketed open log'
      | GeometryRender _ p, Some q => (p =? q) && bracketed open log'
      | SetBindGroup _ _ _, None => false
      | SetCurrentPipeline _ _, None => false
      | GeometryRender _ _, None => false
      | _, _ => bracketed open log'
      end
  end.

(** The render passes a command log begins, in order. *)
Definition passesBegun (log : list Command) : list nat :=
  flat_map (fun c => match c with BeginRenderPass p => [p] | _ => [] end) log.

(** [GPUCameraRenderer.renderSingleMesh]: a pass of its own, the camera
    bind group when the mesh is projected, the draw, the end of the pass.
    [camera] is the index and the handle of the camera bind group. *)
Definition renderSingleMesh (r : Renderer) (camera : nat * nat) (mesh : Mesh)
  : Enc unit :=
  pass <- beginRenderPass ;;
  (if useProjection (material mesh)
   then emit [SetBindGroup pass (fst camera) (snd camera)]
   else ret tt) ;;;
  emit (Mesh_render r mesh pass) ;;;
  emit [PassEnd pass].

(** [GPURenderer.renderOnce(objects)] for meshes: each one through
    [renderSingleMesh], on an encoder of its own.  [device] is
    [this.device]: without it [this.device?.createCommandEncoder(...)] is
    [undefined], and the first call on the encoder ([beginRenderPass], or
    [finish] when there is no object) throws a [TypeError], which is
    [None]. *)
Definition renderOnce (device : option nat) (r : Renderer) (camera : nat * nat)
  (objects : list Mesh) : option (list Command) :=
  match device with
  | None => None
  | Some _ =>
      Some (commands (snd (forEach objects (renderSingleMesh r camera)
                             {| nextPass := 0; commands := [] |})))
  end.

End SceneOps.

(* ================================================================== *)
(** ** More of the render pipeline entry *)

Module PipelineOps.
Import Pipeline.
Local Open Scope string_scope.

(** The vertex buffers of the geometry attributes. *)
Record VertexAttribute := {
  bufferOffset : nat;
  bufferFormat : string
}.

Record VertexBuffer := {
  stepMode : string;
  arrayStride : nat;
  attributes : list VertexAttribute
}.

(** The vertex state buffers of the descriptor. *)
Record AttributeLayout := {
  shaderLocation : Z;
  offset : nat;
  format : string
}.

Record BufferLayout := {
  layoutStepMode : string;
  layoutArrayStride : nat;
  layoutAttributes : list AttributeLayout
}.

(** The inner [map] of [createPipelineDescriptor]: [vertexLocationIndex]
    is incremented, then used. *)
Definition mapAttributes (vertexLocationIndex : Z) (l : list VertexAttribute)
  : Z * list AttributeLayout :=
  fold_left
    (fun (st : Z * list AttributeLayout) attribute =>
       let vertexLocationIndex := (fst st + 1)%Z in
       (vertexLocationIndex,
        (snd st ++ [{| shaderLocation := vertexLocationIndex;
                       offset := bufferOffset attribute;
                       format := bufferFormat attribute |}])%list))
    l (vertexLocationIndex, []).

(** The outer [map], starting from [vertexLocationIndex = -1]. *)
Definition vertexBufferLayouts (vertexBuffers : list VertexBuffer) : list BufferLayout :=
  snd (fold_left
         (fun (st : Z * list BufferLayout) vertexBuffer =>
            let (vertexLocationIndex, layouts) :=
              mapAttributes (fst st) (attributes vertexBuffer) in
            (vertexLocationIndex,
             (snd st ++ [{| layoutStepMode := stepMode vertexBuffer;
                            layoutArrayStride := arrayStride vertexBuffer * 4;
                            layoutAttributes := layouts |}])%list))
         vertexBuffers ((-1)%Z, [])).

Record BlendComponent := {
  srcFactor : string;
  dstFactor : string
}.

Record Blend := {
  color : BlendComponent;
  alpha : BlendComponent
}.

Record DepthStencil := {
  depthWriteEnabled : bool;
  depthCompare : string;
  depthFormat : string
}.

(** The rendering options the descriptor reads. *)
Record RenderingOptions := {
  optBlend : option Blend;
  optTransparent : bool;
  optTargetFormat : option string;
  optDepth : bool;
  optDepthWriteEnabled : bool;
  optDepthCompare : string;
  optSampleCount : nat;
  optTopology : string;
  optVerticesOrder : string;
  optCullMode : string
}.

Record Descriptor := {
  vertexModule : nat;
  vertexEntryPoint : string;
  buffers : list BufferLayout;
  fragmentModule : nat;
  fragmentEntryPoint : string;
  targetFormat : string;
  targetBlend : option Blend;
  depthStencil : option DepthStencil;
  multisampleCount : option nat
}.

(** The blend equation of a transparent mesh on a premultiplied canvas. *)
Definition transparentBlend : Blend :=
  {| color := {| srcFactor := "src-alpha"; dstFactor := "one-minus-src-alpha" |};
     alpha := {| srcFactor := "one"; dstFactor := "one-minus-src-alpha" |} |}.

(** [RenderPipelineEntry.createPipelineDescriptor]: nothing without the
    two shader modules; [previous] is the descriptor so far. *)
Definition createPipelineDescriptor (shaders : Shaders) (o : Options)
  (rendering : RenderingOptions) (preferredFormat : string)
  (vertexBuffers : list VertexBuffer) (previous : option Descriptor)
  : option Descriptor :=
  match module (vertex shaders), module (fragment shaders) with
  | Some vm, Some fm =>
      let blend :=
        match optBlend rendering with
        | Some b => Some b
        | None => if optTransparent rendering then Some transparentBlend else None
        end in
      Some {| vertexModule := vm;
              vertexEntryPoint := entryPoint (optVertex o);
              buffers := vertexBufferLayouts vertexBuffers;
              fragmentModule := fm;
              fragmentEntryPoint := entryPoint (optFragment o);
              targetFormat :=
                match optTargetFormat rendering with
                | Some f => f
                | None => preferredFormat
                end;
              targetBlend := blend;
              depthStencil :=
                if optDepth rendering
                then Some {| depthWriteEnabled := optDepthWriteEnabled rendering;
                             depthCompare := optDepthCompare rendering;
                             depthFormat := "depth24plus" |}
                else None;
              multisampleCount :=
                if Nat.ltb 1 (optSampleCount rendering)
                then Some (optSampleCount rendering) else None |}
  | _, _ => previous
  end.

(** The shader locations of a list of buffer layouts, buffer by buffer. *)
Definition shaderLocations (layouts : list BufferLayout) : list Z :=
  flat_map (fun layout => map shaderLocation (layoutAttributes layout)) layouts.

(** The [@group]/[@binding] pair of a group binding. *)
Definition bindingSlot (gb : GroupBinding) : nat * nat :=
  (groupIndex gb, bindIndex gb).

End PipelineOps.

(* ================================================================== *)
(** ** Video uploads, material textures and the sources of a DOM mesh *)

Module VideoUploads.
Import BindGroups.

(** The calls [shouldUpdateVideoTextureBindGroupLayout(textureIndex)] that
    [Material.onBeforeRender] makes over time, one per entry of [uploads]:
    the answers, and the bind group afterwards. *)
Fixpoint videoUploads (g : TextureBindGroup) (uploads : list nat)
  : list bool * TextureBindGroup :=
  match uploads with
  | [] => ([], g)
  | textureIndex :: rest =>
      let (answer, g1) := shouldUpdateVideoTextureBindGroupLayout g textureIndex in
      let (answers, g2) := videoUploads g1 rest in
      (answer :: answers, g2)
  end.

End VideoUploads.

Module Materials.
Local Open Scope string_scope.

Inductive BindingType := samplerType | textureType | externalTextureType.

(** The three kinds of bindings a texture holds. *)
Inductive TextureBinding :=
| BindGroupSamplerBinding (label name : string) (bindingType : BindingType)
| BindGroupTextureBinding (label name : string) (bindingType : BindingType)
| BindGroupBufferBindings (label name : string).

Record TextureOptions := {
  label : string;
  name : string;
  sourceType : string
}.

Record Texture := {
  options : TextureOptions;
  textureMatrix : TextureBinding;
  bindings : list TextureBinding
}.

(** [Texture.setBindings] *)
Definition setBindings (t : Texture) : Texture :=
  {| options := options t;
     textureMatrix := textureMatrix t;
     bindings :=
       [ BindGroupSamplerBinding
           (label (options t) ++ ": " ++ name (options t))
           (name (options t)) samplerType;
         BindGroupTextureBinding
           (label (options t) ++ ": " ++ name (options t) ++ " sampler")
           (name (options t))
           (if String.eqb (sourceType (options t)) "video"
            then externalTextureType else textureType);
         textureMatrix t ] |}.

(** The [Texture] constructor, as far as the bindings go. *)
Definition newTexture (label name : string) : Texture :=
  setBindings
    {| options := {| label := label; name := name; sourceType := "empty" |};
       textureMatrix := BindGroupBufferBindings "TextureMatrix" (name ++ "Matrix");
       bindings := [] |}.

(** The textures bind group of a material: its textures and its
    bindings. *)
Record TextureBindGroup := {
  groupTextures : list Texture;
  groupBindings : list TextureBinding
}.

(** [TextureBindGroup.addTexture] *)
Definition TextureBindGroup_addTexture (g : TextureBindGroup) (texture : Texture)
  : TextureBindGroup :=
  {| groupTextures := (groupTextures g ++ [texture])%list;
     groupBindings := (groupBindings g ++ bindings texture)%list |}.

Record Material := {
  vertexCode : string;
  fragmentCode : string;
  textures : list Texture;
  texturesBindGroup : TextureBindGroup
}.

(** The test of [Material.addTexture]: is the texture named in a shader? *)
Definition usedInShaders (m : Material) (texture : Texture) : bool :=
  Pipeline.includes (name (options texture)) (vertexCode m)
  || Pipeline.includes (name (options texture)) (fragmentCode m).

(** [Material.addTexture] *)
Definition addTexture (m : Material) (texture : Texture) : Material :=
  {| vertexCode := vertexCode m;
     fragmentCode := fragmentCode m;
     textures := (textures m ++ [texture])%list;
     texturesBindGroup :=
       if usedInShaders m texture
       then TextureBindGroup_addTexture (texturesBindGroup m) texture
       else texturesBindGroup m |}.

(** [entryIndex] of [resetTextureBindGroup] and of
    [updateVideoTextureBindGroupLayout] *)
Definition entryIndex (textureIndex : nat) : nat := textureIndex * 3 + 1.

End Materials.

Module DOMMesh.

(** The callbacks of a DOM mesh, as they are called. *)
Inductive Callback :=
| OnReady
| OnLoading (texture : nat).

(** The two flags of a DOM mesh, the two counters [setInitSources] closes
    over, and the callbacks called so far. *)
Record DOMMesh := {
  _ready : bool;
  _sourcesReady : bool;
  autoloadSources : bool;
  loaderSize : nat;
  sourcesLoaded : nat;
  callbacks : list Callback
}.

(** [get DOMMeshReady()] *)
Definition DOMMeshReady (m : DOMMesh) : bool := _ready m && _sourcesReady m.

Definition call (m : DOMMesh) (c : Callback) : DOMMesh :=
  {| _ready := _ready m; _sourcesReady := _sourcesReady m;
     autoloadSources := autoloadSources m;
     loaderSize := loaderSize m; sourcesLoaded := sourcesLoaded m;
     callbacks := callbacks m ++ [c] |}.

(** [set ready(value)] *)
Definition set_ready (value : bool) (m : DOMMesh) : DOMMesh :=
  let m := {| _ready := value; _sourcesReady := _sourcesReady m;
              autoloadSources := autoloadSources m;
              loaderSize := loaderSize m; sourcesLoaded := sourcesLoaded m;
              callbacks := callbacks m |} in
  if DOMMeshReady m then call m OnReady else m.

(** [set sourcesReady(value)] *)
Definition set_sourcesReady (value : bool) (m : DOMMesh) : DOMMesh :=
  let m := {| _ready := _ready m; _sourcesReady := value;
              autoloadSources := autoloadSources m;
              loaderSize := loaderSize m; sourcesLoaded := sourcesLoaded m;
              callbacks := callbacks m |} in
  if DOMMeshReady m then call m OnReady else m.

(** [setInitSources], for an element with that many images, videos and
    canvases. *)
Definition setInitSources (images videos canvases : nat) (m : DOMMesh) : DOMMesh :=
  if autoloadSources m then
    let loaderSize := images + videos + canvases in
    let m := {| _ready := _ready m; _sourcesReady := _sourcesReady m;
                autoloadSources := autoloadSources m;
                loaderSize := loaderSize; sourcesLoaded := 0;
                callbacks := callbacks m |} in
    if loaderSize =? 0 then set_sourcesReady true m else m
  else set_sourcesReady true m.

(** The closure [onSourceUploaded] of [setInitSources] *)
Definition onSourceUploaded (texture : nat) (m : DOMMesh) : DOMMesh :=
  let m := {| _ready := _ready m; _sourcesReady := _sourcesReady m;
              autoloadSources := autoloadSources m;
              loaderSize := loaderSize m; sourcesLoaded := S (sourcesLoaded m);
              callbacks := callbacks m |} in
  let m := call m (OnLoading texture) in
  if sourcesLoaded m =? loaderSize m then set_sourcesReady true m else m.

(** The constructor: [this.ready = false] of the mesh base, then
    [this.sourcesReady = false] and [setInitSources]. *)
Definition construct (autoload : bool) (images videos canvases : nat) : DOMMesh :=
  setInitSources images videos canvases
    (set_sourcesReady false
       (set_ready false
          {| _ready := false; _sourcesReady := false; autoloadSources := autoload;
             loaderSize := 0; sourcesLoaded := 0; callbacks := [] |})).

(** What happens to a DOM mesh afterwards: the mesh base sets [ready], a
    texture created by [setInitSources] reports its source uploaded.  The
    closure is registered on the textures of an autoloading mesh only. *)
Inductive Event :=
| SetReady (value : bool)
| SourceUploaded (texture : nat).

Definition step (m : DOMMesh) (ev : Event) : DOMMesh :=
  match ev with
  | SetReady value => set_ready value m
  | SourceUploaded texture =>
      if autoloadSources m then onSourceUploaded texture m else m
  end.

Definition run (events : list Event) (m : DOMMesh) : DOMMesh :=
  fold_left step events m.

(** The textures reported uploaded by a list of events. *)
Definition uploaded (events : list Event) : list nat :=
  flat_map (fun ev => match ev with SourceUploaded t => [t] | _ => [] end) events.

(** The textures handed to the loading callback. *)
Definition loadings (l : list Callback) : list nat :=
  flat_map (fun c => match c with OnLoading t => [t] | _ => [] end) l.

(** No ready callback before [n] loading callbacks; [seen] counts the
    loading callbacks so far. *)
Fixpoint readyAfter (n seen : nat) (l : list Callback) : bool :=
  match l with
  | [] => true
  | OnReady :: l' => (n <=? seen) && readyAfter n seen l'
  | OnLoading _ :: l' => readyAfter n (S seen) l'
  end.

End DOMMesh.

(* ================================================================== *)
(** ** More sample values *)

Module MoreExamples.
Import Scene.

(** A renderer that tracks one unprojected and one projected opaque mesh
    and two projected transparent ones. *)
Definition populatedRenderer : Renderer :=
  fold_left addToScene
    [Examples.flatOpaque; Examples.projectedOpaque; Examples.depth1; Examples.depth5]
    Examples.emptyRenderer.

(** The same renderer with two shader passes and a ping-pong plane. *)
Definition composedRenderer : Renderer :=
  addPingPongPlane
    (addShaderPass (addShaderPass populatedRenderer Examples.passA) Examples.passC)
    (Examples.sampleMesh 11 5 false 0 0 5 false).

(** A material whose fragment shader samples [planeTexture], with no
    texture yet. *)
Definition texturedMaterial : Materials.Material :=
  {| Materials.vertexCode := "fn main() { uv }";
     Materials.fragmentCode := "textureSample(planeTexture, planeTextureSampler, uv)";
     Materials.textures := [];
     Materials.texturesBindGroup :=
       {| Materials.groupTextures := []; Materials.groupBindings := [] |} |}.

(** Two textures for it: one that no shader names, one that the fragment
    shader samples. *)
Definition addedTextures : list Materials.Texture :=
  [Materials.newTexture "Texture" "unused";
   Materials.newTexture "Texture" "planeTexture"].

(** The shaders of an entry whose two modules are compiled. *)
Definition compiledShaders : Pipeline.Shaders :=
  {| Pipeline.vertex := {| Pipeline.head := EmptyString;
                           Pipeline.shaderCode := "@vertex fn vs() {}";
                           Pipeline.module := Some 0 |};
     Pipeline.fragment := {| Pipeline.head := EmptyString;
                             Pipeline.shaderCode := "@fragment fn fs() {}";
                             Pipeline.module := Some 1 |};
     Pipeline.full := {| Pipeline.head := EmptyString;
                         Pipeline.shaderCode := EmptyString;
                         Pipeline.module := None |} |}.

(** A vertex buffer with positions and uvs and an instance buffer with one
    attribute. *)
Definition planeBuffers : list PipelineOps.VertexBuffer :=
  [ {| PipelineOps.stepMode := "vertex";
       PipelineOps.arrayStride := 5;
       PipelineOps.attributes :=
         [ {| PipelineOps.bufferOffset := 0;
              PipelineOps.bufferFormat := "float32x3" |};
           {| PipelineOps.bufferOffset := 12;
              PipelineOps.bufferFormat := "float32x2" |} ] |};
    {| PipelineOps.stepMode := "instance";
       PipelineOps.arrayStride := 4;
       PipelineOps.attributes :=
         [ {| PipelineOps.bufferOffset := 0;
              PipelineOps.bufferFormat := "float32x4" |} ] |} ].

Definition opaqueRendering : PipelineOps.RenderingOptions :=
  {| PipelineOps.optBlend := None;
     PipelineOps.optTransparent := false;
     PipelineOps.optTargetFormat := None;
     PipelineOps.optDepth := true;
     PipelineOps.optDepthWriteEnabled := true;
     PipelineOps.optDepthCompare := "less";
     PipelineOps.optSampleCount := 1;
     PipelineOps.optTopology := "triangle-list";
     PipelineOps.optVerticesOrder := "cw";
     PipelineOps.optCullMode := "back" |}.

End MoreExamples.

(* ================================================================== *)
(** * Properties *)

(** ** Sorting and splicing *)

Module JSArrayFacts.
Import JSArray.

Section Sorting.
Variable A : Type.
Variable cmp : A -> A -> Z.

Lemma insert_perm x l : Permutation (insert cmp x l) (x :: l).
Proof.
  induction l as [|y l IH]; simpl; [reflexivity|].
  destruct (0 <? cmp x y)%Z; [|reflexivity].
  rewrite IH. apply perm_swap.
Qed.

Lemma sort_perm l : Permutation (sort cmp l) l.
Proof.
  induction l as [|x l IH]; simpl; [constructor|].
  rewrite insert_perm. now constructor.
Qed.

(** An element that compares [<= 0] with the head stays in front. *)
Lemma insert_head x y l : (cmp x y <= 0)%Z -> insert cmp x (y :: l) = x :: y :: l.
Proof.
  intros H. simpl. destruct (Z.ltb_spec 0 (cmp x y)); [lia|reflexivity].
Qed.

(** When all keys tie, the stable sort moves nothing. *)
Lemma sort_ties l :
  (forall x y, In x l -> In y l -> cmp x y = 0%Z) -> sort cmp l = l.
Proof.
  induction l as [|x l IH]; intros H; [reflexivity|].
  simpl. rewrite IH by (intros; apply H; now right).
  destruct l as [|y l]; [reflexivity|].
  apply insert_head. rewrite H; [lia|now left|right; now left].
Qed.
End Sorting.

(** For a comparator that is a difference of integer keys, [sort] is the
    stable sort by that key: the result is in key order, and elements of
    equal key keep their relative order. *)
Section KeySort.
Variable A : Type.
Variable key : A -> Z.
Variable cmp : A -> A -> Z.
Hypothesis cmp_key : forall x y, cmp x y = (key x - key y)%Z.

Lemma insert_sorted x l :
  StronglySorted (fun a b => (key a <= key b)%Z) l ->
  StronglySorted (fun a b => (key a <= key b)%Z) (insert cmp x l).
Proof.
  induction 1 as [|y l Hl IH Hy]; simpl; [repeat constructor|].
  rewrite cmp_key. destruct (Z.ltb_spec 0 (key x - key y)).
  - constructor; [exact IH|].
    apply Forall_forall. intros z Hz.
    apply (Permutation_in _ (insert_perm cmp x l)) in Hz.
    destruct Hz as [<-|Hz]; [lia|].
    rewrite Forall_forall in Hy. auto.
  - constructor; [now constructor|].
    constructor; [lia|].
    apply Forall_forall. intros z Hz. rewrite Forall_forall in Hy.
    specialize (Hy z Hz). lia.
Qed.

Lemma sort_sorted l : StronglySorted (fun a b => (key a <= key b)%Z) (sort cmp l).
Proof.
  induction l as [|x l IH]; simpl; [constructor|]. now apply insert_sorted.
Qed.

Lemma insert_stable k x l :
  filter (fun a => (key a =? k)%Z) (insert cmp x l)
  = filter (fun a => (key a =? k)%Z) (x :: l).
Proof.
  induction l as [|y l IH]; [reflexivity|].
  cbn [insert]. rewrite cmp_key. destruct (Z.ltb_spec 0 (key x - key y)); [|reflexivity].
  cbn [filter] in *. rewrite IH.
  destruct (Z.eqb_spec (key x) k), (Z.eqb_spec (key y) k); try reflexivity. lia.
Qed.

Lemma sort_stable k l :
  filter (fun a => (key a =? k)%Z) (sort cmp l) = filter (fun a => (key a =? k)%Z) l.
Proof.
  induction l as [|x l IH]; [reflexivity|].
  cbn [sort fold_right]. fold (sort cmp l). rewrite insert_stable.
  cbn [filter]. now rewrite IH.
Qed.
End KeySort.

Lemma splice_perm (A : Type) i (x : A) l : Permutation (splice i x l) (x :: l).
Proof.
  revert i; induction l as [|y l IH]; intros [|i]; simpl; try reflexivity.
  rewrite IH. apply perm_swap.
Qed.

Lemma none_found_forallb (A : Type) (p : A -> bool) l :
  none_found p l = forallb (fun x => negb (p x)) l.
Proof.
  unfold none_found. induction l as [|x l IH]; simpl; [reflexivity|].
  destruct (p x); simpl; [reflexivity|exact IH].
Qed.

(** The six arrangements of three elements. *)
Lemma perm3_cases (A : Type) (a b c : A) l :
  Permutation l [a; b; c] ->
  l = [a; b; c] \/ l = [a; c; b] \/ l = [b; a; c] \/
  l = [b; c; a] \/ l = [c; a; b] \/ l = [c; b; a].
Proof.
  intros H.
  destruct (Permutation_vs_cons_inv H) as (l1 & l2 & ->).
  apply Permutation_sym, Permutation_cons_app_inv in H.
  apply Permutation_length_2_inv in H.
  destruct l1 as [|x [|y [|z l1]]]; simpl in *;
    destruct H as [H|H]; try discriminate; inversion H; subst; auto 10.
  all: destruct l1; discriminate.
Qed.

End JSArrayFacts.

(** ** Scene stacks *)

Module SceneFacts.
Import JSArray JSArrayFacts Scene.

Lemma meshes_addMesh r m : meshes (addMesh r m) = meshes r.
Proof. reflexivity. Qed.

Lemma meshes_addToScene r m : meshes (addToScene r m) = meshes r ++ [m].
Proof. reflexivity. Qed.

(** After [addMesh] the partition of the mesh holds exactly the array the
    method built. *)
Lemma partition_addMesh r m m' :
  useProjection (material m') = useProjection (material m) ->
  transparent m' = transparent m ->
  partition_of m' (stacks (addMesh r m)) = similarMeshes r m.
Proof.
  intros Hp Ht. unfold partition_of, addMesh, with_projectionStack, set_substack.
  rewrite Hp, Ht.
  destruct (useProjection (material m)), (transparent m); reflexivity.
Qed.

(** Meshes of the other transparency never pass the filter of [addMesh]. *)
Lemma filter_other_transparency mesh l :
  forallb (fun m => negb (Bool.eqb (transparent m) (transparent mesh))) l = true ->
  filter (similarTo mesh) l = [].
Proof.
  induction l as [|m l IH]; simpl; [reflexivity|].
  intros H. apply andb_prop in H as [H1 H2]. unfold similarTo at 1.
  apply negb_true_iff in H1. rewrite H1. simpl. auto.
Qed.

Lemma filter_opaque_among_transparent mesh l :
  forallb transparent l = true -> transparent mesh = false ->
  filter (similarTo mesh) l = [].
Proof.
  intros Hl Hm. apply filter_other_transparency. rewrite Hm.
  induction l as [|m l IH]; simpl in *; [reflexivity|].
  apply andb_prop in Hl as [H1 H2]. rewrite H1. simpl. auto.
Qed.

Lemma filter_transparent_among_opaque mesh l :
  forallb (fun m => negb (transparent m)) l = true -> transparent mesh = true ->
  filter (similarTo mesh) l = [].
Proof.
  intros Hl Hm. apply filter_other_transparency. rewrite Hm.
  induction l as [|m l IH]; simpl in *; [reflexivity|].
  apply andb_prop in Hl as [H1 H2]. apply negb_true_iff in H1. rewrite H1. simpl. auto.
Qed.

Lemma similarTo_other mesh m :
  transparent m = transparent mesh -> uuid m <> uuid mesh -> similarTo mesh m = true.
Proof.
  intros Ht Hu. unfold similarTo. rewrite Ht, Bool.eqb_reflx.
  apply Nat.eqb_neq in Hu. now rewrite Hu.
Qed.

Lemma similarTo_self mesh : similarTo mesh mesh = false.
Proof. unfold similarTo. rewrite Nat.eqb_refl. apply andb_false_r. Qed.

Lemma similarMeshes_perm r mesh :
  Permutation (similarMeshes r mesh) (mesh :: filter (similarTo mesh) (meshes r)).
Proof.
  unfold similarMeshes.
  rewrite sort_perm.
  destruct (transparent mesh); [rewrite sort_perm|];
    rewrite sort_perm; apply splice_perm.
Qed.

(** C2 (defect).  Two opaque meshes of one projection with render orders 0
    and 10, added to a renderer that tracks no other opaque mesh, leave the
    partition as [[order 10; order 0]] whichever is added first: the final
    sort compares [b.renderOrder - a.renderOrder], so the higher render
    order comes first and is drawn first, not last. *)
Theorem higher_renderOrder_sorted_first r a b :
  forallb transparent (meshes r) = true ->
  transparent a = false -> transparent b = false ->
  uuid a <> uuid b ->
  useProjection (material a) = useProjection (material b) ->
  renderOrder a = 0%Z -> renderOrder b = 10%Z ->
  partition_of b (stacks (addToScene (addToScene r a) b)) = [b; a]
  /\ partition_of a (stacks (addToScene (addToScene r b) a)) = [b; a].
Proof.
  intros Hr Ha Hb Hu Hp Hoa Hob.
  assert (Hfa : filter (similarTo a) (meshes r) = [])
    by now apply filter_opaque_among_transparent.
  assert (Hfb : filter (similarTo b) (meshes r) = [])
    by now apply filter_opaque_among_transparent.
  assert (Hab : (0 <? byRenderOrder a b)%Z = true)
    by (unfold byRenderOrder; rewrite Hoa, Hob; reflexivity).
  assert (Hba : (0 <? byRenderOrder b a)%Z = false)
    by (unfold byRenderOrder; rewrite Hoa, Hob; reflexivity).
  assert (Hsort : forall l, Permutation l [a; b] -> sort byRenderOrder l = [b; a]).
  { intros l Hl. apply Permutation_sym, Permutation_length_2_inv in Hl.
    destruct Hl as [-> | ->]; unfold sort; simpl; rewrite ?Hab, ?Hba; simpl;
      rewrite ?Hab, ?Hba; reflexivity. }
  split.
  - unfold addToScene at 1. rewrite partition_addMesh by reflexivity.
    unfold similarMeshes. cbn [meshes set_meshes].
    rewrite meshes_addToScene, !filter_app, Hfb. cbn [filter app].
    rewrite similarTo_self, similarTo_other by (congruence || auto).
    rewrite Hb. apply Hsort.
    rewrite sort_perm, splice_perm. apply perm_swap.
  - unfold addToScene at 1. rewrite partition_addMesh by reflexivity.
    unfold similarMeshes. cbn [meshes set_meshes].
    rewrite meshes_addToScene, !filter_app, Hfa. cbn [filter app].
    rewrite similarTo_self, similarTo_other by (congruence || auto).
    rewrite Ha. apply Hsort.
    rewrite sort_perm, splice_perm. reflexivity.
Qed.

Lemma higher_renderOrder_sorted_first_witness :
  partition_of Examples.order10
    (stacks (addToScene (addToScene Examples.emptyRenderer Examples.order0)
                        Examples.order10))
  = [Examples.order10; Examples.order0]
  /\ partition_of Examples.order0
       (stacks (addToScene (addToScene Examples.emptyRenderer Examples.order10)
                           Examples.order0))
     = [Examples.order10; Examples.order0].
Proof.
  apply (@higher_renderOrder_sorted_first
           Examples.emptyRenderer Examples.order0 Examples.order10);
    try reflexivity.
  simpl; lia.
Defined.

(** C3 (defect).  [addMesh] rebuilds the partition from [renderer.meshes]
    filtered by transparency and identity only: every tracked mesh of the
    same transparency lands in the partition of the mesh being added,
    whatever its own projection is, that is, also a mesh that is no member
    of that partition. *)
Theorem addMesh_collects_other_partitions r mesh m :
  In m (meshes r) ->
  transparent m = transparent mesh ->
  uuid m <> uuid mesh ->
  In m (partition_of mesh (stacks (addMesh r mesh))).
Proof.
  intros Hin Ht Hu. rewrite partition_addMesh by reflexivity.
  eapply Permutation_in; [symmetry; apply similarMeshes_perm|].
  right. apply filter_In. split; [exact Hin|]. now apply similarTo_other.
Qed.

Lemma addMesh_collects_other_partitions_witness :
  In Examples.flatOpaque
     (opaque (projected
        (stacks (addToScene (addToScene Examples.emptyRenderer Examples.flatOpaque)
                            Examples.projectedOpaque)))).
Proof.
  apply (@addMesh_collects_other_partitions
           (set_meshes (addToScene Examples.emptyRenderer Examples.flatOpaque)
                       [Examples.flatOpaque; Examples.projectedOpaque])
           Examples.projectedOpaque Examples.flatOpaque).
  - simpl. left. reflexivity.
  - reflexivity.
  - simpl. lia.
Defined.

(** The two sorts a transparent partition goes through after the sort by
    creation index, on any arrangement of three meshes at depths 5, 1 and 3
    that share one render order. *)
Lemma depth_sort_three m5 m1 m3 l :
  documentPosition_z m5 = 5%Z -> documentPosition_z m1 = 1%Z ->
  documentPosition_z m3 = 3%Z ->
  renderOrder m1 = renderOrder m5 -> renderOrder m3 = renderOrder m5 ->
  Permutation l [m5; m1; m3] ->
  sort byRenderOrder (sort byDepth l) = [m5; m3; m1].
Proof.
  intros H5 H1 H3 R1 R3 Hl.
  assert (Hd : sort byDepth l = [m5; m3; m1]).
  { apply perm3_cases in Hl.
    destruct Hl as [->|[->|[->|[->|[->| ->]]]]]; unfold sort, byDepth; simpl;
      rewrite ?H5, ?H1, ?H3; simpl; rewrite ?H5, ?H1, ?H3; simpl;
      rewrite ?H5, ?H1, ?H3; reflexivity. }
  rewrite Hd. apply sort_ties.
  intros x y Hx Hy. unfold byRenderOrder.
  simpl in Hx, Hy.
  destruct Hx as [<-|[<-|[<-|[]]]], Hy as [<-|[<-|[<-|[]]]]; rewrite ?R1, ?R3; lia.
Qed.

(** The partition three transparent meshes end in, when they are added in
    the order [x], [y], [z] to a renderer that tracks only opaque meshes. *)
Lemma transparent_partition_three r x y z :
  forallb (fun m => negb (transparent m)) (meshes r) = true ->
  transparent x = true -> transparent y = true -> transparent z = true ->
  uuid x <> uuid z -> uuid y <> uuid z ->
  exists l, Permutation l [x; y; z]
    /\ partition_of z (stacks (fold_left addToScene [x; y; z] r))
       = sort byRenderOrder (sort byDepth l).
Proof.
  intros Hr Tx Ty Tz Uxz Uyz. cbn [fold_left].
  unfold addToScene at 1. rewrite partition_addMesh by reflexivity.
  unfold similarMeshes. cbn [meshes set_meshes].
  rewrite !meshes_addToScene, !filter_app.
  rewrite filter_transparent_among_opaque by assumption.
  cbn [filter app].
  rewrite similarTo_self, !similarTo_other by (congruence || auto).
  rewrite Tz. cbn [app].
  eexists. split; [|reflexivity].
  rewrite sort_perm, splice_perm.
  apply (Permutation_cons_append [x; y] z).
Qed.

(** C4.  Three transparent meshes of one projection at depths 5, 1 and 3
    with equal render order, added in any order to a renderer that tracks
    no other transparent mesh, leave their partition as
    [[depth 5; depth 3; depth 1]], the farthest first. *)
Theorem transparent_back_to_front r m5 m1 m3 l :
  forallb (fun m => negb (transparent m)) (meshes r) = true ->
  transparent m5 = true -> transparent m1 = true -> transparent m3 = true ->
  uuid m5 <> uuid m1 -> uuid m5 <> uuid m3 -> uuid m1 <> uuid m3 ->
  useProjection (material m1) = useProjection (material m5) ->
  useProjection (material m3) = useProjection (material m5) ->
  documentPosition_z m5 = 5%Z -> documentPosition_z m1 = 1%Z ->
  documentPosition_z m3 = 3%Z ->
  renderOrder m1 = renderOrder m5 -> renderOrder m3 = renderOrder m5 ->
  Permutation l [m5; m1; m3] ->
  partition_of m5 (stacks (fold_left addToScene l r)) = [m5; m3; m1].
Proof.
  intros Hr T5 T1 T3 U51 U53 U13 P1 P3 Z5 Z1 Z3 R1 R3 Hl.
  assert (Hpart : forall z s, In z [m5; m1; m3] ->
            partition_of m5 s = partition_of z s).
  { intros z s [<-|[<-|[<-|[]]]]; unfold partition_of;
      rewrite ?P1, ?P3, ?T5, ?T1, ?T3; reflexivity. }
  destruct (perm3_cases Hl) as [E|[E|[E|[E|[E|E]]]]]; subst l.
  all: match goal with
       | |- partition_of _ (stacks (fold_left _ [?x; ?y; ?z] _)) = _ =>
           try rewrite (Hpart z) by (simpl; tauto);
           destruct (@transparent_partition_three r x y z)
             as (l' & Hl' & ->); try assumption; try congruence;
           apply depth_sort_three; try assumption;
           rewrite Hl'; exact Hl
       end.
Qed.

Lemma transparent_back_to_front_witness :
  partition_of Examples.depth5
    (stacks (fold_left addToScene
               [Examples.depth5; Examples.depth1; Examples.depth3]
               (addToScene Examples.emptyRenderer Examples.order0)))
  = [Examples.depth5; Examples.depth3; Examples.depth1].
Proof.
  apply (@transparent_back_to_front
           (addToScene Examples.emptyRenderer Examples.order0)
           Examples.depth5 Examples.depth1 Examples.depth3
           [Examples.depth5; Examples.depth1; Examples.depth3]);
    try reflexivity; simpl; lia.
Defined.

End SceneFacts.

(** ** The frame traversal *)

Module FrameFacts.
Import JSArray JSArrayFacts Scene.

Lemma forEach_emit (A : Type) (f : A -> list Command) l e :
  forEach l (fun x => emit (f x)) e
  = (tt, {| nextPass := nextPass e; commands := commands e ++ flat_map f l |}).
Proof.
  revert e; induction l as [|x l IH]; intros e; simpl.
  - unfold ret. rewrite app_nil_r. now destruct e.
  - unfold bind. cbn [emit]. rewrite IH. cbn [nextPass commands].
    now rewrite <- app_assoc.
Qed.

Lemma forEach_refresh s e :
  forEach (subStacks s) (fun subStack =>
    forEach subStack (fun element => emit [OnBeforeRenderPass (uuid element)])) e
  = (tt, {| nextPass := nextPass e; commands := commands e ++ refreshStep s |}).
Proof.
  unfold refreshStep.
  generalize (subStacks s) as ls. intros ls; revert e.
  induction ls as [|l ls IH]; intros e; simpl.
  - unfold ret. rewrite app_nil_r. now destruct e.
  - unfold bind. rewrite forEach_emit, IH. cbn [nextPass commands].
    rewrite map_app, <- app_assoc. do 3 f_equal.
Qed.

Lemma forEach_pingPong r planes e :
  forEach planes (fun pingPongPlane =>
    pingPongRenderPass <- beginRenderPass ;;
    emit (Mesh_render r pingPongPlane pingPongRenderPass) ;;;
    emit [PassEnd pingPongRenderPass] ;;;
    emit [CopyTextureToTexture (renderTexture pingPongPlane)]) e
  = (tt, {| nextPass := nextPass e + length planes;
            commands := commands e ++ pingPongStep r (nextPass e) planes |}).
Proof.
  revert e; induction planes as [|p planes IH]; intros e; simpl.
  - unfold ret. rewrite app_nil_r, Nat.add_0_r. now destruct e.
  - unfold bind at 1. unfold bind at 1. cbn [beginRenderPass emit bind].
    rewrite IH. cbn [nextPass commands].
    f_equal. f_equal; [lia|].
    rewrite <- !app_assoc. reflexivity.
Qed.

Lemma forEach_shaderPasses r passes e :
  forEach passes (fun shaderPass =>
    emit [CopyTextureToTexture (renderTexture shaderPass)] ;;;
    shaderPassRenderPass <- beginRenderPass ;;
    emit (Mesh_render r shaderPass shaderPassRenderPass) ;;;
    emit [PassEnd shaderPassRenderPass]) e
  = (tt, {| nextPass := nextPass e + length passes;
            commands := commands e ++ shaderPassStep r (nextPass e) passes |}).
Proof.
  revert e; induction passes as [|p passes IH]; intros e; simpl.
  - unfold ret. rewrite app_nil_r, Nat.add_0_r. now destruct e.
  - unfold bind at 1. unfold bind at 1. cbn [beginRenderPass emit bind].
    rewrite IH. cbn [nextPass commands].
    f_equal. f_equal; [lia|].
    rewrite <- !app_assoc. reflexivity.
Qed.

(** [Scene.render] issues exactly the six-step trace, numbering its passes
    from the encoder's next pass on. *)
Lemma render_trace r e :
  render r e
  = (tt, {| nextPass := nextPass e + length (pingPongPlanes (stacks r)) + 1
                        + length (shaderPasses (stacks r));
            commands := commands e ++ frameTrace r (nextPass e) |}).
Proof.
  unfold render, frameTrace, mainStep, drawAll.
  unfold bind at 1. rewrite forEach_refresh.
  unfold bind at 1. cbn [emit nextPass commands].
  unfold bind at 1. rewrite forEach_pingPong. cbn [nextPass commands].
  unfold bind at 1. cbn [beginRenderPass nextPass commands].
  unfold bind at 1. rewrite forEach_emit. cbn [nextPass commands].
  unfold bind at 1. rewrite forEach_emit. cbn [nextPass commands].
  unfold bind at 1.
  destruct (cameraBindGroup r) as [cbg|]; cbn [emit ret nextPass commands].
  all: unfold bind at 1; rewrite forEach_emit; cbn [nextPass commands].
  all: unfold bind at 1; rewrite forEach_emit; cbn [nextPass commands].
  all: unfold bind at 1; cbn [emit nextPass commands].
  all: rewrite forEach_shaderPasses; cbn [nextPass commands].
  all: f_equal; f_equal; [lia|].
  all: replace (S (nextPass e + length (pingPongPlanes (stacks r))))
         with (nextPass e + length (pingPongPlanes (stacks r)) + 1) by lia.
  all: repeat (progress (rewrite <- ?app_assoc; cbn [app])); reflexivity.
Qed.

Lemma shaderPasses_fold_addShaderPass passes r order :
  (forall p, In p (shaderPasses (stacks r) ++ passes) -> renderOrder p = order) ->
  shaderPasses (stacks (fold_left addShaderPass passes r))
  = shaderPasses (stacks r) ++ passes.
Proof.
  revert r; induction passes as [|p passes IH]; intros r H; simpl.
  - now rewrite app_nil_r.
  - rewrite IH.
    + cbn [addShaderPass set_stacks stacks shaderPasses].
      rewrite sort_ties.
      * now rewrite <- app_assoc.
      * intros x y Hx Hy. unfold byRenderOrder.
        rewrite (H x), (H y); [lia| |];
          rewrite in_app_iff in *; simpl in *; tauto.
    + cbn [addShaderPass set_stacks stacks shaderPasses].
      intros q Hq. apply H.
      rewrite in_app_iff in Hq. destruct Hq as [Hq|Hq].
      * eapply Permutation_in in Hq; [|apply sort_perm].
        rewrite in_app_iff in *; simpl in *; tauto.
      * rewrite in_app_iff; simpl; tauto.
Qed.

(** C1 (as amended).  One call of [Scene.render] issues, in this order and
    nothing else: the refresh hook of every member of every sub-stack
    (visible or not); the acquisition of the output texture; per ping-pong
    plane a pass of its own, the draw, the end of the pass and the copy of
    the output into the plane's texture; one pass with the unprojected
    opaque, unprojected transparent, projected opaque and projected
    transparent draws; then per shader pass of the stack, in stack order,
    the copy of the output into its texture and a new pass that is opened,
    drawn and closed.  Shader passes registered with one common render
    order are in the stack in registration order. *)
Theorem frame_traversal_sequential :
  (forall r e,
     render r e
     = (tt, {| nextPass := nextPass e + length (pingPongPlanes (stacks r)) + 1
                           + length (shaderPasses (stacks r));
               commands :=
                 commands e
                 ++ refreshStep (stacks r)
                 ++ [SetRenderPassCurrentTexture]
                 ++ pingPongStep r (nextPass e) (pingPongPlanes (stacks r))
                 ++ mainStep r (nextPass e + length (pingPongPlanes (stacks r)))
                 ++ shaderPassStep r
                      (nextPass e + length (pingPongPlanes (stacks r)) + 1)
                      (shaderPasses (stacks r)) |}))
  /\ (forall r passes order,
        shaderPasses (stacks r) = [] ->
        (forall p, In p passes -> renderOrder p = order) ->
        shaderPasses (stacks (fold_left addShaderPass passes r)) = passes).
Proof.
  split.
  - intros r e. apply render_trace.
  - intros r passes order Hnil Hall.
    rewrite (@shaderPasses_fold_addShaderPass passes r order); rewrite Hnil; auto.
Qed.

Lemma frame_traversal_sequential_witness :
  shaderPasses
    (stacks (fold_left addShaderPass [Examples.passA; Examples.passC]
               Examples.emptyRenderer))
  = [Examples.passA; Examples.passC].
Proof.
  apply (proj2 frame_traversal_sequential Examples.emptyRenderer
           [Examples.passA; Examples.passC] 0%Z).
  - reflexivity.
  - intros p [<-|[<-|[]]]; reflexivity.
Defined.

(** C1 (as stated) fails: pass A with render order 0 registered first and
    pass B with render order 1 registered second run as B, then A. *)
Lemma shader_passes_not_in_registration_order :
  copies (frame (fold_left addShaderPass [Examples.passA; Examples.passB]
                   Examples.emptyRenderer))
  = map renderTexture [Examples.passB; Examples.passA]
  /\ copies (frame (fold_left addShaderPass [Examples.passA; Examples.passB]
                      Examples.emptyRenderer))
     <> map renderTexture [Examples.passA; Examples.passB].
Proof.
  split; [reflexivity|]. vm_compute. discriminate.
Qed.

Lemma frame_ready r :
  ready r = true ->
  frame r = [OnBeforeRenderCallback; OnBeforeRenderScene]
            ++ frameTrace r 0
            ++ [OnAfterRenderCallbackRenderer; OnAfterRenderScene].
Proof.
  intros H. unfold frame, GPURenderer_render. rewrite H. cbn [negb].
  unfold bind at 1. cbn [emit]. unfold bind at 1. cbn [emit nextPass commands].
  unfold bind at 1. rewrite render_trace. cbn [nextPass commands].
  unfold bind at 1. cbn [emit nextPass commands snd].
  rewrite <- !app_assoc. reflexivity.
Qed.

(** Every member of a mesh partition is drawn in the main pass of every
    frame of a ready renderer. *)
Lemma member_drawn_each_frame r mesh :
  ready r = true -> In mesh (meshStacks (stacks r)) ->
  incl (Mesh_render r mesh (length (pingPongPlanes (stacks r)))) (frame r).
Proof.
  intros Hr Hin c Hc. rewrite frame_ready by assumption.
  unfold frameTrace, mainStep, drawAll. cbn [Nat.add].
  assert (Hd : forall l, In mesh l ->
             In c (flat_map (fun m => Mesh_render r m
                                        (length (pingPongPlanes (stacks r)))) l)).
  { intros l Hl. apply in_flat_map. eauto. }
  unfold meshStacks in Hin. rewrite !in_app_iff in Hin.
  repeat (rewrite in_app_iff || simpl).
  destruct Hin as [H|[H|[H|H]]]; apply Hd in H; tauto.
Qed.

Lemma compiledIn_In u pipeline mesh l :
  In mesh l -> uuid mesh = u -> In (compiled pipeline mesh) (compiledIn u pipeline l).
Proof.
  intros Hin <-. unfold compiledIn. apply in_map_iff.
  exists mesh. now rewrite Nat.eqb_refl.
Qed.

(** C9.  A renderer that is not ready returns from [render] before any
    command is issued.  A material whose pipeline entry has no compiled
    pipeline issues nothing in its [render], and the draw of its mesh is
    reduced to the two hooks around it; the mesh is still a member of its
    stack, is visited by every frame of a ready renderer, and in the frame
    that follows the compilation its pipeline is set and its geometry
    drawn. *)
Theorem not_ready_skips_and_retries :
  (forall r e, ready r = false -> GPURenderer_render r e = (tt, e))
  /\ (forall r m pass, Material_ready m = false -> Material_render r m pass = [])
  /\ (forall r mesh pass c,
        Material_ready (material mesh) = false ->
        In c (Mesh_render r mesh pass) ->
        c = OnBeforeRenderPass (uuid mesh) \/ c = OnAfterRenderCallback (uuid mesh))
  /\ (forall r mesh,
        ready r = true -> In mesh (meshStacks (stacks r)) ->
        incl (Mesh_render r mesh (length (pingPongPlanes (stacks r)))) (frame r))
  /\ (forall r mesh pipeline,
        ready r = true -> visible mesh = true ->
        In mesh (meshStacks (stacks r)) ->
        let r' := pipelineCompiled r (uuid mesh) pipeline in
        let pass := length (pingPongPlanes (stacks r')) in
        In (SetCurrentPipeline pass (pe_index (pipelineEntry (material mesh))))
           (frame r')
        /\ In (GeometryRender (uuid mesh) pass) (frame r')).
Proof.
  split; [|split; [|split; [|split]]].
  - intros r e H. unfold GPURenderer_render. now rewrite H.
  - intros r m pass H. unfold Material_render. rewrite H.
    now destruct (negb (ready r)).
  - intros r mesh pass c H. unfold Mesh_render, onRenderPass. rewrite H.
    cbn [negb]. destruct (negb (ready r) || negb (visible mesh)); simpl;
      intuition congruence.
  - intros r mesh. apply member_drawn_each_frame.
  - intros r mesh pipeline Hr Hv Hin r' pass.
    assert (Hr' : ready r' = true) by exact Hr.
    assert (Hin' : In (compiled pipeline mesh) (meshStacks (stacks r'))).
    { unfold meshStacks in *. rewrite !in_app_iff in *.
      cbn [r' pipelineCompiled stacks unprojected projected opaque transparentStack].
      destruct Hin as [H|[H|[H|H]]];
        apply (@compiledIn_In (uuid mesh) pipeline) in H; auto. }
    pose proof (@member_drawn_each_frame r' _ Hr' Hin') as Hincl.
    fold pass in Hincl.
    split; apply Hincl; unfold Mesh_render, onRenderPass, Material_render;
      cbn [compiled visible material uuid Material_ready pipelineEntry
           pe_pipeline pe_index is_some negb];
      rewrite Hr', Hv; simpl; rewrite ?in_app_iff; simpl; tauto.
Qed.

Lemma not_ready_skips_and_retries_witness :
  GPURenderer_render Examples.notReadyRenderer {| nextPass := 0; commands := [] |}
  = (tt, {| nextPass := 0; commands := [] |})
  /\ In (GeometryRender (uuid Examples.depth5) 0)
        (frame (pipelineCompiled
                  (addToScene Examples.emptyRenderer Examples.depth5)
                  (uuid Examples.depth5) 77)).
Proof.
  split.
  - apply (proj1 not_ready_skips_and_retries Examples.notReadyRenderer).
    reflexivity.
  - destruct (proj2 (proj2 (proj2 (proj2 not_ready_skips_and_retries)))
                (addToScene Examples.emptyRenderer Examples.depth5)
                Examples.depth5 77) as [_ H].
    + reflexivity.
    + reflexivity.
    + simpl. auto.
    + exact H.
Defined.

End FrameFacts.

(** ** Bind groups *)

Module BindGroupFacts.
Import JSArray JSArrayFacts BindGroups.

Lemma is_some_true (A : Type) (o : option A) : Scene.is_some o = true <-> o <> None.
Proof. destruct o; simpl; split; congruence. Qed.

Lemma arrayIncludes_In l i : arrayIncludes l i = true <-> In i l.
Proof.
  unfold arrayIncludes. rewrite existsb_exists. split.
  - intros (x & Hx & E). apply Nat.eqb_eq in E. now subst.
  - intros H. exists i. split; [exact H|apply Nat.eqb_refl].
Qed.

(** C5 (as stated) fails on [shouldCreateBindGroup]: a group that has not
    been created and has no binding, hence no binding without its
    resource, is not ready. *)
Lemma empty_bind_group_not_ready :
  ~ (shouldCreateBindGroup Examples.emptyBindGroup = true
     <-> specCanCreate Examples.emptyBindGroup).
Proof.
  intros [_ H]. assert (E : shouldCreateBindGroup Examples.emptyBindGroup = true).
  { apply H. repeat split; constructor. }
  discriminate E.
Qed.

(** C5 (as amended).  [shouldCreateBindGroup] holds exactly when the bind
    group has not been created, has at least one binding, every texture
    has its GPU texture or external texture and every sampler its GPU
    sampler.  [canCreateBindGroup] of the first revision holds exactly when
    the bind group has not been created and every texture has both its
    sampler and its GPU texture; there a group without textures is ready
    as long as it is not created. *)
Theorem bind_group_creation_predicate :
  (forall g,
     shouldCreateBindGroup g = true
     <-> specCanCreate g /\ bindings g <> [])
  /\ (forall g,
        canCreateBindGroup g = true
        <-> bindGroup g = None
            /\ Forall (fun t => texture_sampler t <> None /\ texture t <> None)
                      (textures g))
  /\ (forall g, textures g = [] ->
        canCreateBindGroup g = true <-> bindGroup g = None).
Proof.
  assert (Hnone : forall o : option nat, negb (Scene.is_some o) = true <-> o = None).
  { intros [x|]; simpl; split; congruence. }
  assert (Hcan : forall g,
        canCreateBindGroup g = true
        <-> bindGroup g = None
            /\ Forall (fun t => texture_sampler t <> None /\ texture t <> None)
                      (textures g)).
  { intros g. unfold canCreateBindGroup.
    rewrite andb_true_iff, Hnone, none_found_forallb, forallb_forall, Forall_forall.
    split; intros [H1 H2]; (split; [exact H1|]); intros t Ht; specialize (H2 t Ht).
    - rewrite negb_true_iff, orb_false_iff, !negb_false_iff, !is_some_true in H2.
      exact H2.
    - rewrite negb_true_iff, orb_false_iff, !negb_false_iff, !is_some_true.
      exact H2. }
  split; [|split; [exact Hcan|]].
  - intros g. unfold shouldCreateBindGroup, specCanCreate.
    rewrite !andb_true_iff, Hnone, !none_found_forallb, !forallb_forall,
      !Forall_forall, negb_true_iff, Nat.eqb_neq.
    assert (Hlen : length (bindings g) <> 0 <-> bindings g <> []).
    { destruct (bindings g); simpl; split; congruence. }
    rewrite Hlen.
    split.
    + intros [[[H1 H2] H3] H4]. repeat split; auto.
      * intros t Ht. specialize (H3 t Ht).
        rewrite negb_involutive, orb_true_iff, !is_some_true in H3. exact H3.
      * intros s Hs. specialize (H4 s Hs).
        rewrite negb_involutive, is_some_true in H4. exact H4.
    + intros [[H1 [H3 H4]] H2]. repeat split; auto.
      * intros t Ht. specialize (H3 t Ht).
        rewrite negb_involutive, orb_true_iff, !is_some_true. exact H3.
      * intros s Hs. specialize (H4 s Hs).
        rewrite negb_involutive, is_some_true. exact H4.
  - intros g Ht. rewrite Hcan, Ht. split; [tauto|]. intros H; split; [exact H|constructor].
Qed.

Lemma setBindingResource_length bs i v :
  length (setBindingResource bs i v) = length bs.
Proof.
  revert i; induction bs as [|b bs IH]; intros i; [reflexivity|].
  destruct i as [|i]; [destruct b; reflexivity|].
  simpl. destruct b; simpl; now rewrite IH.
Qed.

(** C8.  Assigning a resource to a sampler binding of a bind group leaves
    [needsPipelineFlush] and the registered external texture indices as
    they are, whatever the value; a non-null value over a non-null sampler
    only raises the binding's [shouldResetBindGroup].  The video texture
    check leaves the bind group untouched and answers [false] at an index
    that is already registered, in particular when it is repeated at the
    same index; it turns the flag on only at an index that was not
    registered. *)
Theorem no_redundant_flush :
  (forall g i value,
     needsPipelineFlush (setSamplerResource g i value) = needsPipelineFlush g
     /\ externalTexturesIndex (setSamplerResource g i value) = externalTexturesIndex g
     /\ length (bindings (setSamplerResource g i value)) = length (bindings g))
  /\ (forall b value,
        value <> None -> sampler b <> None ->
        shouldResetBindGroup (set_resource b value) = true
        /\ sampler (set_resource b value) = value)
  /\ (forall g i,
        In i (externalTexturesIndex g) ->
        shouldUpdateVideoTextureBindGroupLayout g i = (false, g))
  /\ (forall g i,
        shouldUpdateVideoTextureBindGroupLayout
          (snd (shouldUpdateVideoTextureBindGroupLayout g i)) i
        = (false, snd (shouldUpdateVideoTextureBindGroupLayout g i)))
  /\ (forall g i,
        needsPipelineFlush g = false ->
        needsPipelineFlush (snd (shouldUpdateVideoTextureBindGroupLayout g i)) = true ->
        ~ In i (externalTexturesIndex g)).
Proof.
  assert (Hreg : forall g i, In i (externalTexturesIndex g) ->
            shouldUpdateVideoTextureBindGroupLayout g i = (false, g)).
  { intros g i H. unfold shouldUpdateVideoTextureBindGroupLayout.
    apply arrayIncludes_In in H. now rewrite H. }
  repeat split.
  - apply setBindingResource_length.
  - unfold set_resource. cbn [shouldResetBindGroup].
    apply is_some_true in H, H0. now rewrite H, H0.
  - exact Hreg.
  - intros g i. apply Hreg. unfold shouldUpdateVideoTextureBindGroupLayout.
    destruct (arrayIncludes (externalTexturesIndex g) i) eqn:E; cbn [snd externalTexturesIndex].
    + now apply arrayIncludes_In.
    + apply in_app_iff. right. now left.
  - intros g i Hf Ht Hin. rewrite (Hreg g i Hin) in Ht. cbn [snd] in Ht. congruence.
Qed.

Lemma no_redundant_flush_witness :
  shouldUpdateVideoTextureBindGroupLayout Examples.videoBindGroup 0
  = (false, Examples.videoBindGroup)
  /\ shouldResetBindGroup
       (set_resource {| sampler := Some 11; shouldResetBindGroup := false |} (Some 12))
     = true.
Proof.
  split.
  - apply (proj1 (proj2 (proj2 no_redundant_flush)) Examples.videoBindGroup 0).
    simpl. auto.
  - apply (proj1 (proj2 no_redundant_flush)
             {| sampler := Some 11; shouldResetBindGroup := false |} (Some 12));
      discriminate.
Defined.

End BindGroupFacts.

(** ** The creation index *)

Module MeshBaseFacts.
Import MeshBase.
Local Open Scope Z_scope.

Lemma get_set_same o k p : getOwnProperty (setOwnProperty o k p) k = Some p.
Proof.
  induction o as [|[k' q] o IH]; simpl.
  - now rewrite String.eqb_refl.
  - destruct (String.eqb k' k) eqn:E; simpl; rewrite E; auto.
Qed.

Lemma get_set_other o k k' p :
  k <> k' -> getOwnProperty (setOwnProperty o k p) k' = getOwnProperty o k'.
Proof.
  intros Hk. induction o as [|[k0 q] o IH]; simpl.
  - apply String.eqb_neq in Hk. now rewrite Hk.
  - destruct (String.eqb k0 k) eqn:E; simpl.
    + apply String.eqb_eq in E. subst k0.
      apply String.eqb_neq in Hk. now rewrite Hk.
    + destruct (String.eqb k0 k'); auto.
Qed.

(** A property that is neither writable nor configurable survives every
    later write on the object. *)
Lemma frozen_property_write o k p w :
  getOwnProperty o k = Some p -> writable p = false -> configurable p = false ->
  getOwnProperty (write o w) k = Some p.
Proof.
  intros Hg Hw Hc. destruct w as [k' v|k' v]; simpl.
  - unfold assign. destruct (String.eqb_spec k' k) as [->|Hk].
    + rewrite Hg, Hw. exact Hg.
    + destruct (getOwnProperty o k') as [q|].
      * destruct (writable q); [|exact Hg]. now rewrite get_set_other.
      * now rewrite get_set_other.
  - unfold defineProperty. destruct (String.eqb_spec k' k) as [->|Hk].
    + rewrite Hg, Hw, Hc. simpl. destruct (value p =? v); exact Hg.
    + destruct (getOwnProperty o k') as [q|].
      * destruct (configurable q || writable q)%bool.
        -- now rewrite get_set_other.
        -- destruct (value q =? v); exact Hg.
      * now rewrite get_set_other.
Qed.

Lemma frozen_property_writes ws o k p :
  getOwnProperty o k = Some p -> writable p = false -> configurable p = false ->
  getOwnProperty (fold_left write ws o) k = Some p.
Proof.
  revert o; induction ws as [|w ws IH]; intros o Hg Hw Hc; simpl; [exact Hg|].
  apply IH; auto. now apply frozen_property_write.
Qed.

(** What the constructor leaves on a base object without [index]. *)
Lemma construct_fresh this c :
  getOwnProperty this "index" = None ->
  exists o, construct this c = (Some o, c + 1)
    /\ getOwnProperty o "index"
       = Some {| value := c; writable := false; enumerable := false;
                 configurable := false |}.
Proof.
  intros H. unfold construct, defineProperty. rewrite H.
  eexists. split; [reflexivity|]. apply get_set_same.
Qed.

(** The indices handed out from counter value [c] on: [c], [c + 1], ... *)
Lemma seq_indices_sorted n c :
  StronglySorted Z.lt (map (fun k => c + Z.of_nat k) (seq 0 n)).
Proof.
  assert (H : forall s, StronglySorted Z.lt (map (fun k => c + Z.of_nat k) (seq s n))).
  { induction n as [|n IH]; intros s; simpl; constructor; [apply IH|].
    apply Forall_forall. intros x Hx. apply in_map_iff in Hx as (k & <- & Hk).
    apply in_seq in Hk. lia. }
  apply H.
Qed.

(** C10.  Meshes constructed one after the other, from any value [c] of the
    module-level counter, on base objects that have no [index] of their
    own: every construction succeeds, the counter ends at [c] plus the
    number of meshes, the [k]-th mesh has index [c + k], so the indices are
    strictly increasing in creation order and pairwise distinct, and no
    later assignment or property definition changes the index of a
    mesh. *)
Theorem creation_index_unique_and_frozen bases c :
  Forall (fun this => getOwnProperty this "index" = None) bases ->
  exists meshes,
    constructAll bases c = (map Some meshes, c + Z.of_nat (length bases))
    /\ map index meshes
       = map (fun k => Some (c + Z.of_nat k)) (seq 0 (length bases))
    /\ StronglySorted Z.lt (map (fun k => c + Z.of_nat k) (seq 0 (length bases)))
    /\ NoDup (map index meshes)
    /\ (forall o writes, In o meshes -> index (fold_left write writes o) = index o)
    /\ (forall o v, In o meshes -> assign o "index" v = None).
Proof.
  intros Hb.
  assert (H : forall s,
    exists meshes,
      constructAll bases (c + Z.of_nat s)
      = (map Some meshes, c + Z.of_nat (s + length bases))
      /\ map index meshes
         = map (fun k => Some (c + Z.of_nat k)) (seq s (length bases))
      /\ Forall (fun o => exists p, getOwnProperty o "index" = Some p
                   /\ writable p = false /\ configurable p = false) meshes).
  { induction Hb as [|this bases Hthis Hb IH]; intros s.
    - exists []. simpl. rewrite Nat.add_0_r. auto.
    - destruct (@construct_fresh this (c + Z.of_nat s) Hthis) as (o & Ho & Hg).
      destruct (IH (S s)) as (ms & Hms & Hidx & Hfr).
      exists (o :: ms). cbn [constructAll]. rewrite Ho.
      replace (c + Z.of_nat s + 1) with (c + Z.of_nat (S s)) by lia.
      rewrite Hms. repeat split.
      + simpl. do 2 f_equal. lia.
      + simpl. unfold index at 1. rewrite Hg. simpl. now rewrite Hidx.
      + constructor; [|exact Hfr]. eexists. split; [exact Hg|]. auto. }
  destruct (H 0%nat) as (ms & Hms & Hidx & Hfr).
  rewrite Z.add_0_r in Hms. simpl in Hms.
  exists ms. split; [exact Hms|]. split; [exact Hidx|].
  split; [apply seq_indices_sorted|].
  rewrite Forall_forall in Hfr.
  repeat split.
  - rewrite Hidx. apply Injective_map_NoDup; [|apply seq_NoDup].
    intros x y E. injection E. lia.
  - intros o ws Ho. destruct (Hfr o Ho) as (p & Hg & Hw & Hc).
    unfold index. rewrite Hg. now rewrite (@frozen_property_writes ws o _ p Hg Hw Hc).
  - intros o v Ho. destruct (Hfr o Ho) as (p & Hg & Hw & Hc).
    unfold assign. now rewrite Hg, Hw.
Qed.

Lemma creation_index_unique_and_frozen_witness :
  exists meshes,
    constructAll [Examples.baseObject 71; Examples.baseObject 72] 0
    = (map Some meshes, 2)
    /\ map index meshes = [Some 0; Some 1].
Proof.
  destruct (@creation_index_unique_and_frozen
              [Examples.baseObject 71; Examples.baseObject 72] 0)
    as (ms & H1 & H2 & _).
  - repeat constructor.
  - exists ms. split; [exact H1|exact H2].
Defined.

End MeshBaseFacts.

(** ** Shader patching *)

Module PipelineFacts.
Import Pipeline.
Local Open Scope string_scope.

(** *** Strings *)

Lemma append_assoc a b c : (a +++ b) +++ c = a +++ b +++ c.
Proof. induction a as [|x a IH]; simpl; congruence. Qed.

Lemma append_nil_r a : a +++ EmptyString = a.
Proof. induction a as [|x a IH]; simpl; congruence. Qed.

Lemma prefix_nil s : String.prefix EmptyString s = true.
Proof. now destruct s. Qed.

Lemma prefix_append sub t : String.prefix sub (sub +++ t) = true.
Proof.
  induction sub as [|x sub IH]; simpl; [apply prefix_nil|].
  destruct (ascii_dec x x); [exact IH|congruence].
Qed.

Lemma prefix_append_r sub s t :
  String.prefix sub s = true -> String.prefix sub (s +++ t) = true.
Proof.
  revert s; induction sub as [|x sub IH]; intros s H; [apply prefix_nil|].
  destruct s as [|y s]; simpl in *; [discriminate|].
  destruct (ascii_dec x y); [auto|discriminate].
Qed.

Lemma includes_nil s : includes EmptyString s = true.
Proof. destruct s; reflexivity. Qed.

Lemma includes_empty sub :
  includes sub EmptyString = String.prefix sub EmptyString.
Proof. simpl. apply orb_false_r. Qed.

Lemma includes_cons sub y s :
  includes sub (String y s) = String.prefix sub (String y s) || includes sub s.
Proof. reflexivity. Qed.

Lemma includes_prefix sub s : String.prefix sub s = true -> includes sub s = true.
Proof.
  intros H. destruct s; [now rewrite includes_empty|].
  rewrite includes_cons, H. reflexivity.
Qed.

Lemma includes_append_r sub s t :
  includes sub s = true -> includes sub (s +++ t) = true.
Proof.
  induction s as [|y s IH]; intros H.
  - rewrite includes_empty in H. destruct sub; [apply includes_nil|discriminate].
  - rewrite includes_cons in H. apply orb_true_iff in H as [H|H].
    + apply includes_prefix. now apply prefix_append_r.
    + change (String y s +++ t) with (String y (s +++ t)).
      rewrite includes_cons, (IH H). apply orb_true_r.
Qed.

Lemma includes_append_l sub p s :
  includes sub s = true -> includes sub (p +++ s) = true.
Proof.
  intros H. induction p as [|x p IH]; [exact H|].
  change (String x p +++ s) with (String x (p +++ s)).
  rewrite includes_cons, IH. apply orb_true_r.
Qed.

Lemma includes_middle sub p t : includes sub (p +++ sub +++ t) = true.
Proof. apply includes_append_l, includes_prefix, prefix_append. Qed.

Lemma prefix_split sub s :
  String.prefix sub s = true -> exists t, s = sub +++ t.
Proof.
  revert s; induction sub as [|x sub IH]; intros s H.
  - now exists s.
  - destruct s as [|y s]; simpl in H; [discriminate|].
    destruct (ascii_dec x y) as [->|]; [|discriminate].
    destruct (IH s H) as (t & ->). now exists t.
Qed.

(** [includes] is the substring test. *)
Lemma includes_iff sub s :
  includes sub s = true <-> exists p t, s = p +++ sub +++ t.
Proof.
  split.
  - induction s as [|y s IH]; intros H.
    + rewrite includes_empty in H. destruct sub; [|discriminate].
      now exists EmptyString, EmptyString.
    + rewrite includes_cons in H. apply orb_true_iff in H as [H|H].
      * destruct (prefix_split _ _ H) as (t & E). now exists EmptyString, t.
      * destruct (IH H) as (p & t & ->). now exists (String y p), t.
  - intros (p & t & ->). apply includes_middle.
Qed.

Lemma includes_false_append_l sub p s :
  includes sub (p +++ s) = false -> includes sub s = false.
Proof.
  intros H. destruct (includes sub s) eqn:E; [|reflexivity].
  now rewrite (includes_append_l _ p _ E) in H.
Qed.

Lemma includes_false_append_r sub s t :
  includes sub (s +++ t) = false -> includes sub s = false.
Proof.
  intros H. destruct (includes sub s) eqn:E; [|reflexivity].
  now rewrite (includes_append_r _ _ t E) in H.
Qed.

Lemma includes_declaration gb :
  includes (gb_wgslGroupFragment gb) (declaration gb) = true.
Proof.
  unfold declaration.
  change (String (ascii_of_nat 10) "@group(" +++ ?x)
    with (String (ascii_of_nat 10) "@group(" +++ x).
  rewrite <- !append_assoc. rewrite append_assoc. apply includes_middle.
Qed.

(** *** The enumeration of the group bindings *)

Lemma combine_seq_app (A : Type) (a b : list A) n :
  combine (seq n (length (a ++ b))) (a ++ b)
  = (combine (seq n (length a)) a
     ++ combine (seq (n + length a) (length b)) b)%list.
Proof.
  revert n; induction a as [|x a IH]; intros n; simpl.
  - now rewrite Nat.add_0_r.
  - rewrite IH. replace (S n + length a) with (n + S (length a)) by lia.
    reflexivity.
Qed.

Lemma pushFragments_slots bindGroup bindingIndex binding st :
  exists entries,
    pushFragments bindGroup bindingIndex binding st
    = (fst st + length (wgslGroupFragment binding), (snd st ++ entries)%list)
    /\ map slot entries
       = map (fun pf => (index bindGroup, fst pf, snd pf))
             (combine (seq (fst st) (length (wgslGroupFragment binding)))
                      (wgslGroupFragment binding)).
Proof.
  unfold pushFragments, indexed.
  generalize (length (bindings bindGroup) - 1) as lastBinding.
  generalize (length (wgslGroupFragment binding) - 1) as lastFragment.
  intros lastFragment lastBinding.
  generalize 0 as s.
  generalize (wgslGroupFragment binding) as fragments.
  intros fragments; revert st.
  induction fragments as [|f fragments IH]; intros [n acc] s; simpl.
  - exists []. now rewrite Nat.add_0_r, app_nil_r.
  - destruct (IH (S n, (acc ++ [ {| groupIndex := index bindGroup;
                                    gb_visibility := visibility binding;
                                    bindIndex := n;
                                    gb_wgslStructFragment := wgslStructFragment binding;
                                    gb_wgslGroupFragment := f;
                                    newLine := Nat.eqb bindingIndex lastBinding
                                               && Nat.eqb s lastFragment |} ])%list)
                 (S s)) as (entries & E & Hs).
    eexists. split.
    + rewrite E. cbn [fst snd]. rewrite <- app_assoc.
      f_equal. lia.
    + cbn [app map slot groupIndex bindIndex gb_wgslGroupFragment fst snd].
      now rewrite Hs.
Qed.

Lemma pushBindings_slots acc bindGroup :
  exists entries,
    pushBindings acc bindGroup = (acc ++ entries)%list
    /\ map slot entries
       = map (fun pf => (index bindGroup, fst pf, snd pf))
             (indexed (groupFragments bindGroup)).
Proof.
  unfold pushBindings, indexed at 1, groupFragments.
  assert (H : forall bs s n acc,
    exists entries,
      fold_left (fun st (ib : nat * Binding) =>
                   pushFragments bindGroup (fst ib) (snd ib) st)
                (combine (seq s (length bs)) bs) (n, acc)
      = (n + length (flat_map wgslGroupFragment bs), (acc ++ entries)%list)
      /\ map slot entries
         = map (fun pf => (index bindGroup, fst pf, snd pf))
               (combine (seq n (length (flat_map wgslGroupFragment bs)))
                        (flat_map wgslGroupFragment bs))).
  { induction bs as [|b bs IH]; intros s n acc0; simpl.
    - exists []. now rewrite Nat.add_0_r, app_nil_r.
    - destruct (pushFragments_slots bindGroup s b (n, acc0)) as (e1 & E1 & H1).
      rewrite E1. cbn [fst snd] in *.
      destruct (IH (S s) (n + length (wgslGroupFragment b))
                   (acc0 ++ e1)%list) as (e2 & E2 & H2).
      exists (e1 ++ e2)%list. split.
      + rewrite E2, <- app_assoc, length_app. f_equal. lia.
      + rewrite map_app, H1, H2, combine_seq_app, map_app. reflexivity. }
  destruct (H (bindings bindGroup) 0 0 acc) as (entries & E & Hs).
  exists entries. rewrite E. split; [reflexivity|exact Hs].
Qed.

(** Group by group in array order, binding by binding, fragment by
    fragment, with the position counting up from 0 within each group. *)
Lemma groupsBindings_slots bindGroups :
  map slot (groupsBindings bindGroups) = specSlots bindGroups.
Proof.
  unfold groupsBindings, specSlots.
  assert (H : forall bgs acc,
    map slot (fold_left pushBindings bgs acc)
    = (map slot acc
       ++ flat_map (fun bindGroup =>
            map (fun pf => (index bindGroup, fst pf, snd pf))
                (indexed (groupFragments bindGroup))) bgs)%list).
  { induction bgs as [|bg bgs IH]; intros acc; simpl.
    - now rewrite app_nil_r.
    - destruct (pushBindings_slots acc bg) as (entries & E & Hs).
      rewrite IH, E, map_app, Hs, <- app_assoc. reflexivity. }
  apply (H bindGroups []).
Qed.

Lemma pushFragments_spec bindGroup bindingIndex binding n acc :
  pushFragments bindGroup bindingIndex binding (n, acc)
  = (n + length (wgslGroupFragment binding),
     (acc ++ map (fun pf : nat * string =>
                    {| groupIndex := index bindGroup;
                       gb_visibility := visibility binding;
                       bindIndex := n + fst pf;
                       gb_wgslStructFragment := wgslStructFragment binding;
                       gb_wgslGroupFragment := snd pf;
                       newLine :=
                         Nat.eqb bindingIndex (length (bindings bindGroup) - 1)
                         && Nat.eqb (fst pf)
                                    (length (wgslGroupFragment binding) - 1) |})
                 (indexed (wgslGroupFragment binding)))%list).
Proof.
  unfold pushFragments, indexed.
  generalize (length (bindings bindGroup) - 1) as lastBinding.
  generalize (length (wgslGroupFragment binding) - 1) as lastFragment.
  intros lastFragment lastBinding.
  assert (H : forall fragments s n acc,
    fold_left
      (fun (st : nat * list GroupBinding) (gf : nat * string) =>
         (S (fst st),
          (snd st ++
           [{| groupIndex := index bindGroup;
               gb_visibility := visibility binding;
               bindIndex := fst st;
               gb_wgslStructFragment := wgslStructFragment binding;
               gb_wgslGroupFragment := snd gf;
               newLine := Nat.eqb bindingIndex lastBinding
                          && Nat.eqb (fst gf) lastFragment |}])%list))
      (combine (seq s (length fragments)) fragments) (n, acc)
    = (n + length fragments,
       (acc ++ map (fun pf : nat * string =>
                      {| groupIndex := index bindGroup;
                         gb_visibility := visibility binding;
                         bindIndex := n + (fst pf - s);
                         gb_wgslStructFragment := wgslStructFragment binding;
                         gb_wgslGroupFragment := snd pf;
                         newLine := Nat.eqb bindingIndex lastBinding
                                    && Nat.eqb (fst pf) lastFragment |})
                   (combine (seq s (length fragments)) fragments))%list)).
  { clear. induction fragments as [|f fragments IH]; intros s n acc.
    - cbn. now rewrite Nat.add_0_r, app_nil_r.
    - cbn [length seq combine fold_left fst snd map]. rewrite IH.
      rewrite <- app_assoc. cbn [app]. f_equal; [lia|]. f_equal.
      f_equal; [f_equal; lia|].
      apply map_ext_in. intros [j g] Hin. apply in_combine_l in Hin.
      apply in_seq in Hin. cbn [fst snd]. f_equal. lia. }
  rewrite H. f_equal. f_equal. apply map_ext. intros [j g]. cbn [fst snd].
  f_equal. lia.
Qed.

Lemma pushBindings_spec acc bindGroup :
  pushBindings acc bindGroup
  = (acc ++ flat_map (fun ib => specBindingEntries bindGroup (fst ib) (snd ib))
                     (combine (seq 0 (length (bindings bindGroup)))
                              (bindings bindGroup)))%list.
Proof.
  unfold pushBindings, indexed at 1.
  assert (H : forall bs pre acc, bindings bindGroup = (pre ++ bs)%list ->
    snd (fold_left (fun st (ib : nat * Binding) =>
                      pushFragments bindGroup (fst ib) (snd ib) st)
                   (combine (seq (length pre) (length bs)) bs)
                   (length (flat_map wgslGroupFragment pre), acc))
    = (acc ++ flat_map (fun ib => specBindingEntries bindGroup (fst ib) (snd ib))
                       (combine (seq (length pre) (length bs)) bs))%list).
  { induction bs as [|b bs IH]; intros pre acc0 Hb.
    - cbn. now rewrite app_nil_r.
    - cbn [length seq combine fold_left flat_map fst snd].
      rewrite pushFragments_spec.
      assert (Hb' : bindings bindGroup = ((pre ++ [b]) ++ bs)%list)
        by now rewrite <- app_assoc.
      specialize (IH (pre ++ [b])%list). 
      rewrite length_app, flat_map_app, length_app in IH. cbn [length flat_map] in IH.
      rewrite app_nil_r, Nat.add_1_r in IH.
      rewrite IH by exact Hb'. rewrite <- app_assoc. f_equal. f_equal.
      unfold specBindingEntries. rewrite Hb.
      rewrite firstn_app, Nat.sub_diag, firstn_all. cbn [firstn]. now rewrite app_nil_r. }
  apply (H (bindings bindGroup) [] acc). reflexivity.
Qed.

(** The enumeration of the source is the one of the words, field by
    field. *)
Lemma groupsBindings_spec bindGroups :
  groupsBindings bindGroups = specGroupBindings bindGroups.
Proof.
  unfold groupsBindings, specGroupBindings.
  assert (H : forall bgs acc,
    fold_left pushBindings bgs acc
    = (acc ++ flat_map (fun bindGroup =>
         flat_map (fun ib => specBindingEntries bindGroup (fst ib) (snd ib))
                  (combine (seq 0 (length (bindings bindGroup)))
                           (bindings bindGroup))) bgs)%list).
  { induction bgs as [|bg bgs IH]; intros acc; cbn [fold_left flat_map].
    - now rewrite app_nil_r.
    - now rewrite IH, pushBindings_spec, <- app_assoc. }
  apply (H bindGroups []).
Qed.

Lemma StronglySorted_app_intro (A : Type) (R : A -> A -> Prop) a b :
  StronglySorted R a -> StronglySorted R b ->
  (forall x y, In x a -> In y b -> R x y) -> StronglySorted R (a ++ b)%list.
Proof.
  intros Ha Hb H. induction Ha as [|x a Ha IH Hx]; simpl; [exact Hb|].
  constructor.
  - apply IH. intros u v Hu Hv. apply H; simpl; auto.
  - apply Forall_app. split; [exact Hx|].
    apply Forall_forall. intros y Hy. apply H; simpl; auto.
Qed.

Lemma specSlots_groups bindGroups s :
  In s (specSlots bindGroups) -> In (fst (fst s)) (map index bindGroups).
Proof.
  unfold specSlots. rewrite in_flat_map. intros (bg & Hbg & Hs).
  apply in_map_iff in Hs as (pf & <- & _). simpl. now apply in_map.
Qed.

(** When the bind group array is in index order, so are the slots. *)
Lemma specSlots_sorted bindGroups :
  StronglySorted le (map index bindGroups) ->
  StronglySorted le (map (fun s => fst (fst s)) (specSlots bindGroups)).
Proof.
  induction bindGroups as [|bg bgs IH]; intros H; [constructor|].
  inversion H as [|? ? Hs Hall]; subst.
  unfold specSlots. cbn [flat_map]. fold (specSlots bgs).
  rewrite map_app. apply StronglySorted_app_intro; [|auto|].
  - rewrite map_map. cbn [fst].
    induction (indexed (groupFragments bg)) as [|pf l IHl]; simpl; constructor; auto.
    apply Forall_forall. intros x Hx. apply in_map_iff in Hx as (? & <- & _). lia.
  - intros x y Hx Hy.
    apply in_map_iff in Hx as (sx & <- & Hx).
    apply in_map_iff in Hx as (pf & <- & _). cbn [fst].
    apply in_map_iff in Hy as (sy & <- & Hy).
    apply specSlots_groups in Hy.
    rewrite Forall_forall in Hall. auto.
Qed.

(** *** Patching one head *)

Lemma Subsequence_app (A : Type) (a a' b b' : list A) :
  Subsequence a a' -> Subsequence b b' -> Subsequence (a ++ b)%list (a' ++ b')%list.
Proof.
  intros Ha Hb. induction Ha; simpl; [exact Hb| |]; now constructor.
Qed.

Lemma Subsequence_nil (A : Type) (l : list A) : Subsequence [] l.
Proof. induction l; now constructor. Qed.

(** The two shapes of [patchStruct]: nothing added, or the struct fragment
    put in front of a head that lacked it. *)
Lemma patchStruct_cases head gb :
  (patchStruct head gb = head
   /\ forall sf, truthy (gb_wgslStructFragment gb) = Some sf ->
                 includes sf head = true)
  \/ (exists sf, truthy (gb_wgslStructFragment gb) = Some sf
                 /\ includes sf head = false
                 /\ patchStruct head gb = (nl +++ sf +++ nl) +++ head).
Proof.
  unfold patchStruct. destruct (truthy (gb_wgslStructFragment gb)) as [sf|].
  - destruct (includes sf head) eqn:E.
    + left. split; [reflexivity|]. now intros ? [= <-].
    + right. exists sf. now rewrite !append_assoc.
  - left. split; [reflexivity|]. discriminate.
Qed.

(** One iteration: a prefix of at most one struct fragment and a suffix of
    at most one declaration around the head. *)
Lemma structDeclarations_one sf : structDeclarations [sf] = nl +++ sf +++ nl.
Proof. reflexivity. Qed.

Lemma declarations_one gb : declarations [gb] = declaration gb.
Proof. unfold declarations. cbn [fold_right]. apply append_nil_r. Qed.

Lemma structFragments_one gb :
  structFragments [gb]
  = match truthy (gb_wgslStructFragment gb) with Some sf => [sf] | None => [] end.
Proof. unfold structFragments. cbn [flat_map]. apply app_nil_r. Qed.

Lemma patchHead_cases head gb :
  exists structs emitted,
    patchHead head gb
    = structDeclarations structs +++ head +++ declarations emitted
    /\ Subsequence structs (structFragments [gb])
    /\ Subsequence emitted [gb]
    /\ (forall sf, In sf structs -> includes sf head = false)
    /\ (forall g, In g emitted -> includes (gb_wgslGroupFragment g) head = false)
    /\ (forall sf, In sf (structFragments [gb]) ->
                   includes sf (patchHead head gb) = true)
    /\ includes (gb_wgslGroupFragment gb) (patchHead head gb) = true.
Proof.
  unfold patchHead, patchGroup. rewrite structFragments_one.
  destruct (patchStruct_cases head gb) as [[E Hs]|(sf & Et & Ei & E)]; rewrite E.
  - assert (Hs' : forall sf,
              In sf (match truthy (gb_wgslStructFragment gb) with
                     | Some sf => [sf] | None => [] end) ->
              includes sf head = true).
    { intros sf H. apply Hs.
      destruct (truthy (gb_wgslStructFragment gb)); [|destruct H].
      destruct H as [<-|[]]. reflexivity. }
    destruct (includes (gb_wgslGroupFragment gb) head) eqn:Eg.
    + exists [], [].
      split; [|split; [|split; [|split; [|split; [|split]]]]].
      * unfold structDeclarations, declarations. cbn [fold_right].
        now rewrite append_nil_r.
      * apply Subsequence_nil.
      * apply Subsequence_nil.
      * intros ? [].
      * intros ? [].
      * exact Hs'.
      * exact Eg.
    + exists [], [gb]. rewrite declarations_one.
      split; [|split; [|split; [|split; [|split; [|split]]]]].
      * reflexivity.
      * apply Subsequence_nil.
      * apply sub_keep, sub_nil.
      * intros ? [].
      * now intros g [<-|[]].
      * intros sf H. now apply includes_append_r, Hs'.
      * apply includes_append_l, includes_declaration.
  - rewrite Et.
    assert (Hin : includes sf ((nl +++ sf +++ nl) +++ head) = true).
    { rewrite !append_assoc. apply includes_middle. }
    destruct (includes (gb_wgslGroupFragment gb) ((nl +++ sf +++ nl) +++ head)) eqn:Eg.
    + exists [sf], []. rewrite structDeclarations_one.
      split; [|split; [|split; [|split; [|split; [|split]]]]].
      * unfold declarations. cbn [fold_right].
        now rewrite append_nil_r.
      * apply sub_keep, sub_nil.
      * apply Subsequence_nil.
      * now intros ? [<-|[]].
      * intros ? [].
      * now intros ? [<-|[]].
      * exact Eg.
    + exists [sf], [gb]. rewrite structDeclarations_one, declarations_one.
      split; [|split; [|split; [|split; [|split; [|split]]]]].
      * now rewrite !append_assoc.
      * apply sub_keep, sub_nil.
      * apply sub_keep, sub_nil.
      * now intros ? [<-|[]].
      * intros g [<-|[]]. eapply includes_false_append_l, Eg.
      * intros ? [<-|[]]. now apply includes_append_r.
      * apply includes_append_l, includes_declaration.
Qed.

Lemma structDeclarations_app a b :
  structDeclarations (a ++ b)%list = structDeclarations b +++ structDeclarations a.
Proof.
  induction a as [|x a IH]; simpl; [now rewrite append_nil_r|].
  now rewrite IH, !append_assoc.
Qed.

Lemma declarations_app a b :
  declarations (a ++ b)%list = declarations a +++ declarations b.
Proof.
  induction a as [|x a IH]; simpl; [reflexivity|].
  now rewrite IH, !append_assoc.
Qed.

Lemma structFragments_cons gb gbs :
  structFragments (gb :: gbs) = (structFragments [gb] ++ structFragments gbs)%list.
Proof. unfold structFragments. simpl. now rewrite app_nil_r. Qed.

Lemma NoDup_app_intro (A : Type) (a b : list A) :
  NoDup a -> NoDup b -> (forall x, In x a -> In x b -> False) -> NoDup (a ++ b)%list.
Proof.
  intros Ha Hb H. induction Ha as [|x a Hx Ha IH]; simpl; [exact Hb|].
  constructor.
  - rewrite in_app_iff. intros [H1|H1]; [auto|]. apply (H x); simpl; auto.
  - apply IH. intros y Hy. apply H. now right.
Qed.

Lemma Subsequence_short_NoDup (A : Type) (l : list A) x :
  Subsequence l [x] -> NoDup l.
Proof.
  intros H. inversion H as [|? ? ? H'|? ? ? H']; subst;
    inversion H'; subst; repeat constructor. intros [].
Qed.

Lemma Subsequence_map (A B : Type) (f : A -> B) l l' :
  Subsequence l l' -> Subsequence (map f l) (map f l').
Proof. intros H. induction H; simpl; now constructor. Qed.

Lemma Subsequence_In (A : Type) (l l' : list A) x :
  Subsequence l l' -> In x l -> In x l'.
Proof.
  intros H. induction H; simpl; intuition.
Qed.

Lemma patched_fold gbs head : Patched head gbs (fold_left patchHead gbs head).
Proof.
  revert head; induction gbs as [|gb gbs IH]; intros head.
  - exists [], []. simpl. rewrite append_nil_r.
    repeat split; try constructor; intros ? [].
  - cbn [fold_left].
    destruct (patchHead_cases head gb)
      as (s1 & e1 & E1 & Ss1 & Se1 & Hs1 & He1 & Hps & Hpg).
    destruct (IH (patchHead head gb))
      as (s2 & e2 & E2 & Ss2 & Se2 & Ns2 & Ne2 & Hs2 & He2 & Hfs & Hfg).
    set (final := fold_left patchHead gbs (patchHead head gb)) in *.
    assert (Hmono : forall f, includes f (patchHead head gb) = true ->
              includes f final = true).
    { intros f Hf. rewrite E2. now apply includes_append_l, includes_append_r. }
    assert (Hback : forall f, includes f (patchHead head gb) = false ->
              includes f head = false).
    { intros f Hf. rewrite E1 in Hf.
      rewrite <- append_assoc in Hf.
      apply (includes_false_append_l _ (structDeclarations s1)).
      apply (includes_false_append_r _ _ (declarations e1)). exact Hf. }
    exists (s1 ++ s2)%list, (e1 ++ e2)%list.
    split; [|split; [|split; [|split; [|split; [|split; [|split; [|split]]]]]]].
    + rewrite E2, E1, structDeclarations_app, declarations_app, !append_assoc.
      reflexivity.
    + rewrite structFragments_cons. now apply Subsequence_app.
    + change (gb :: gbs) with ([gb] ++ gbs)%list. now apply Subsequence_app.
    + apply NoDup_app_intro; [|exact Ns2|].
      * unfold structFragments in Ss1. simpl in Ss1.
        destruct (truthy (gb_wgslStructFragment gb)); simpl in Ss1.
        -- eapply Subsequence_short_NoDup, Ss1.
        -- inversion Ss1. constructor.
      * intros x Hx1 Hx2. specialize (Hs2 x Hx2).
        rewrite Hps in Hs2; [discriminate|].
        eapply Subsequence_In; eauto.
    + rewrite map_app. apply NoDup_app_intro; [|exact Ne2|].
      * apply (Subsequence_short_NoDup (x := gb_wgslGroupFragment gb)).
        apply (Subsequence_map gb_wgslGroupFragment) in Se1. exact Se1.
      * intros x Hx1 Hx2.
        apply in_map_iff in Hx1 as (g1 & <- & Hg1).
        apply in_map_iff in Hx2 as (g2 & Eg & Hg2).
        assert (g1 = gb).
        { pose proof (@Subsequence_In _ _ _ g1 Se1 Hg1) as Hg. simpl in Hg.
          intuition. }
        subst g1. specialize (He2 g2 Hg2). rewrite Eg, Hpg in He2. discriminate.
    + intros sf Hsf. apply in_app_iff in Hsf as [Hsf|Hsf]; auto.
    + intros g Hg. apply in_app_iff in Hg as [Hg|Hg]; auto.
    + intros sf Hsf. rewrite structFragments_cons in Hsf.
      apply in_app_iff in Hsf as [Hsf|Hsf]; auto.
    + intros g [<-|Hg]; auto.
Qed.

(** *** The substring rule *)

Lemma Occurs_includes sub s : Occurs sub s <-> includes sub s = true.
Proof. unfold Occurs. symmetry. apply includes_iff. Qed.

Lemma not_Occurs_includes sub s : ~ Occurs sub s <-> includes sub s = false.
Proof. rewrite Occurs_includes. now destruct (includes sub s). Qed.

Lemma StructStep_patchStruct gb h h1 :
  StructStep gb h h1 <-> h1 = patchStruct h gb.
Proof.
  unfold patchStruct, truthy, nl. split.
  - intros [[Hn|Hn]|sf Hs Ho|sf Hs He Ho]; rewrite ?Hn, ?Hs; try reflexivity.
    + destruct sf; [reflexivity|]. apply Occurs_includes in Ho. now rewrite Ho.
    + destruct sf; [contradiction|]. apply not_Occurs_includes in Ho.
      now rewrite Ho.
  - intros ->. destruct (gb_wgslStructFragment gb) as [[|c sf]|] eqn:Hs.
    + apply struct_none. now right.
    + destruct (includes (String c sf) h) eqn:Ho.
      * apply struct_present with (String c sf);
          [exact Hs|now apply Occurs_includes].
      * apply struct_added;
          [exact Hs|discriminate|now apply not_Occurs_includes].
    + apply struct_none. now left.
Qed.

Lemma GroupStep_patchGroup gb h h2 :
  GroupStep gb h h2 <-> h2 = patchGroup h gb.
Proof.
  unfold patchGroup, declaration, show, nl. split.
  - intros [Ho|Ho].
    + apply Occurs_includes in Ho. now rewrite Ho.
    + apply not_Occurs_includes in Ho. now rewrite Ho.
  - intros ->. destruct (includes (gb_wgslGroupFragment gb) h) eqn:Ho.
    + apply group_present. now apply Occurs_includes.
    + apply group_declared. now apply not_Occurs_includes.
Qed.

(** The steps of the words are those of the loop body, and they leave
    one head only. *)
Lemma SpecPatched_fold gbs : forall h h3,
  SpecPatched h gbs h3 <-> h3 = fold_left patchHead gbs h.
Proof.
  induction gbs as [|gb gbs IH]; intros h h3; cbn [fold_left].
  - split; [now inversion 1|intros ->; constructor].
  - split.
    + inversion 1 as [|? ? ? h1 h2 ? Hs Hg Hrest]; subst.
      apply StructStep_patchStruct in Hs. apply GroupStep_patchGroup in Hg.
      apply IH in Hrest. subst. reflexivity.
    + intros ->. apply spec_step with (patchStruct h gb) (patchHead h gb).
      * now apply StructStep_patchStruct.
      * now apply GroupStep_patchGroup.
      * now apply IH.
Qed.

(** *** The three heads *)

Lemma patchHeads_fold gbs h :
  fold_left patchHeads gbs h
  = {| vertexHead :=
         fold_left patchHead (filter (visibleIn VERTEX) gbs) (vertexHead h);
       fragmentHead :=
         fold_left patchHead (filter (visibleIn FRAGMENT) gbs) (fragmentHead h);
       fullHead := fold_left patchHead gbs (fullHead h) |}.
Proof.
  revert h; induction gbs as [|gb gbs IH]; intros h; simpl.
  - now destruct h.
  - rewrite IH. unfold patchHeads. cbn [vertexHead fragmentHead fullHead].
    destruct (visibleIn VERTEX gb), (visibleIn FRAGMENT gb); reflexivity.
Qed.

(** C6 (as stated) fails: of two bindings with different texts, the first
    one alone is declared when the text of the second occurs inside the
    text of the first.  The second is no duplicate, and nothing is declared
    at [@binding(1)]. *)
Lemma substring_binding_not_declared :
  map slot (groupsBindings Examples.overlappingBindGroups)
  = [ (0, 0, "var<uniform> time: f32; // seconds");
      (0, 1, "var<uniform> time: f32;") ]
  /\ head (fragment (patchShaders Examples.codePointCompare
                       Examples.noChunks Examples.noChunks Examples.sharedSource
                       "struct A {};" Examples.overlappingBindGroups))
     = nl +++ "@group(0) @binding(0) var<uniform> time: f32; // seconds"
  /\ head (full (patchShaders Examples.codePointCompare
                    Examples.noChunks Examples.noChunks Examples.sharedSource
                    "struct A {};" Examples.overlappingBindGroups))
     = "struct A {};" +++ nl +++ nl
       +++ "@group(0) @binding(0) var<uniform> time: f32; // seconds".
Proof. repeat split; vm_compute; reflexivity. Qed.

(** C6 (as amended).  The group bindings are enumerated bind group by bind
    group in the order of the entry's bind group array (index order when
    the array is in index order), binding by binding in declaration order,
    one per group fragment, with the binding position counting up from 0
    within each group.  Each head (the full one, and the vertex and
    fragment ones for the bindings visible there) is the head of chunks
    patched with these group bindings in that order, and in no other way:
    the declaration [@group(i) @binding(j) fragment] goes at the end unless
    the text of the fragment occurs somewhere in the head, and a struct
    fragment goes in front unless its text occurs in the head.  So no
    group fragment is declared twice, and in the end the text of every
    group fragment occurs in the head. *)
Theorem shader_patching_order
  localeCompare shaderChunks projectedShaderChunks o attributes bindGroups :
  let gbs := groupsBindings bindGroups in
  let h0 := chunkHeads shaderChunks projectedShaderChunks o in
  let s := patchShaders localeCompare shaderChunks projectedShaderChunks o
             attributes bindGroups in
  gbs = specGroupBindings bindGroups
  /\ map slot gbs = specSlots bindGroups
  /\ (StronglySorted le (map index bindGroups) ->
      StronglySorted le (map groupIndex gbs))
  /\ (exists fullH,
        head (full s) = attributes +++ nl +++ fullH
        /\ (forall h, SpecPatched (fullHead h0) gbs h <-> h = fullH)
        /\ (forall gb, In gb gbs -> Occurs (gb_wgslGroupFragment gb) fullH)
        /\ Patched (fullHead h0) gbs fullH)
  /\ (exists vertexH,
        head (vertex s) = attributes +++ nl +++ vertexH
        /\ (forall h,
              SpecPatched (vertexHead h0)
                (filter (fun gb =>
                           (gb_visibility gb =? VERTEX)%N
                           || (gb_visibility gb
                               =? N.lor VERTEX (N.lor FRAGMENT COMPUTE))%N) gbs) h
              <-> h = vertexH)
        /\ Patched (vertexHead h0) (filter (visibleIn VERTEX) gbs) vertexH)
  /\ (forall h,
        SpecPatched (fragmentHead h0)
          (filter (fun gb =>
                     (gb_visibility gb =? FRAGMENT)%N
                     || (gb_visibility gb
                         =? N.lor VERTEX (N.lor FRAGMENT COMPUTE))%N) gbs) h
        <-> h = head (fragment s))
  /\ Patched (fragmentHead h0) (filter (visibleIn FRAGMENT) gbs)
             (head (fragment s)).
Proof.
  intros gbs h0 s. split; [apply groupsBindings_spec|].
  split; [apply groupsBindings_slots|].
  split.
  { intros H. apply specSlots_sorted in H.
    rewrite <- groupsBindings_slots, map_map in H. exact H. }
  unfold s, patchShaders, patchedHeads. fold gbs. fold h0.
  rewrite patchHeads_fold. cbn [head full vertex fragment vertexHead fragmentHead fullHead].
  split; [|split; [|split]].
  - eexists. split; [reflexivity|]. split; [intros h; apply SpecPatched_fold|].
    split; [|apply patched_fold].
    intros gb Hgb. apply Occurs_includes.
    destruct (patched_fold gbs (fullHead h0))
      as (structs & emitted & _ & _ & _ & _ & _ & _ & _ & _ & Hall).
    now apply Hall.
  - eexists. split; [reflexivity|].
    split; [intros h; apply SpecPatched_fold|apply patched_fold].
  - intros h. apply SpecPatched_fold.
  - apply patched_fold.
Qed.

Lemma shader_patching_order_witness :
  StronglySorted le (map groupIndex (groupsBindings Examples.sampleBindGroups)).
Proof.
  apply (proj1 (proj2 (proj2 (@shader_patching_order Examples.codePointCompare
           Examples.noChunks Examples.noChunks
           Examples.sharedSource "struct A {};" Examples.sampleBindGroups)))).
  repeat constructor.
Defined.

Lemma shader_patching_example :
  head (fragment (patchShaders Examples.codePointCompare
                    Examples.noChunks Examples.noChunks
                    Examples.sharedSource "struct A {};" Examples.sampleBindGroups))
  = String (ascii_of_nat 10) "struct P { a: f32 };" +++ nl
    +++ String (ascii_of_nat 10) "@group(0) @binding(0) var tex: texture_2d<f32>;"
    +++ String (ascii_of_nat 10) "@group(0) @binding(1) var smp: sampler;"
    +++ String (ascii_of_nat 10) "@group(1) @binding(0) var<uniform> p: P;"
    +++ String (ascii_of_nat 10) "@group(1) @binding(1) var<uniform> q: P;" +++ nl.
Proof. reflexivity. Qed.

(** *** Shader modules *)

Lemma findIndex_Some (A : Type) (f : A -> bool) l : forall i,
  findIndex f l = Some i ->
  exists x, nth_error l i = Some x /\ f x = true.
Proof.
  induction l as [|y l IH]; intros i H; [discriminate|].
  cbn [findIndex] in H. destruct (f y) eqn:E.
  - injection H as <-. exists y. now split.
  - destruct (findIndex f l) as [j|]; [|discriminate].
    injection H as <-. destruct (IH j eq_refl) as (x & Hx & Hf).
    exists x. now split.
Qed.

Lemma findIndex_app_found (A : Type) (f : A -> bool) l l' i :
  findIndex f l = Some i -> findIndex f (l ++ l')%list = Some i.
Proof.
  revert i. induction l as [|y l IH]; intros i H; [discriminate|].
  cbn [findIndex app] in *. destruct (f y); [exact H|].
  destruct (findIndex f l) as [j|]; [|discriminate].
  now rewrite (IH j eq_refl).
Qed.

Lemma findIndex_app_new (A : Type) (f : A -> bool) l x :
  findIndex f l = None -> f x = true ->
  findIndex f (l ++ [x])%list = Some (length l).
Proof.
  intros H Hx. induction l as [|y l IH]; cbn [findIndex app length].
  - now rewrite Hx.
  - cbn [findIndex] in H. destruct (f y); [discriminate|].
    destruct (findIndex f l); [discriminate|]. now rewrite IH.
Qed.

(** One call of [createShaderModule] on a device. *)
Lemma createShaderModule_device d c type :
  exists m d',
    createShaderModule (Some d) c type = (Some m, Some d')
    /\ option_map smCode (nth_error d' m) = Some c
    /\ findIndex (fun x => String.eqb (smCode x) c) d' = Some m
    /\ (d' = d \/ d' = (d ++ [{| smCode := c; smType := type |}])%list).
Proof.
  unfold createShaderModule, GPURenderer_createShaderModule.
  destruct (findIndex (fun x => String.eqb (smCode x) c) d) as [m|] eqn:E.
  - exists m, d. split; [reflexivity|]. split; [|split; [exact E|now left]].
    destruct (findIndex_Some _ _ E) as (x & Hx & Hc). rewrite Hx. cbn.
    apply String.eqb_eq in Hc. now rewrite Hc.
  - eexists _, _. split; [reflexivity|]. split; [|split; [|now right]].
    + rewrite nth_error_app2, Nat.sub_diag by lia. reflexivity.
    + apply findIndex_app_new; [exact E|]. cbn. apply String.eqb_refl.
Qed.

(** The two calls of [createShaders], one after the other. *)
Lemma createShaderModule_twice d cv tv cf tf :
  exists vm fm d1 d2,
    createShaderModule (Some d) cv tv = (Some vm, Some d1)
    /\ createShaderModule (Some d1) cf tf = (Some fm, Some d2)
    /\ option_map smCode (nth_error d2 vm) = Some cv
    /\ option_map smCode (nth_error d2 fm) = Some cf
    /\ (vm = fm <-> cv = cf)
    /\ (d1 = d \/ d1 = (d ++ [{| smCode := cv; smType := tv |}])%list)
    /\ (d2 = d1 \/ d2 = (d1 ++ [{| smCode := cf; smType := tf |}])%list)
    /\ (cv = cf -> d2 = d1).
Proof.
  destruct (createShaderModule_device d cv tv) as (vm & d1 & E1 & C1 & F1 & D1).
  destruct (createShaderModule_device d1 cf tf) as (fm & d2 & E2 & C2 & F2 & D2).
  exists vm, fm, d1, d2.
  assert (Cv : option_map smCode (nth_error d2 vm) = Some cv).
  { destruct D2 as [->| ->]; [exact C1|].
    destruct (nth_error d1 vm) as [x|] eqn:Hx; [|discriminate].
    rewrite nth_error_app1, Hx; [exact C1|].
    apply nth_error_Some. congruence. }
  assert (Same : cv = cf -> fm = vm /\ d2 = d1).
  { intros <-. unfold createShaderModule in E2. rewrite F1 in E2.
    injection E2 as <- <-. now split. }
  repeat split; auto.
  - intros <-. congruence.
  - intros H. symmetry. now apply Same.
  - intros H. now apply Same.
Qed.

(** C7 (as stated) fails: with the same source text for both stages and
    the entry point [main] for both, the two stages are not taken for one
    shader; [createShaders] has each stage compiled from its own patched
    text, the two texts differ, and the stages hold two modules. *)
Lemma two_modules_for_one_source :
  code (optVertex Examples.sameEntryPoint) = code (optFragment Examples.sameEntryPoint)
  /\ isSameShader Examples.codePointCompare Examples.sameEntryPoint = false
  /\ shaderCode (vertex (patchShaders Examples.codePointCompare Examples.noChunks
                           Examples.noChunks Examples.sameEntryPoint
                           "struct A {};" []))
     <> shaderCode (fragment (patchShaders Examples.codePointCompare
                                Examples.noChunks Examples.noChunks
                                Examples.sameEntryPoint "struct A {};" []))
  /\ module (vertex (fst (createShaders Examples.codePointCompare Examples.noChunks
                            Examples.noChunks Examples.sameEntryPoint
                            "struct A {};" [] (Some []))))
     <> module (fragment (fst (createShaders Examples.codePointCompare
                                 Examples.noChunks Examples.noChunks
                                 Examples.sameEntryPoint "struct A {};" []
                                 (Some []))))
  /\ option_map (@length ShaderModuleDescriptor)
       (snd (createShaders Examples.codePointCompare Examples.noChunks
               Examples.noChunks Examples.sameEntryPoint "struct A {};" []
               (Some [])))
     = Some 2.
Proof.
  split; [reflexivity|]. split; [reflexivity|].
  split; [vm_compute; discriminate|].
  split; [vm_compute; discriminate|reflexivity].
Qed.

(** C7 (as amended).  The two stages are taken for one shader exactly when
    their entry points differ and [localeCompare] takes their source texts
    for equal, as it does identical texts.  Then, on a renderer with a
    device, both stages hold one and the same module, compiled from the
    text of the full shader, which is the full head followed by the source
    once, and at most one module is compiled.  In any other case each
    stage holds a module compiled from its own patched text, the same
    module only when the two texts are equal.  Without a device neither
    stage gets a module. *)
Theorem same_source_for_both_modules
  localeCompare shaderChunks projectedShaderChunks o attributes bindGroups d :
  let s := patchShaders localeCompare shaderChunks projectedShaderChunks o
             attributes bindGroups in
  let r := createShaders localeCompare shaderChunks projectedShaderChunks o
             attributes bindGroups (Some d) in
  let r0 := createShaders localeCompare shaderChunks projectedShaderChunks o
              attributes bindGroups None in
  (isSameShader localeCompare o = true
   <-> entryPoint (optVertex o) <> entryPoint (optFragment o)
       /\ localeCompare (code (optVertex o)) (code (optFragment o)) = 0%Z)
  /\ ((forall text, localeCompare text text = 0%Z) ->
      entryPoint (optVertex o) <> entryPoint (optFragment o) ->
      code (optVertex o) = code (optFragment o) ->
      isSameShader localeCompare o = true)
  /\ (isSameShader localeCompare o = true ->
        shaderCode (full s) = head (full s) +++ code (optVertex o)
        /\ exists m d',
             module (vertex (fst r)) = Some m
             /\ module (fragment (fst r)) = Some m
             /\ snd r = Some d'
             /\ option_map smCode (nth_error d' m) = Some (shaderCode (full s))
             /\ (d' = d
                 \/ d' = (d ++ [ {| smCode := shaderCode (full s);
                                    smType := "vertex" |} ])%list))
  /\ (isSameShader localeCompare o = false ->
        exists vm fm d',
          module (vertex (fst r)) = Some vm
          /\ module (fragment (fst r)) = Some fm
          /\ snd r = Some d'
          /\ option_map smCode (nth_error d' vm) = Some (shaderCode (vertex s))
          /\ option_map smCode (nth_error d' fm) = Some (shaderCode (fragment s))
          /\ (vm = fm <-> shaderCode (vertex s) = shaderCode (fragment s)))
  /\ (module (vertex (fst r0)) = None /\ module (fragment (fst r0)) = None
      /\ snd r0 = None).
Proof.
  intros s r r0.
  assert (Hsame : isSameShader localeCompare o = true
            <-> entryPoint (optVertex o) <> entryPoint (optFragment o)
                /\ localeCompare (code (optVertex o)) (code (optFragment o)) = 0%Z).
  { unfold isSameShader.
    rewrite andb_true_iff, negb_true_iff, String.eqb_neq, Z.eqb_eq. tauto. }
  split; [exact Hsame|]. split; [|split; [|split]].
  - intros Hrefl Hentry Hcode. apply Hsame. split; [exact Hentry|].
    rewrite Hcode. apply Hrefl.
  - intros H. split.
    { unfold s, patchShaders. cbn [shaderCode full head]. now rewrite H. }
    unfold r, createShaders. fold s. rewrite H.
    destruct (createShaderModule_twice d (shaderCode (full s)) "vertex"
                (shaderCode (full s)) "fragment")
      as (vm & fm & d1 & d2 & E1 & E2 & C1 & C2 & Heq & D1 & D2 & Hd).
    rewrite E1, E2. cbn [fst snd vertex fragment module].
    assert (vm = fm) by now apply Heq. subst fm.
    rewrite (Hd eq_refl) in *.
    exists vm, d1. repeat split; auto.
  - intros H. unfold r, createShaders. fold s. rewrite H.
    destruct (createShaderModule_twice d (shaderCode (vertex s)) "vertex"
                (shaderCode (fragment s)) "fragment")
      as (vm & fm & d1 & d2 & E1 & E2 & C1 & C2 & Heq & D1 & D2 & Hd).
    rewrite E1, E2. cbn [fst snd vertex fragment module].
    exists vm, fm, d2. repeat split; auto; apply Heq.
  - unfold r0, createShaders. cbn. repeat split.
Qed.

Lemma codePointCompare_same text : Examples.codePointCompare text text = 0%Z.
Proof.
  unfold Examples.codePointCompare.
  pose proof (String.compare_antisym text text) as H.
  destruct (String.compare text text); try discriminate; reflexivity.
Qed.

Lemma same_source_for_both_modules_witness :
  module (vertex (fst (createShaders Examples.codePointCompare Examples.noChunks
                         Examples.noChunks Examples.sharedSource
                         "struct A {};" [] (Some []))))
  = module (fragment (fst (createShaders Examples.codePointCompare
                             Examples.noChunks Examples.noChunks
                             Examples.sharedSource "struct A {};" [] (Some [])))).
Proof.
  destruct (@same_source_for_both_modules
              Examples.codePointCompare Examples.noChunks Examples.noChunks
              Examples.sharedSource "struct A {};" [] [])
    as (_ & Hidentical & Hone & _).
  assert (Hsame : isSameShader Examples.codePointCompare Examples.sharedSource = true).
  { apply Hidentical; [exact codePointCompare_same|discriminate|reflexivity]. }
  destruct (Hone Hsame) as (_ & m & d' & Hv & Hf & _).
  exact (eq_trans Hv (eq_sym Hf)).
Defined.

End PipelineFacts.

(* ================================================================== *)
(** * Further properties *)

(** ** More on the stable sort *)

Module SortFacts.
Import JSArray JSArrayFacts.

Section KeySort.
Variable A : Type.
Variable key : A -> Z.
Variable cmp : A -> A -> Z.
Hypothesis cmp_key : forall x y, cmp x y = (key x - key y)%Z.

(** Sorting a list that is in key order changes nothing. *)
Lemma sort_sorted_id l : StronglySorted (fun a b => (key a <= key b)%Z) l -> sort cmp l = l.
Proof.
  induction 1 as [|x l Hl IH Hx]; [reflexivity|].
  cbn [sort fold_right]. fold (sort cmp l). rewrite IH.
  destruct l as [|y l]; [reflexivity|].
  apply insert_head. rewrite cmp_key. inversion Hx; subst. simpl in *. lia.
Qed.

Lemma StronglySorted_filter (R : A -> A -> Prop) (P : A -> bool) l :
  StronglySorted R l -> StronglySorted R (filter P l).
Proof.
  induction 1 as [|x l Hl IH Hx]; simpl; [constructor|].
  destruct (P x); [|exact IH].
  constructor; [exact IH|].
  rewrite Forall_forall in *. intros y Hy. apply filter_In in Hy. apply Hx, Hy.
Qed.

Lemma filter_insert (P : A -> bool) x l :
  StronglySorted (fun a b => (key a <= key b)%Z) l ->
  filter P (insert cmp x l)
  = if P x then insert cmp x (filter P l) else filter P l.
Proof.
  induction 1 as [|y l Hl IH Hy]; simpl.
  - now destruct (P x).
  - rewrite cmp_key. destruct (Z.ltb_spec 0 (key x - key y)) as [Hlt|Hle].
    + cbn [filter]. rewrite IH.
      destruct (P x), (P y); try reflexivity.
      cbn [insert]. rewrite cmp_key.
      destruct (Z.ltb_spec 0 (key x - key y)); [reflexivity|lia].
    + cbn [filter]. destruct (P x) eqn:Px; [|reflexivity].
      destruct (P y) eqn:Py.
      * cbn [insert]. rewrite cmp_key.
        destruct (Z.ltb_spec 0 (key x - key y)); [lia|reflexivity].
      * destruct (filter P l) as [|z l'] eqn:E; [reflexivity|].
        assert (Hz : In z l) by (apply (filter_In P z l); rewrite E; now left).
        rewrite Forall_forall in Hy. specialize (Hy z Hz). simpl in Hy.
        symmetry. apply insert_head. rewrite cmp_key. lia.
Qed.

(** Filtering commutes with the stable sort. *)
Lemma filter_sort (P : A -> bool) l :
  filter P (sort cmp l) = sort cmp (filter P l).
Proof.
  induction l as [|x l IH]; [reflexivity|].
  cbn [sort fold_right]. fold (sort cmp l).
  rewrite filter_insert by (apply (sort_sorted key cmp cmp_key)).
  cbn [filter]. destruct (P x); [|exact IH].
  cbn [sort fold_right]. fold (sort cmp (filter P l)). now rewrite IH.
Qed.

Lemma sorted_strict l :
  StronglySorted (fun a b => (key a <= key b)%Z) l -> NoDup (map key l) ->
  StronglySorted (fun a b => (key a < key b)%Z) l.
Proof.
  induction 1 as [|x l Hl IH Hx]; intros Hnd; [constructor|].
  inversion Hnd as [|? ? Hnin Hnd']; subst.
  constructor; [auto|].
  rewrite Forall_forall in *. intros y Hy.
  specialize (Hx y Hy). simpl in Hx.
  assert (key x <> key y).
  { intros E. apply Hnin. rewrite E. now apply in_map. }
  lia.
Qed.

Lemma strict_sorted_unique l1 l2 :
  StronglySorted (fun a b => (key a < key b)%Z) l1 ->
  StronglySorted (fun a b => (key a < key b)%Z) l2 ->
  Permutation l1 l2 -> l1 = l2.
Proof.
  intros H1; revert l2. induction H1 as [|x l1 Hl1 IH Hx]; intros l2 H2 Hp.
  - apply Permutation_nil in Hp. now subst.
  - destruct H2 as [|y l2 Hl2 Hy].
    + apply Permutation_sym, Permutation_nil in Hp. discriminate.
    + assert (E : x = y).
      { assert (Hxin : In x (y :: l2)) by (eapply Permutation_in; [exact Hp|now left]).
        assert (Hyin : In y (x :: l1))
          by (eapply Permutation_in; [symmetry; exact Hp|now left]).
        destruct Hxin as [E|Hxin]; [now subst|].
        destruct Hyin as [E|Hyin]; [now subst|].
        rewrite Forall_forall in Hx, Hy.
        specialize (Hx y Hyin). specialize (Hy x Hxin). lia. }
      subst y. f_equal. apply IH; [exact Hl2|].
      eapply Permutation_cons_inv, Hp.
Qed.

(** With pairwise distinct keys the sorted array depends on the elements
    only, not on the order they come in. *)
Lemma sort_perm_unique l l' :
  NoDup (map key l) -> Permutation l l' -> sort cmp l = sort cmp l'.
Proof.
  intros Hnd Hp.
  apply strict_sorted_unique.
  - apply sorted_strict; [apply (sort_sorted key cmp cmp_key)|].
    eapply Permutation_NoDup; [|exact Hnd].
    apply Permutation_map, Permutation_sym, sort_perm.
  - apply sorted_strict; [apply (sort_sorted key cmp cmp_key)|].
    eapply Permutation_NoDup; [|exact Hnd].
    apply Permutation_map. rewrite sort_perm. exact Hp.
  - now rewrite !sort_perm.
Qed.
End KeySort.

End SortFacts.

(** ** Scene stacks: removal, re-insertion, order *)

Module SceneOpsFacts.
Import JSArray JSArrayFacts SortFacts Scene SceneFacts SceneOps.

Lemma byIndex_key x y : byIndex x y = (index x - index y)%Z.
Proof. reflexivity. Qed.

Lemma byDepth_key x y :
  byDepth x y = ((- documentPosition_z x) - (- documentPosition_z y))%Z.
Proof. unfold byDepth. lia. Qed.

Lemma byRenderOrder_key x y :
  byRenderOrder x y = ((- renderOrder x) - (- renderOrder y))%Z.
Proof. unfold byRenderOrder. lia. Qed.

Lemma StronglySorted_impl (A : Type) (R R' : A -> A -> Prop) l :
  (forall a b, R a b -> R' a b) -> StronglySorted R l -> StronglySorted R' l.
Proof.
  intros H. induction 1 as [|x l Hl IH Hx]; constructor; [exact IH|].
  eapply Forall_impl; [|exact Hx]. auto.
Qed.

Lemma removeMesh_partition r mesh :
  partition_of mesh (stacks (removeMesh r mesh))
  = filter (fun m => negb (uuid m =? uuid mesh)) (partition_of mesh (stacks r)).
Proof.
  unfold partition_of, removeMesh, with_projectionStack.
  destruct (useProjection (material mesh)), (transparent mesh); reflexivity.
Qed.

Lemma filter_perm (A : Type) (P : A -> bool) l l' :
  Permutation l l' -> Permutation (filter P l) (filter P l').
Proof.
  induction 1 as [|x l l' H IH|x y l|l l' l'' H1 IH1 H2 IH2]; simpl.
  - constructor.
  - destruct (P x); [now constructor|exact IH].
  - destruct (P x), (P y); try reflexivity. apply perm_swap.
  - etransitivity; eassumption.
Qed.

Lemma filter_other_uuid u (l : list Mesh) :
  (forall m, In m l -> uuid m <> u) ->
  filter (fun m => negb (uuid m =? u)) l = l.
Proof.
  induction l as [|m l IH]; intros H; simpl; [reflexivity|].
  assert (Hm : uuid m <> u) by (apply H; now left).
  apply Nat.eqb_neq in Hm. rewrite Hm. simpl. f_equal. apply IH.
  intros; apply H; now right.
Qed.

(** X1.  [removeMesh] takes the objects with the identity of the mesh out of
    the partition of the mesh, keeps the other members in their order, and
    leaves the other partitions, the ping-pong planes, the shader passes
    and [renderer.meshes] as they are. *)
Theorem removeMesh_only_its_partition r mesh :
  partition_of mesh (stacks (removeMesh r mesh))
  = filter (fun m => negb (uuid m =? uuid mesh)) (partition_of mesh (stacks r))
  /\ (forall m, In m (partition_of mesh (stacks (removeMesh r mesh))) ->
                uuid m <> uuid mesh)
  /\ (forall other,
        useProjection (material other) <> useProjection (material mesh)
        \/ transparent other <> transparent mesh ->
        partition_of other (stacks (removeMesh r mesh))
        = partition_of other (stacks r))
  /\ pingPongPlanes (stacks (removeMesh r mesh)) = pingPongPlanes (stacks r)
  /\ shaderPasses (stacks (removeMesh r mesh)) = shaderPasses (stacks r)
  /\ meshes (removeMesh r mesh) = meshes r.
Proof.
  pose proof (removeMesh_partition r mesh) as E.
  split; [exact E|]. split.
  - intros m Hm. rewrite E in Hm. apply filter_In in Hm as [_ Hm].
    apply negb_true_iff, Nat.eqb_neq in Hm. exact Hm.
  - split; [|split; [|split]].
    + intros other H. unfold partition_of, removeMesh, with_projectionStack.
      destruct (useProjection (material mesh)), (transparent mesh),
        (useProjection (material other)), (transparent other);
        try reflexivity; destruct H as [H|H]; congruence.
    + unfold removeMesh, with_projectionStack.
      destruct (useProjection (material mesh)); reflexivity.
    + unfold removeMesh, with_projectionStack.
      destruct (useProjection (material mesh)); reflexivity.
    + reflexivity.
Qed.

(** X2.  Adding to the scene a mesh that is already in it changes nothing:
    [addMesh] rebuilds the partition from [renderer.meshes]. *)
Theorem addMesh_idempotent r mesh :
  addMesh (addMesh r mesh) mesh = addMesh r mesh.
Proof.
  unfold addMesh, with_projectionStack, set_substack, set_stacks, similarMeshes.
  cbn [meshes stacks]. 
  destruct (useProjection (material mesh)), (transparent mesh); reflexivity.
Qed.

(** X3.  After [addMesh] the partition of the mesh is in descending render
    order; members of one render order are in descending depth in a
    transparent partition and in creation order in an opaque one. *)
Theorem partition_order_after_addMesh r mesh :
  let partition := partition_of mesh (stacks (addMesh r mesh)) in
  StronglySorted (fun a b => (renderOrder b <= renderOrder a)%Z) partition
  /\ (forall order,
        StronglySorted
          (fun a b => if transparent mesh
                      then (documentPosition_z b <= documentPosition_z a)%Z
                      else (index a <= index b)%Z)
          (filter (fun m => (renderOrder m =? order)%Z) partition)).
Proof.
  cbn zeta. rewrite partition_addMesh by reflexivity. unfold similarMeshes.
  set (l := splice _ mesh _).
  split.
  - eapply StronglySorted_impl;
      [|apply (sort_sorted (fun m => (- renderOrder m)%Z) byRenderOrder
                 byRenderOrder_key)].
    simpl. intros; lia.
  - intros order.
    rewrite (filter_ext (fun m => (renderOrder m =? order)%Z)
                        (fun m => (- renderOrder m =? - order)%Z)).
    2: { intros m. destruct (Z.eqb_spec (renderOrder m) order),
           (Z.eqb_spec (- renderOrder m) (- order)); try reflexivity; lia. }
    rewrite (sort_stable (fun m => (- renderOrder m)%Z) byRenderOrder
               byRenderOrder_key).
    apply StronglySorted_filter.
    destruct (transparent mesh).
    + eapply StronglySorted_impl;
        [|apply (sort_sorted (fun m => (- documentPosition_z m)%Z) byDepth
                   byDepth_key)].
      simpl. intros; lia.
    + apply (sort_sorted index byIndex byIndex_key).
Qed.

(** X4.  When the creation indices of the meshes involved are pairwise
    distinct, the place where [addMesh] splices the mesh in (next to its
    last pipeline sibling) has no effect on the partition: the sort by
    creation index that follows yields the same array from any place. *)
Theorem sibling_position_irrelevant r mesh i :
  NoDup (map index (mesh :: filter (similarTo mesh) (meshes r))) ->
  partition_of mesh (stacks (addMesh r mesh)) = similarMeshesAt i r mesh.
Proof.
  intros Hnd. rewrite partition_addMesh by reflexivity.
  unfold similarMeshes, similarMeshesAt.
  set (similar := filter (similarTo mesh) (meshes r)) in *.
  assert (E : sort byIndex (splice (siblingMeshIndex
                (pe_index (pipelineEntry (material mesh))) similar) mesh similar)
              = sort byIndex (splice i mesh similar)).
  { apply (sort_perm_unique index byIndex byIndex_key).
    - eapply Permutation_NoDup; [|exact Hnd].
      apply Permutation_map, Permutation_sym, splice_perm.
    - now rewrite !splice_perm. }
  now rewrite E.
Qed.

Lemma sibling_position_irrelevant_witness :
  partition_of Examples.depth3
    (stacks (addMesh (set_meshes MoreExamples.populatedRenderer
                        (meshes MoreExamples.populatedRenderer ++ [Examples.depth3]))
                     Examples.depth3))
  = similarMeshesAt 0
      (set_meshes MoreExamples.populatedRenderer
         (meshes MoreExamples.populatedRenderer ++ [Examples.depth3]))
      Examples.depth3.
Proof.
  apply (@sibling_position_irrelevant
           (set_meshes MoreExamples.populatedRenderer
              (meshes MoreExamples.populatedRenderer ++ [Examples.depth3]))
           Examples.depth3 0).
  simpl. repeat constructor; simpl; intuition discriminate.
Defined.

(** X5.  Adding a mesh whose identity is new to the renderer and removing it
    again restores [renderer.meshes]; the partition of the mesh then holds
    exactly the other tracked meshes of its transparency, none with its
    identity. *)
Theorem addToScene_removeFromScene r mesh :
  (forall m, In m (meshes r) -> uuid m <> uuid mesh) ->
  let r' := removeFromScene (addToScene r mesh) mesh in
  meshes r' = meshes r
  /\ Permutation (partition_of mesh (stacks r'))
                 (filter (similarTo mesh) (meshes r))
  /\ (forall m, In m (partition_of mesh (stacks r')) -> uuid m <> uuid mesh).
Proof.
  intros Hfresh r'.
  assert (Hp : partition_of mesh (stacks r')
               = filter (fun m => negb (uuid m =? uuid mesh))
                        (partition_of mesh (stacks (addToScene r mesh))))
    by apply removeMesh_partition.
  split; [|split].
  - unfold r', removeFromScene. cbn [meshes set_meshes].
    change (meshes (removeMesh (addToScene r mesh) mesh)) with (meshes r ++ [mesh]).
    rewrite filter_app, filter_other_uuid by exact Hfresh.
    simpl. rewrite Nat.eqb_refl. simpl. apply app_nil_r.
  - rewrite Hp. unfold addToScene. rewrite partition_addMesh by reflexivity.
    assert (Hs : Permutation
              (similarMeshes (set_meshes r (meshes r ++ [mesh])) mesh)
              (mesh :: filter (similarTo mesh) (meshes r))).
    { rewrite similarMeshes_perm. cbn [meshes set_meshes].
      rewrite filter_app. simpl. rewrite similarTo_self. now rewrite app_nil_r. }
    rewrite (filter_perm _ Hs). simpl. rewrite Nat.eqb_refl. simpl.
    rewrite filter_other_uuid; [reflexivity|].
    intros m Hm. apply filter_In in Hm as [Hm _]. now apply Hfresh.
  - intros m Hm. rewrite Hp in Hm. apply filter_In in Hm as [_ Hm].
    apply negb_true_iff, Nat.eqb_neq in Hm. exact Hm.
Qed.

Lemma addToScene_removeFromScene_witness :
  meshes (removeFromScene (addToScene MoreExamples.populatedRenderer Examples.depth3)
                          Examples.depth3)
  = meshes MoreExamples.populatedRenderer.
Proof.
  apply (@addToScene_removeFromScene MoreExamples.populatedRenderer Examples.depth3).
  simpl. intuition (subst; discriminate).
Defined.

(** X6.  The shader pass stack is in descending render order after every
    registration, and registering a pass whose identity is new on such a
    stack and removing it again gives the stack back. *)
Theorem shaderPass_register_unregister r shaderPass :
  StronglySorted (fun a b => (renderOrder b <= renderOrder a)%Z)
                 (shaderPasses (stacks (addShaderPass r shaderPass)))
  /\ (StronglySorted (fun a b => (renderOrder b <= renderOrder a)%Z)
                     (shaderPasses (stacks r)) ->
      (forall sP, In sP (shaderPasses (stacks r)) -> uuid sP <> uuid shaderPass) ->
      shaderPasses (stacks (removeShaderPass (addShaderPass r shaderPass) shaderPass))
      = shaderPasses (stacks r)).
Proof.
  split.
  - cbn [addShaderPass set_stacks stacks shaderPasses].
    eapply StronglySorted_impl;
      [|apply (sort_sorted (fun m => (- renderOrder m)%Z) byRenderOrder
                 byRenderOrder_key)].
    simpl. intros; lia.
  - intros Hs Hfresh.
    cbn [removeShaderPass addShaderPass set_stacks stacks shaderPasses].
    rewrite (filter_sort (fun m => (- renderOrder m)%Z) byRenderOrder
               byRenderOrder_key).
    rewrite filter_app. simpl. rewrite Nat.eqb_refl. simpl. rewrite app_nil_r.
    rewrite filter_other_uuid by exact Hfresh.
    apply (sort_sorted_id (fun m => (- renderOrder m)%Z) byRenderOrder
             byRenderOrder_key).
    eapply StronglySorted_impl; [|exact Hs]. simpl. intros; lia.
Qed.

Lemma shaderPass_register_unregister_witness :
  shaderPasses
    (stacks (removeShaderPass
               (addShaderPass (addShaderPass Examples.emptyRenderer Examples.passB)
                              Examples.passA)
               Examples.passA))
  = shaderPasses (stacks (addShaderPass Examples.emptyRenderer Examples.passB)).
Proof.
  apply (proj2 (@shaderPass_register_unregister
                  (addShaderPass Examples.emptyRenderer Examples.passB)
                  Examples.passA)).
  - repeat constructor.
  - simpl. intuition (subst; discriminate).
Defined.

(** X7.  The ping-pong stack is in descending render order after every
    registration, and registering a plane whose identity is new on such a
    stack and removing it again gives the stack back; the shader passes
    are not touched. *)
Theorem pingPongPlane_register_unregister r pingPongPlane :
  StronglySorted (fun a b => (renderOrder b <= renderOrder a)%Z)
                 (pingPongPlanes (stacks (addPingPongPlane r pingPongPlane)))
  /\ shaderPasses (stacks (removePingPongPlane (addPingPongPlane r pingPongPlane)
                                               pingPongPlane))
     = shaderPasses (stacks r)
  /\ (StronglySorted (fun a b => (renderOrder b <= renderOrder a)%Z)
                     (pingPongPlanes (stacks r)) ->
      (forall pPP, In pPP (pingPongPlanes (stacks r)) -> uuid pPP <> uuid pingPongPlane) ->
      pingPongPlanes (stacks (removePingPongPlane (addPingPongPlane r pingPongPlane)
                                                  pingPongPlane))
      = pingPongPlanes (stacks r)).
Proof.
  split; [|split].
  - cbn [addPingPongPlane set_stacks stacks pingPongPlanes].
    eapply StronglySorted_impl;
      [|apply (sort_sorted (fun m => (- renderOrder m)%Z) byRenderOrder
                 byRenderOrder_key)].
    simpl. intros; lia.
  - reflexivity.
  - intros Hs Hfresh.
    cbn [removePingPongPlane addPingPongPlane set_stacks stacks pingPongPlanes].
    rewrite (filter_sort (fun m => (- renderOrder m)%Z) byRenderOrder
               byRenderOrder_key).
    rewrite filter_app. simpl. rewrite Nat.eqb_refl. simpl. rewrite app_nil_r.
    rewrite filter_other_uuid by exact Hfresh.
    apply (sort_sorted_id (fun m => (- renderOrder m)%Z) byRenderOrder
             byRenderOrder_key).
    eapply StronglySorted_impl; [|exact Hs]. simpl. intros; lia.
Qed.

Lemma pingPongPlane_register_unregister_witness :
  pingPongPlanes
    (stacks (removePingPongPlane
               (addPingPongPlane (addPingPongPlane Examples.emptyRenderer Examples.passC)
                                 Examples.passB)
               Examples.passB))
  = pingPongPlanes (stacks (addPingPongPlane Examples.emptyRenderer Examples.passC)).
Proof.
  apply (proj2 (proj2 (@pingPongPlane_register_unregister
                         (addPingPongPlane Examples.emptyRenderer Examples.passC)
                         Examples.passB))).
  - repeat constructor.
  - simpl. intuition (subst; discriminate).
Defined.

End SceneOpsFacts.

(** ** The frame: passes, copies and draws *)

Module FrameOpsFacts.
Import JSArray JSArrayFacts Scene SceneFacts FrameFacts SceneOps.

(** Hooks and callbacks leave the bracketing state as it is. *)
Lemma bracketed_refresh o l rest :
  bracketed o (map (fun element => OnBeforeRenderPass (uuid element)) l ++ rest)
  = bracketed o rest.
Proof.
  induction l as [|m l IH]; [reflexivity|]. simpl. rewrite IH. now destruct o.
Qed.

(** The commands of a material belong to the pass they are given. *)
Lemma bracketed_Material_render r m p rest :
  bracketed (Some p) (Material_render r m p ++ rest) = bracketed (Some p) rest.
Proof.
  unfold Material_render.
  destruct (negb (ready r)); [reflexivity|].
  destruct (negb (Material_ready m)); [reflexivity|].
  cbn [app bracketed]. rewrite Nat.eqb_refl. cbn [andb].
  induction (bindGroups m) as [|bg l IH]; [reflexivity|].
  cbn [map app bracketed]. now rewrite Nat.eqb_refl.
Qed.

(** The draw of a mesh fits in the open pass it is given. *)
Lemma bracketed_Mesh_render r mesh p rest :
  bracketed (Some p) (Mesh_render r mesh p ++ rest) = bracketed (Some p) rest.
Proof.
  unfold Mesh_render, onRenderPass. cbn [app bracketed].
  destruct (negb (ready r) || negb (visible mesh)); [reflexivity|].
  destruct (negb (Material_ready (material mesh))); [reflexivity|].
  cbn [app bracketed]. rewrite <- !app_assoc.
  rewrite bracketed_Material_render. cbn [app bracketed].
  now rewrite Nat.eqb_refl.
Qed.

Lemma bracketed_drawAll r p l rest :
  bracketed (Some p) (drawAll r p l ++ rest) = bracketed (Some p) rest.
Proof.
  unfold drawAll. induction l as [|m l IH]; [reflexivity|].
  cbn [flat_map]. rewrite <- app_assoc, bracketed_Mesh_render. exact IH.
Qed.

Lemma bracketed_pingPongStep r n planes rest :
  bracketed None (pingPongStep r n planes ++ rest) = bracketed None rest.
Proof.
  revert n; induction planes as [|p planes IH]; intros n; [reflexivity|].
  cbn [pingPongStep app bracketed].
  rewrite <- !app_assoc, bracketed_Mesh_render.
  cbn [app bracketed]. rewrite Nat.eqb_refl. cbn [andb]. apply IH.
Qed.

Lemma bracketed_shaderPassStep r n passes rest :
  bracketed None (shaderPassStep r n passes ++ rest) = bracketed None rest.
Proof.
  revert n; induction passes as [|p passes IH]; intros n; [reflexivity|].
  cbn [shaderPassStep app bracketed].
  rewrite <- !app_assoc, bracketed_Mesh_render.
  cbn [app bracketed]. rewrite Nat.eqb_refl. cbn [andb]. apply IH.
Qed.

Lemma bracketed_mainStep r p rest :
  bracketed None (mainStep r p ++ rest) = bracketed None rest.
Proof.
  unfold mainStep. cbn [app bracketed].
  rewrite <- !app_assoc. rewrite !bracketed_drawAll.
  destruct (cameraBindGroup r) as [cbg|]; cbn [app bracketed];
    rewrite ?Nat.eqb_refl; cbn [andb];
    rewrite !bracketed_drawAll; cbn [app bracketed];
    now rewrite Nat.eqb_refl.
Qed.

Lemma bracketed_frameTrace r n rest :
  bracketed None (frameTrace r n ++ rest) = bracketed None rest.
Proof.
  unfold frameTrace, refreshStep. rewrite <- !app_assoc.
  rewrite bracketed_refresh. cbn [app bracketed].
  rewrite bracketed_pingPongStep, bracketed_mainStep.
  apply bracketed_shaderPassStep.
Qed.

(** X8.  The commands of a frame are well bracketed: the frame opens one render
    pass at a time and ends each of them, issues pipeline, bind group and
    geometry commands only on the pass that is open, and copies textures
    only between passes. *)
Theorem frame_well_bracketed r : bracketed None (frame r) = true.
Proof.
  destruct (ready r) eqn:Hr.
  - rewrite frame_ready by exact Hr. cbn [app bracketed].
    now rewrite bracketed_frameTrace.
  - unfold frame, GPURenderer_render. now rewrite Hr.
Qed.

Lemma copies_app a b : copies (a ++ b) = copies a ++ copies b.
Proof. unfold copies. apply flat_map_app. Qed.

Lemma passesBegun_app a b : passesBegun (a ++ b) = passesBegun a ++ passesBegun b.
Proof. unfold passesBegun. apply flat_map_app. Qed.

Lemma flat_map_nil (A B : Type) (f : A -> list B) l :
  (forall x, In x l -> f x = []) -> flat_map f l = [].
Proof.
  induction l as [|x l IH]; intros H; [reflexivity|].
  cbn [flat_map]. rewrite H by now left. apply IH. intros; apply H; now right.
Qed.

(** What the draw of a mesh can issue. *)
Lemma Mesh_render_commands r mesh p c :
  In c (Mesh_render r mesh p) ->
  c = OnBeforeRenderPass (uuid mesh)
  \/ (ready r = true /\ visible mesh = true
      /\ (c = OnAfterRenderCallback (uuid mesh)
          \/ (Material_ready (material mesh) = true
              /\ (c = OnRenderCallback (uuid mesh)
                  \/ c = GeometryRender (uuid mesh) p
                  \/ c = SetCurrentPipeline p
                           (pe_index (pipelineEntry (material mesh)))
                  \/ exists bg, In bg (bindGroups (material mesh))
                                /\ c = SetBindGroup p (fst bg) (snd bg))))).
Proof.
  unfold Mesh_render, onRenderPass, Material_render.
  intros [H|H]; [now left|]. right.
  destruct (ready r); [|contradiction].
  destruct (visible mesh); [|contradiction].
  cbn [negb orb] in H. split; [reflexivity|]. split; [reflexivity|].
  destruct (Material_ready (material mesh)); cbn [negb] in H.
  - apply in_app_iff in H as [H|H].
    + right. split; [reflexivity|].
      destruct H as [H|H]; [now left|].
      apply in_app_iff in H as [H|H].
      * destruct H as [H|H]; [auto|].
        apply in_map_iff in H as (bg & <- & Hbg). eauto 6.
      * destruct H as [H|[]]. auto.
    + destruct H as [H|[]]. now left.
  - destruct H as [H|[]]. now left.
Qed.

Lemma Mesh_render_quiet r mesh p :
  copies (Mesh_render r mesh p) = [] /\ passesBegun (Mesh_render r mesh p) = [].
Proof.
  split; apply flat_map_nil; intros c Hc;
    apply Mesh_render_commands in Hc;
    destruct Hc as [->|(_ & _ & [->|(_ & [->|[->|[->|(bg & _ & ->)]]])])];
    reflexivity.
Qed.

Lemma drawAll_quiet r p l :
  copies (drawAll r p l) = [] /\ passesBegun (drawAll r p l) = [].
Proof.
  unfold drawAll. induction l as [|m l [IH1 IH2]]; [split; reflexivity|].
  cbn [flat_map]. rewrite copies_app, passesBegun_app, IH1, IH2.
  destruct (Mesh_render_quiet r m p) as [-> ->]. split; reflexivity.
Qed.

Lemma refreshStep_quiet s :
  copies (refreshStep s) = [] /\ passesBegun (refreshStep s) = [].
Proof.
  unfold refreshStep. induction (concat (subStacks s)); simpl; auto.
Qed.

Lemma pingPongStep_cons r n p planes :
  pingPongStep r n (p :: planes)
  = [BeginRenderPass n] ++ Mesh_render r p n
    ++ [PassEnd n; CopyTextureToTexture (renderTexture p)]
    ++ pingPongStep r (S n) planes.
Proof. reflexivity. Qed.

Lemma shaderPassStep_cons r n p passes :
  shaderPassStep r n (p :: passes)
  = [CopyTextureToTexture (renderTexture p); BeginRenderPass n]
    ++ Mesh_render r p n ++ [PassEnd n] ++ shaderPassStep r (S n) passes.
Proof. reflexivity. Qed.

Lemma pingPongStep_counts r n planes :
  copies (pingPongStep r n planes) = map renderTexture planes
  /\ passesBegun (pingPongStep r n planes) = seq n (length planes).
Proof.
  revert n; induction planes as [|p planes IH]; intros n; [split; reflexivity|].
  destruct (IH (S n)) as [IH1 IH2].
  destruct (Mesh_render_quiet r p n) as [Hc Hp].
  rewrite pingPongStep_cons, !copies_app, !passesBegun_app, Hc, Hp, IH1, IH2.
  split; reflexivity.
Qed.

Lemma shaderPassStep_counts r n passes :
  copies (shaderPassStep r n passes) = map renderTexture passes
  /\ passesBegun (shaderPassStep r n passes) = seq n (length passes).
Proof.
  revert n; induction passes as [|p passes IH]; intros n; [split; reflexivity|].
  destruct (IH (S n)) as [IH1 IH2].
  destruct (Mesh_render_quiet r p n) as [Hc Hp].
  rewrite shaderPassStep_cons, !copies_app, !passesBegun_app, Hc, Hp, IH1, IH2.
  split; reflexivity.
Qed.

Lemma mainStep_counts r p :
  copies (mainStep r p) = [] /\ passesBegun (mainStep r p) = [p].
Proof.
  unfold mainStep.
  change (BeginRenderPass p :: ?l) with ([BeginRenderPass p] ++ l).
  rewrite !copies_app, !passesBegun_app.
  destruct (drawAll_quiet r p (opaque (unprojected (stacks r)))) as [-> ->].
  destruct (drawAll_quiet r p (transparentStack (unprojected (stacks r)))) as [-> ->].
  destruct (drawAll_quiet r p (opaque (projected (stacks r)))) as [-> ->].
  destruct (drawAll_quiet r p (transparentStack (projected (stacks r)))) as [-> ->].
  destruct (cameraBindGroup r); split; reflexivity.
Qed.

(** X9.  A frame of a ready renderer copies the output texture once per
    ping-pong plane and once per shader pass, in stack order, ping-pong
    planes first, and begins one pass per ping-pong plane, one for the
    meshes and one per shader pass, numbered in that order. *)
Theorem frame_copies_and_passes r :
  ready r = true ->
  copies (frame r)
  = map renderTexture (pingPongPlanes (stacks r))
    ++ map renderTexture (shaderPasses (stacks r))
  /\ passesBegun (frame r)
     = seq 0 (length (pingPongPlanes (stacks r)) + 1
              + length (shaderPasses (stacks r))).
Proof.
  intros Hr. rewrite frame_ready by exact Hr. unfold frameTrace.
  rewrite !copies_app, !passesBegun_app.
  destruct (refreshStep_quiet (stacks r)) as [-> ->].
  destruct (pingPongStep_counts r 0 (pingPongPlanes (stacks r))) as [-> ->].
  destruct (mainStep_counts r (0 + length (pingPongPlanes (stacks r)))) as [-> ->].
  destruct (shaderPassStep_counts r (0 + length (pingPongPlanes (stacks r)) + 1)
              (shaderPasses (stacks r))) as [-> ->].
  cbn [copies passesBegun flat_map app Nat.add]. split.
  - now rewrite app_nil_r.
  - rewrite !seq_app. cbn [seq Nat.add app].
    rewrite Nat.add_1_r, app_nil_r, <- app_assoc. reflexivity.
Qed.

Lemma frame_copies_and_passes_witness :
  copies (frame MoreExamples.composedRenderer)
  = [renderTexture (Examples.sampleMesh 11 5 false 0 0 5 false);
     renderTexture Examples.passA; renderTexture Examples.passC]
  /\ passesBegun (frame MoreExamples.composedRenderer) = [0; 1; 2; 3].
Proof.
  apply (@frame_copies_and_passes MoreExamples.composedRenderer). reflexivity.
Defined.

Lemma in_drawAll r p l c :
  In c (drawAll r p l) -> exists mesh, In mesh l /\ In c (Mesh_render r mesh p).
Proof. unfold drawAll. rewrite in_flat_map. auto. Qed.

Lemma in_pingPongStep r n planes c :
  In c (pingPongStep r n planes) ->
  (exists p, c = BeginRenderPass p \/ c = PassEnd p \/ c = CopyTextureToTexture p)
  \/ exists mesh p, In mesh planes /\ In c (Mesh_render r mesh p).
Proof.
  revert n; induction planes as [|m planes IH]; intros n H; [destruct H|].
  rewrite pingPongStep_cons in H. rewrite !in_app_iff in H.
  destruct H as [[<-|[]]|[H|[[<-|[<-|[]]]|H]]]; eauto 6.
  - right. exists m, n. split; [now left|exact H].
  - destruct (IH _ H) as [?|(mesh & p & ? & ?)]; [now left|].
    right. exists mesh, p. split; [now right|assumption].
Qed.

Lemma in_shaderPassStep r n passes c :
  In c (shaderPassStep r n passes) ->
  (exists p, c = BeginRenderPass p \/ c = PassEnd p \/ c = CopyTextureToTexture p)
  \/ exists mesh p, In mesh passes /\ In c (Mesh_render r mesh p).
Proof.
  revert n; induction passes as [|m passes IH]; intros n H; [destruct H|].
  rewrite shaderPassStep_cons in H. rewrite !in_app_iff in H.
  destruct H as [[<-|[<-|[]]]|[H|[[<-|[]]|H]]]; eauto 6.
  - right. exists m, n. split; [now left|exact H].
  - destruct (IH _ H) as [?|(mesh & p & ? & ?)]; [now left|].
    right. exists mesh, p. split; [now right|assumption].
Qed.

Lemma in_subStacks s mesh :
  In mesh (concat (subStacks s))
  <-> In mesh (opaque (unprojected s)) \/ In mesh (transparentStack (unprojected s))
      \/ In mesh (pingPongPlanes s) \/ In mesh (shaderPasses s)
      \/ In mesh (opaque (projected s)) \/ In mesh (transparentStack (projected s)).
Proof.
  unfold subStacks. cbn [concat]. rewrite !in_app_iff. simpl. tauto.
Qed.

(** Where the commands of the scene traversal come from: the traversal
    itself (hooks, passes, copies, the camera bind group), or the draw of a
    member of the stacks. *)
Lemma in_frameTrace r n c :
  In c (frameTrace r n) ->
  (exists u, c = OnBeforeRenderPass u)
  \/ c = SetRenderPassCurrentTexture
  \/ (exists p, c = BeginRenderPass p \/ c = PassEnd p \/ c = CopyTextureToTexture p)
  \/ (exists p cbg, cameraBindGroup r = Some cbg
                    /\ c = SetBindGroup p (fst cbg) (snd cbg))
  \/ exists mesh p, In mesh (concat (subStacks (stacks r)))
                    /\ In c (Mesh_render r mesh p).
Proof.
  unfold frameTrace, mainStep. intros H.
  assert (Hmesh : forall mesh p,
            In mesh (opaque (unprojected (stacks r)))
            \/ In mesh (transparentStack (unprojected (stacks r)))
            \/ In mesh (pingPongPlanes (stacks r)) \/ In mesh (shaderPasses (stacks r))
            \/ In mesh (opaque (projected (stacks r)))
            \/ In mesh (transparentStack (projected (stacks r))) ->
            In c (Mesh_render r mesh p) ->
            exists mesh p, In mesh (concat (subStacks (stacks r)))
                           /\ In c (Mesh_render r mesh p)).
  { intros mesh p Hm Hc. exists mesh, p. split; [now apply in_subStacks|exact Hc]. }
  rewrite !in_app_iff in H.
  destruct H as [H|[[<-|[]]|[H|[H|H]]]].
  - left. unfold refreshStep in H. apply in_map_iff in H as (m & <- & _). eauto.
  - auto.
  - apply in_pingPongStep in H as [H|(mesh & p & Hm & Hc)]; [auto|].
    do 4 right. eapply (Hmesh mesh); [|exact Hc]; tauto.
  - destruct H as [<-|H]; [do 2 right; left; eauto|].
    rewrite !in_app_iff in H.
    destruct H as [H|[H|[H|[H|[H|H]]]]].
    + apply in_drawAll in H as (mesh & Hm & Hc). do 4 right. eapply (Hmesh mesh); [|exact Hc]; tauto.
    + apply in_drawAll in H as (mesh & Hm & Hc). do 4 right. eapply (Hmesh mesh); [|exact Hc]; tauto.
    + destruct (cameraBindGroup r) as [cbg|]; [|destruct H].
      destruct H as [<-|[]]. do 3 right. left. eauto.
    + apply in_drawAll in H as (mesh & Hm & Hc). do 4 right. eapply (Hmesh mesh); [|exact Hc]; tauto.
    + apply in_drawAll in H as (mesh & Hm & Hc). do 4 right. eapply (Hmesh mesh); [|exact Hc]; tauto.
    + destruct H as [<-|[]]. do 2 right. left. eauto.
  - apply in_shaderPassStep in H as [H|(mesh & p & Hm & Hc)]; [auto|].
    do 4 right. eapply (Hmesh mesh); [|exact Hc]; tauto.
Qed.

(** X10.  A frame draws nothing but visible members of the stacks whose
    pipeline is compiled: every geometry draw and every pipeline switch of
    a frame belongs to such a member, and the renderer is ready. *)
Theorem frame_draws_only_ready_members r :
  (forall u p,
     In (GeometryRender u p) (frame r) ->
     ready r = true
     /\ exists mesh, In mesh (concat (subStacks (stacks r)))
          /\ uuid mesh = u /\ visible mesh = true
          /\ Material_ready (material mesh) = true)
  /\ (forall p entry,
        In (SetCurrentPipeline p entry) (frame r) ->
        ready r = true
        /\ exists mesh, In mesh (concat (subStacks (stacks r)))
             /\ pe_index (pipelineEntry (material mesh)) = entry
             /\ visible mesh = true
             /\ Material_ready (material mesh) = true).
Proof.
  assert (Hframe : forall c, In c (frame r) ->
            ready r = true
            /\ (c = OnBeforeRenderCallback \/ c = OnBeforeRenderScene
                \/ c = OnAfterRenderCallbackRenderer \/ c = OnAfterRenderScene
                \/ In c (frameTrace r 0))).
  { intros c H. destruct (ready r) eqn:Hr.
    - split; [reflexivity|]. rewrite frame_ready in H by exact Hr.
      rewrite !in_app_iff in H. simpl in H. intuition.
    - unfold frame, GPURenderer_render in H. rewrite Hr in H. destruct H. }
  split.
  - intros u p H. destruct (Hframe _ H) as [Hr Hc]. split; [exact Hr|].
    destruct Hc as [Hc|[Hc|[Hc|[Hc|Hc]]]]; try discriminate.
    apply in_frameTrace in Hc.
    destruct Hc as [(? & Hc)|[Hc|[(? & [Hc|[Hc|Hc]])|[(? & ? & _ & Hc)
                   |(mesh & q & Hm & Hc)]]]]; try discriminate.
    apply Mesh_render_commands in Hc.
    destruct Hc as [Hc|(_ & Hv & [Hc|(Hmr & [Hc|[Hc|[Hc|(bg & _ & Hc)]]])])];
      try discriminate.
    injection Hc as E1 E2. subst. eauto 6.
  - intros p entry H. destruct (Hframe _ H) as [Hr Hc]. split; [exact Hr|].
    destruct Hc as [Hc|[Hc|[Hc|[Hc|Hc]]]]; try discriminate.
    apply in_frameTrace in Hc.
    destruct Hc as [(? & Hc)|[Hc|[(? & [Hc|[Hc|Hc]])|[(? & ? & _ & Hc)
                   |(mesh & q & Hm & Hc)]]]]; try discriminate.
    apply Mesh_render_commands in Hc.
    destruct Hc as [Hc|(_ & Hv & [Hc|(Hmr & [Hc|[Hc|[Hc|(bg & _ & Hc)]]])])];
      try discriminate.
    injection Hc as E1 E2. subst. eauto 6.
Qed.

Lemma frame_draws_only_ready_members_witness :
  ready (pipelineCompiled (addToScene Examples.emptyRenderer Examples.depth5)
           (uuid Examples.depth5) 77) = true.
Proof.
  destruct (proj1 (@frame_draws_only_ready_members
                     (pipelineCompiled
                        (addToScene Examples.emptyRenderer Examples.depth5)
                        (uuid Examples.depth5) 77))
              (uuid Examples.depth5) 0) as [H _].
  - vm_compute. auto 20.
  - exact H.
Defined.

(** X11.  The callbacks of [GPURenderer.render] enclose the scene: the
    before-render callback, then the before-scene queue, then the commands
    of the scene, none of which is a renderer callback, then the
    after-render callback and the after-scene queue. *)
Theorem callbacks_enclose_scene r :
  ready r = true ->
  exists scene,
    frame r = OnBeforeRenderCallback :: OnBeforeRenderScene :: scene
              ++ [OnAfterRenderCallbackRenderer; OnAfterRenderScene]
    /\ snd (render r {| nextPass := 0; commands := [] |})
       = {| nextPass := length (pingPongPlanes (stacks r)) + 1
                        + length (shaderPasses (stacks r));
            commands := scene |}
    /\ forall c, In c scene ->
         c <> OnBeforeRenderCallback /\ c <> OnBeforeRenderScene
         /\ c <> OnAfterRenderCallbackRenderer /\ c <> OnAfterRenderScene.
Proof.
  intros Hr. exists (frameTrace r 0). split; [|split].
  - rewrite frame_ready by exact Hr. reflexivity.
  - rewrite render_trace. reflexivity.
  - intros c Hc. apply in_frameTrace in Hc.
    destruct Hc as [(? & ->)|[->|[(? & [->|[->| ->]])|[(? & ? & _ & ->)
                   |(mesh & q & Hm & Hc)]]]]; try (repeat split; discriminate).
    apply Mesh_render_commands in Hc.
    destruct Hc as [->|(_ & Hv & [->|(Hmr & [->|[->|[->|(bg & _ & ->)]]])])];
      repeat split; discriminate.
Qed.

Lemma callbacks_enclose_scene_witness :
  exists scene,
    frame MoreExamples.composedRenderer
    = OnBeforeRenderCallback :: OnBeforeRenderScene :: scene
      ++ [OnAfterRenderCallbackRenderer; OnAfterRenderScene].
Proof.
  destruct (@callbacks_enclose_scene MoreExamples.composedRenderer)
    as (scene & H & _); [reflexivity|].
  exists scene. exact H.
Defined.

(** [renderSingleMesh] of the camera renderer: the state of the encoder
    afterwards. *)
Lemma renderSingleMesh_log r camera mesh e :
  snd (renderSingleMesh r camera mesh e)
  = {| nextPass := S (nextPass e);
       commands :=
         commands e
         ++ BeginRenderPass (nextPass e)
            :: (if useProjection (material mesh)
                then [SetBindGroup (nextPass e) (fst camera) (snd camera)]
                else [])
            ++ Mesh_render r mesh (nextPass e) ++ [PassEnd (nextPass e)] |}.
Proof.
  unfold renderSingleMesh, bind, beginRenderPass, emit, ret.
  destruct (useProjection (material mesh)); cbn [nextPass commands snd app];
    rewrite <- ?app_assoc; reflexivity.
Qed.

Lemma renderSingleMesh_each r camera objects : forall e,
  exists log,
    snd (forEach objects (renderSingleMesh r camera) e)
    = {| nextPass := nextPass e + length objects; commands := commands e ++ log |}
    /\ (forall rest, bracketed None (log ++ rest) = bracketed None rest)
    /\ passesBegun log = seq (nextPass e) (length objects)
    /\ copies log = []
    /\ (forall c, In c log ->
          exists i mesh, nth_error objects i = Some mesh
            /\ (c = BeginRenderPass (nextPass e + i)
                \/ c = PassEnd (nextPass e + i)
                \/ (exists camera_index camera_handle,
                      c = SetBindGroup (nextPass e + i) camera_index camera_handle
                      /\ useProjection (material mesh) = true
                      /\ camera = (camera_index, camera_handle))
                \/ In c (Mesh_render r mesh (nextPass e + i)))).
Proof.
  induction objects as [|mesh objects IH]; intros e.
  - exists []. cbn [forEach ret snd length app]. rewrite Nat.add_0_r, app_nil_r.
    destruct e. repeat split; try reflexivity. intros c [].
  - cbn [forEach]. unfold bind at 1.
    pose proof (renderSingleMesh_log r camera mesh e) as Hone.
    destruct (renderSingleMesh r camera mesh e) as [[] e1]. cbn [snd] in Hone.
    destruct (IH e1) as (log & Hlog & Hbr & Hpass & Hcop & Hin).
    subst e1. cbn [nextPass commands] in *.
    set (own := BeginRenderPass (nextPass e)
            :: (if useProjection (material mesh)
                then [SetBindGroup (nextPass e) (fst camera) (snd camera)]
                else [])
            ++ Mesh_render r mesh (nextPass e) ++ [PassEnd (nextPass e)]) in *.
    exists (own ++ log). split; [|split; [|split; [|split]]].
    + rewrite Hlog. cbn [length]. f_equal; [lia|]. now rewrite <- app_assoc.
    + intros rest. rewrite <- app_assoc. unfold own. cbn [app bracketed].
      destruct (useProjection (material mesh)); cbn [app bracketed];
        rewrite ?Nat.eqb_refl; cbn [andb]; rewrite <- !app_assoc;
        rewrite bracketed_Mesh_render; cbn [app bracketed];
        rewrite Nat.eqb_refl; cbn [andb]; apply Hbr.
    + rewrite passesBegun_app, Hpass. unfold own.
      change (BeginRenderPass (nextPass e) :: ?l) with ([BeginRenderPass (nextPass e)] ++ l).
      rewrite !passesBegun_app.
      rewrite (proj2 (Mesh_render_quiet r mesh (nextPass e))).
      destruct (useProjection (material mesh)); reflexivity.
    + rewrite copies_app, Hcop. unfold own.
      change (BeginRenderPass (nextPass e) :: ?l) with ([BeginRenderPass (nextPass e)] ++ l).
      rewrite !copies_app.
      rewrite (proj1 (Mesh_render_quiet r mesh (nextPass e))).
      destruct (useProjection (material mesh)); reflexivity.
    + intros c Hc. apply in_app_or in Hc. destruct Hc as [Hc|Hc].
      * exists 0, mesh. rewrite Nat.add_0_r. split; [reflexivity|].
        unfold own in Hc. destruct Hc as [<-|Hc]; [now left|].
        apply in_app_or in Hc. destruct Hc as [Hc|Hc].
        { destruct (useProjection (material mesh)) eqn:E; [|destruct Hc].
          destruct Hc as [<-|[]]. right; right; left.
          exists (fst camera), (snd camera). now destruct camera. }
        apply in_app_or in Hc. destruct Hc as [Hc|[<-|[]]].
        { now right; right; right. }
        now right; left.
      * destruct (Hin c Hc) as (i & m & Hnth & H).
        exists (S i), m. split; [exact Hnth|].
        replace (nextPass e + S i) with (S (nextPass e) + i) by lia. exact H.
Qed.

(** X12.  On a renderer with a device [renderOnce] gives every object a
    render pass of its own, in the order of the array: the log is well
    bracketed, it begins as many passes as there are objects and copies no
    texture, and a geometry is drawn in a pass only for the object at that
    position, when it is visible, its pipeline compiled and the renderer
    ready; when the renderer is not ready for another reason than the
    device, the passes are still begun and ended.  Without a device
    [renderOnce] throws. *)
Theorem renderOnce_one_pass_per_object r camera objects :
  renderOnce None r camera objects = None
  /\ forall device,
       exists log,
         renderOnce (Some device) r camera objects = Some log
         /\ bracketed None log = true
         /\ passesBegun log = seq 0 (length objects)
         /\ copies log = []
         /\ (forall u p, In (GeometryRender u p) log ->
               exists mesh, nth_error objects p = Some mesh /\ uuid mesh = u
                 /\ ready r = true /\ visible mesh = true
                 /\ Material_ready (material mesh) = true).
Proof.
  split; [reflexivity|]. intros device. unfold renderOnce.
  destruct (renderSingleMesh_each r camera objects {| nextPass := 0; commands := [] |})
    as (log & Hlog & Hbr & Hpass & Hcop & Hin).
  rewrite Hlog. cbn [commands nextPass app Nat.add] in *.
  exists log. split; [reflexivity|].
  split; [|split; [exact Hpass|split; [exact Hcop|]]].
  - rewrite <- (app_nil_r log). now rewrite Hbr.
  - intros u p Hc. destruct (Hin _ Hc) as (i & mesh & Hnth & H).
    destruct H as [H|[H|[(ci & ch & H & _)|H]]]; try discriminate.
    apply Mesh_render_commands in H.
    destruct H as [H|(Hr & Hv & [H|(Hm & [H|[H|[H|(bg & _ & H)]]])])];
      try discriminate.
    injection H as -> ->. exists mesh. auto.
Qed.

End FrameOpsFacts.

(** ** Pipeline entries: slots, stage heads, descriptor *)

Module PipelineOpsFacts.
Import Pipeline PipelineFacts PipelineOps.
Local Open Scope string_scope.

(** *** Patching again *)

(** A head that has the struct fragment and the group fragment of a group
    binding is left alone. *)
Lemma patchHead_fixed head gb :
  (forall sf, truthy (gb_wgslStructFragment gb) = Some sf -> includes sf head = true) ->
  includes (gb_wgslGroupFragment gb) head = true ->
  patchHead head gb = head.
Proof.
  intros Hs Hg. unfold patchHead, patchGroup, patchStruct.
  destruct (truthy (gb_wgslStructFragment gb)) as [sf|].
  - rewrite (Hs sf eq_refl). now rewrite Hg.
  - now rewrite Hg.
Qed.

Lemma structFragments_In gb gbs sf :
  In gb gbs -> truthy (gb_wgslStructFragment gb) = Some sf ->
  In sf (structFragments gbs).
Proof.
  intros Hin Ht. unfold structFragments. apply in_flat_map.
  exists gb. split; [exact Hin|]. rewrite Ht. now left.
Qed.

Lemma patchHead_fold_fixed gbs head :
  (forall sf, In sf (structFragments gbs) -> includes sf head = true) ->
  (forall gb, In gb gbs -> includes (gb_wgslGroupFragment gb) head = true) ->
  fold_left patchHead gbs head = head.
Proof.
  intros Hs Hg.
  assert (H : forall l, incl l gbs -> fold_left patchHead l head = head).
  { induction l as [|gb l IH]; intros Hl; [reflexivity|].
    cbn [fold_left]. rewrite patchHead_fixed.
    - apply IH. intros x Hx. apply Hl. now right.
    - intros sf Ht. apply Hs. eapply structFragments_In; [|exact Ht].
      apply Hl. now left.
    - apply Hg, Hl. now left. }
  apply H, incl_refl.
Qed.

(** X13.  Patching is idempotent: running the group bindings over heads they
    have already patched adds nothing, in any of the three heads. *)
Theorem patching_idempotent gbs h :
  fold_left patchHeads gbs (fold_left patchHeads gbs h) = fold_left patchHeads gbs h.
Proof.
  rewrite (patchHeads_fold gbs (fold_left patchHeads gbs h)).
  rewrite (patchHeads_fold gbs h). cbn [vertexHead fragmentHead fullHead].
  f_equal.
  - destruct (patched_fold (filter (visibleIn VERTEX) gbs) (vertexHead h))
      as (? & ? & _ & _ & _ & _ & _ & _ & _ & Hs & Hg).
    now apply patchHead_fold_fixed.
  - destruct (patched_fold (filter (visibleIn FRAGMENT) gbs) (fragmentHead h))
      as (? & ? & _ & _ & _ & _ & _ & _ & _ & Hs & Hg).
    now apply patchHead_fold_fixed.
  - destruct (patched_fold gbs (fullHead h))
      as (? & ? & _ & _ & _ & _ & _ & _ & _ & Hs & Hg).
    now apply patchHead_fold_fixed.
Qed.

(** *** Where the group bindings come from *)

Lemma pushFragments_origin (P : GroupBinding -> Prop) bindGroup bindingIndex binding st :
  Forall P (snd st) ->
  (forall gb, groupIndex gb = index bindGroup ->
              gb_visibility gb = visibility binding ->
              gb_wgslStructFragment gb = wgslStructFragment binding ->
              In (gb_wgslGroupFragment gb) (wgslGroupFragment binding) -> P gb) ->
  Forall P (snd (pushFragments bindGroup bindingIndex binding st)).
Proof.
  unfold pushFragments. intros Hacc HP.
  assert (Hsrc : forall gf, In gf (indexed (wgslGroupFragment binding)) ->
            In (snd gf) (wgslGroupFragment binding)).
  { intros [i f] H. unfold indexed in H. now apply in_combine_r in H. }
  revert Hsrc. generalize (indexed (wgslGroupFragment binding)) as l.
  intros l; revert st Hacc.
  induction l as [|gf l IH]; intros st Hacc Hsrc; [exact Hacc|].
  cbn [fold_left]. apply IH.
  - cbn [snd]. apply Forall_app. split; [exact Hacc|].
    constructor; [|constructor]. apply HP; try reflexivity.
    cbn [gb_wgslGroupFragment]. apply Hsrc. now left.
  - intros gf' H. apply Hsrc. now right.
Qed.

Lemma pushBindings_origin (P : GroupBinding -> Prop) acc bindGroup :
  Forall P acc ->
  (forall gb binding, In binding (bindings bindGroup) ->
              groupIndex gb = index bindGroup ->
              gb_visibility gb = visibility binding ->
              gb_wgslStructFragment gb = wgslStructFragment binding ->
              In (gb_wgslGroupFragment gb) (wgslGroupFragment binding) -> P gb) ->
  Forall P (pushBindings acc bindGroup).
Proof.
  unfold pushBindings. intros Hacc HP.
  assert (H : forall l st,
            (forall ib, In ib l -> In (snd ib) (bindings bindGroup)) ->
            Forall P (snd st) ->
            Forall P (snd (fold_left
                        (fun st (ib : nat * Binding) =>
                           pushFragments bindGroup (fst ib) (snd ib) st) l st))).
  { induction l as [|ib l IH]; intros st Hl Hst; [exact Hst|].
    cbn [fold_left]. apply IH.
    - intros; apply Hl; now right.
    - apply pushFragments_origin; [exact Hst|].
      intros gb. apply HP. apply Hl. now left. }
  apply H; [|exact Hacc].
  intros [i b] Hib. unfold indexed in Hib. now apply in_combine_r in Hib.
Qed.

(** Every group binding carries the group index of a bind group of the
    array and the visibility, struct fragment and one group fragment of a
    binding of that group. *)
Lemma groupsBindings_origin bindGroups gb :
  In gb (groupsBindings bindGroups) ->
  exists bindGroup binding,
    In bindGroup bindGroups /\ In binding (bindings bindGroup)
    /\ groupIndex gb = index bindGroup
    /\ gb_visibility gb = visibility binding
    /\ gb_wgslStructFragment gb = wgslStructFragment binding
    /\ In (gb_wgslGroupFragment gb) (wgslGroupFragment binding).
Proof.
  unfold groupsBindings.
  set (P := fun gb => exists bindGroup binding,
    In bindGroup bindGroups /\ In binding (bindings bindGroup)
    /\ groupIndex gb = index bindGroup
    /\ gb_visibility gb = visibility binding
    /\ gb_wgslStructFragment gb = wgslStructFragment binding
    /\ In (gb_wgslGroupFragment gb) (wgslGroupFragment binding)).
  assert (H : forall l acc, incl l bindGroups -> Forall P acc ->
            Forall P (fold_left pushBindings l acc)).
  { induction l as [|bg l IH]; intros acc Hl Hacc; [exact Hacc|].
    cbn [fold_left]. apply IH; [intros x Hx; apply Hl; now right|].
    apply pushBindings_origin; [exact Hacc|].
    intros g b Hb H1 H2 H3 H4. exists bg, b. repeat split; auto.
    apply Hl. now left. }
  intros Hin. specialize (H bindGroups [] (incl_refl _) (Forall_nil _)).
  rewrite Forall_forall in H. exact (H gb Hin).
Qed.

(** X14.  A binding whose visibility is [VERTEX | FRAGMENT] is declared in the
    full shader only: when every binding has that visibility, the vertex
    head is the attributes and the vertex chunks, and the fragment head
    the fragment chunks, with no bind group declaration in either. *)
Theorem vertex_or_fragment_visibility_undeclared
  localeCompare shaderChunks projectedShaderChunks o attributes bindGroups :
  (forall bindGroup binding,
     In bindGroup bindGroups -> In binding (bindings bindGroup) ->
     visibility binding = N.lor VERTEX FRAGMENT) ->
  let s := patchShaders localeCompare shaderChunks projectedShaderChunks o
             attributes bindGroups in
  let h0 := chunkHeads shaderChunks projectedShaderChunks o in
  head (vertex s) = attributes +++ nl +++ vertexHead h0
  /\ head (fragment s) = fragmentHead h0
  /\ Patched (fullHead h0) (groupsBindings bindGroups)
             (fullHead (patchedHeads shaderChunks projectedShaderChunks o bindGroups)).
Proof.
  intros Hv s h0.
  assert (Hnone : forall stage, stage = VERTEX \/ stage = FRAGMENT ->
            filter (visibleIn stage) (groupsBindings bindGroups) = []).
  { intros stage Hstage.
    assert (H : forall l : list GroupBinding,
              (forall gb, In gb l -> gb_visibility gb = N.lor VERTEX FRAGMENT) ->
              filter (visibleIn stage) l = []).
    { induction l as [|gb l IH]; intros Hl; [reflexivity|].
      cbn [filter]. unfold visibleIn at 1. rewrite (Hl gb) by now left.
      destruct Hstage as [-> | ->]; cbn; apply IH; intros; apply Hl; now right. }
    apply H. intros gb Hgb.
    destruct (groupsBindings_origin _ _ Hgb) as (bg & b & Hbg & Hb & _ & E & _).
    rewrite E. now apply (Hv bg b). }
  unfold s, patchShaders, patchedHeads. fold h0.
  rewrite patchHeads_fold. cbn [head vertex fragment vertexHead fragmentHead fullHead].
  rewrite !Hnone by auto. cbn [fold_left].
  repeat split. apply patched_fold.
Qed.

Lemma vertex_or_fragment_visibility_undeclared_witness :
  head (fragment (patchShaders Examples.codePointCompare
                    Examples.noChunks Examples.noChunks
                    Examples.sharedSource "struct A {};"
                    [ {| index := 0;
                         bindings :=
                           [ {| visibility := 3;
                                wgslStructFragment := None;
                                wgslGroupFragment := ["var tex: texture_2d<f32>;"] |} ]
                      |} ]))
  = EmptyString.
Proof.
  apply (@vertex_or_fragment_visibility_undeclared Examples.codePointCompare
           Examples.noChunks Examples.noChunks Examples.sharedSource "struct A {};"
           [ {| index := 0;
                bindings :=
                  [ {| visibility := 3;
                       wgslStructFragment := None;
                       wgslGroupFragment := ["var tex: texture_2d<f32>;"] |} ] |} ]).
  intros bg b [<-|[]] [<-|[]]. reflexivity.
Defined.

(** *** Slots *)

Lemma map_fst_indexed (A : Type) (l : list A) :
  map fst (indexed l) = seq 0 (length l).
Proof.
  unfold indexed. generalize 0 as s.
  induction l as [|x l IH]; intros s; [reflexivity|]. simpl. now rewrite IH.
Qed.

(** X15.  When the bind groups have pairwise distinct indices, no two group
    bindings share a [@group]/[@binding] pair. *)
Theorem binding_slots_distinct bindGroups :
  NoDup (map index bindGroups) ->
  NoDup (map bindingSlot (groupsBindings bindGroups)).
Proof.
  intros Hnd.
  assert (E : map bindingSlot (groupsBindings bindGroups)
              = map fst (specSlots bindGroups)).
  { rewrite <- groupsBindings_slots, map_map. reflexivity. }
  rewrite E. clear E.
  induction bindGroups as [|bg bgs IH]; [constructor|].
  inversion Hnd as [|? ? Hnin Hnd']; subst.
  unfold specSlots. cbn [flat_map]. fold (specSlots bgs).
  rewrite map_app. apply NoDup_app_intro; [|auto|].
  - rewrite map_map. cbn [fst].
    rewrite <- (map_map fst (fun k => (index bg, k))), map_fst_indexed.
    apply Injective_map_NoDup; [|apply seq_NoDup].
    intros x y H. now injection H.
  - intros [g k] H1 H2.
    apply in_map_iff in H1 as (s1 & E1 & H1).
    apply in_map_iff in H1 as (pf & <- & _). cbn [fst] in E1.
    apply in_map_iff in H2 as (s2 & E2 & H2).
    apply specSlots_groups in H2. rewrite E2 in H2. cbn [fst] in H2.
    injection E1 as E1 _. subst g. contradiction.
Qed.

Lemma binding_slots_distinct_witness :
  NoDup (map bindingSlot (groupsBindings Examples.sampleBindGroups)).
Proof.
  apply (@binding_slots_distinct Examples.sampleBindGroups).
  repeat constructor; simpl; intuition discriminate.
Defined.

End PipelineOpsFacts.

(** ** The pipeline descriptor *)

Module DescriptorFacts.
Import Pipeline PipelineOps.
Local Open Scope Z_scope.

Lemma map_seq_offset (a : Z) (n s m : nat) :
  map (fun k => a + Z.of_nat k) (seq (s + n) m)
  = map (fun k => a + Z.of_nat n + Z.of_nat k) (seq s m).
Proof.
  revert s. induction m as [|m IH]; intros s; [reflexivity|].
  cbn [seq map]. f_equal; [lia|]. exact (IH (S s)).
Qed.

Lemma mapAttributes_locations c l :
  fst (mapAttributes c l) = c + Z.of_nat (length l)
  /\ map shaderLocation (snd (mapAttributes c l))
     = map (fun k => c + 1 + Z.of_nat k) (seq 0 (length l))
  /\ map offset (snd (mapAttributes c l)) = map bufferOffset l.
Proof.
  unfold mapAttributes.
  assert (H : forall l c acc,
    let r := fold_left
      (fun (st : Z * list AttributeLayout) attribute =>
         (fst st + 1,
          (snd st ++ [{| shaderLocation := fst st + 1;
                         offset := bufferOffset attribute;
                         format := bufferFormat attribute |}])%list))
      l (c, acc) in
    fst r = c + Z.of_nat (length l)
    /\ map shaderLocation (snd r)
       = (map shaderLocation acc
          ++ map (fun k => c + 1 + Z.of_nat k) (seq 0 (length l)))%list
    /\ map offset (snd r) = (map offset acc ++ map bufferOffset l)%list).
  { clear. induction l as [|a l IH]; intros c acc; cbn zeta.
    - cbn [fold_left fst snd length seq map]. rewrite !app_nil_r. split; [lia|auto].
    - cbn [fold_left fst snd]. destruct (IH (c + 1)
        (acc ++ [{| shaderLocation := c + 1; offset := bufferOffset a;
                    format := bufferFormat a |}])%list) as (H1 & H2 & H3).
      cbn zeta in H1, H2, H3. rewrite H1, H2, H3. split; [|split].
      + cbn [length]. lia.
      + rewrite map_app, <- app_assoc. cbn [map app shaderLocation length seq].
        f_equal. f_equal; [lia|].
        rewrite <- seq_shift, map_map. apply map_ext. intros k. lia.
      + rewrite map_app, <- app_assoc. reflexivity. }
  destruct (H l c []) as (H1 & H2 & H3). cbn zeta in *. auto.
Qed.

Lemma vertexBufferLayouts_locations vertexBuffers :
  shaderLocations (vertexBufferLayouts vertexBuffers)
  = map Z.of_nat (seq 0 (length (flat_map attributes vertexBuffers)))
  /\ map layoutArrayStride (vertexBufferLayouts vertexBuffers)
     = map (fun vb => (arrayStride vb * 4)%nat) vertexBuffers
  /\ map (fun layout => length (layoutAttributes layout))
         (vertexBufferLayouts vertexBuffers)
     = map (fun vb => length (attributes vb)) vertexBuffers.
Proof.
  unfold vertexBufferLayouts.
  assert (H : forall l c acc,
    let r := fold_left
      (fun (st : Z * list BufferLayout) vertexBuffer =>
         let (vertexLocationIndex, layouts) :=
           mapAttributes (fst st) (attributes vertexBuffer) in
         (vertexLocationIndex,
          (snd st ++ [{| layoutStepMode := stepMode vertexBuffer;
                         layoutArrayStride := (arrayStride vertexBuffer * 4)%nat;
                         layoutAttributes := layouts |}])%list))
      l (c, acc) in
    shaderLocations (snd r)
    = (shaderLocations acc
       ++ map (fun k => c + 1 + Z.of_nat k)
              (seq 0 (length (flat_map attributes l))))%list
    /\ map layoutArrayStride (snd r)
       = (map layoutArrayStride acc
          ++ map (fun vb => (arrayStride vb * 4)%nat) l)%list
    /\ map (fun layout => length (layoutAttributes layout)) (snd r)
       = (map (fun layout => length (layoutAttributes layout)) acc
          ++ map (fun vb => length (attributes vb)) l)%list).
  { clear. induction l as [|vb l IH]; intros c acc; cbn zeta.
    - cbn [fold_left snd flat_map length seq map]. now rewrite !app_nil_r.
    - cbn [fold_left fst snd].
      destruct (mapAttributes_locations c (attributes vb)) as (H1 & H2 & _).
      destruct (mapAttributes c (attributes vb)) as [c' layouts] eqn:E.
      cbn [fst snd] in H1, H2.
      destruct (IH c' (acc ++ [{| layoutStepMode := stepMode vb;
                                  layoutArrayStride := (arrayStride vb * 4)%nat;
                                  layoutAttributes := layouts |}])%list)
        as (G1 & G2 & G3).
      cbn zeta in G1, G2, G3. rewrite G1, G2, G3. split; [|split].
      + unfold shaderLocations. rewrite flat_map_app. cbn [flat_map layoutAttributes].
        rewrite app_nil_r, H2, <- app_assoc. f_equal.
        rewrite length_app, seq_app, map_app. f_equal.
        subst c'. rewrite (map_seq_offset (c + 1) (length (attributes vb))).
        apply map_ext. intros k. lia.
      + rewrite map_app, <- app_assoc. reflexivity.
      + rewrite map_app, <- app_assoc. cbn [map app layoutAttributes].
        do 2 f_equal.
        apply (f_equal (@length Z)) in H2. rewrite !length_map, length_seq in H2.
        exact H2. }
  destruct (H vertexBuffers (-1) []) as (H1 & H2 & H3). cbn zeta in *.
  rewrite H1, H2, H3. cbn [shaderLocations flat_map map app].
  split; [|auto]. apply map_ext. intros k. lia.
Qed.

(** X16.  [createPipelineDescriptor] leaves the descriptor as it was when
    one of the two shader modules is missing.  With both modules it makes
    a descriptor with these modules, whose vertex buffers have four bytes
    per stride unit and the attributes of the geometry, and whose shader
    locations count up from 0 across the vertex buffers, so that no two
    attributes share one.  The target has no blend exactly for an opaque
    entry without a blend of its own, and multisampling is left out up to
    a sample count of 1. *)
Theorem descriptor_modules_and_locations
  shaders o rendering preferredFormat vertexBuffers previous :
  let result :=
    createPipelineDescriptor shaders o rendering preferredFormat vertexBuffers
                             previous in
  (module (vertex shaders) = None \/ module (fragment shaders) = None ->
   result = previous)
  /\ (forall vm fm,
        module (vertex shaders) = Some vm -> module (fragment shaders) = Some fm ->
        exists descriptor,
          result = Some descriptor
          /\ vertexModule descriptor = vm
          /\ fragmentModule descriptor = fm
          /\ shaderLocations (buffers descriptor)
             = map Z.of_nat (seq 0 (length (flat_map attributes vertexBuffers)))
          /\ NoDup (shaderLocations (buffers descriptor))
          /\ map layoutArrayStride (buffers descriptor)
             = map (fun vb => (arrayStride vb * 4)%nat) vertexBuffers
          /\ map (fun layout => length (layoutAttributes layout))
                 (buffers descriptor)
             = map (fun vb => length (attributes vb)) vertexBuffers
          /\ (targetBlend descriptor = None
              <-> optBlend rendering = None /\ optTransparent rendering = false)
          /\ (multisampleCount descriptor = None
              <-> (optSampleCount rendering <= 1)%nat)).
Proof.
  intros result. split.
  { unfold result, createPipelineDescriptor. intros [H|H]; rewrite H;
      [|destruct (module (vertex shaders))]; reflexivity. }
  intros vm fm Hvm Hfm.
  destruct (vertexBufferLayouts_locations vertexBuffers) as (H1 & H2 & H3).
  unfold result, createPipelineDescriptor. rewrite Hvm, Hfm.
  eexists. split; [reflexivity|].
  cbn [vertexModule fragmentModule buffers].
  split; [reflexivity|]. split; [reflexivity|].
  split; [exact H1|]. split; [|split; [exact H2|split; [exact H3|split]]].
  - rewrite H1. apply Injective_map_NoDup; [|apply seq_NoDup].
    intros x y E. lia.
  - cbn [targetBlend]. destruct (optBlend rendering), (optTransparent rendering);
      split; try discriminate; try tauto; intros [? ?]; discriminate.
  - cbn [multisampleCount]. destruct (Nat.ltb_spec 1 (optSampleCount rendering));
      split; try discriminate; try reflexivity; lia.
Qed.

Lemma descriptor_modules_and_locations_witness :
  exists descriptor,
    createPipelineDescriptor MoreExamples.compiledShaders Examples.sharedSource
      MoreExamples.opaqueRendering "bgra8unorm" MoreExamples.planeBuffers None
    = Some descriptor
    /\ shaderLocations (buffers descriptor) = [0; 1; 2]%Z.
Proof.
  destruct (proj2 (@descriptor_modules_and_locations
                     MoreExamples.compiledShaders Examples.sharedSource
                     MoreExamples.opaqueRendering "bgra8unorm"
                     MoreExamples.planeBuffers None) 0%nat 1%nat eq_refl eq_refl)
    as (descriptor & H & _ & _ & Hloc & _).
  exists descriptor. split; [exact H|]. rewrite Hloc. reflexivity.
Defined.

End DescriptorFacts.

(** ** Video uploads *)

Module VideoUploadFacts.
Import BindGroups BindGroupFacts VideoUploads.

Lemma shouldUpdate_cases g i :
  (In i (externalTexturesIndex g)
   /\ shouldUpdateVideoTextureBindGroupLayout g i = (false, g))
  \/ (~ In i (externalTexturesIndex g)
      /\ exists g1, shouldUpdateVideoTextureBindGroupLayout g i = (true, g1)
         /\ externalTexturesIndex g1 = externalTexturesIndex g ++ [i]
         /\ needsPipelineFlush g1 = true
         /\ bindGroup g1 = bindGroup g /\ bindings g1 = bindings g
         /\ textures g1 = textures g /\ samplers g1 = samplers g).
Proof.
  unfold shouldUpdateVideoTextureBindGroupLayout.
  destruct (arrayIncludes (externalTexturesIndex g) i) eqn:E.
  - left. split; [now apply arrayIncludes_In|reflexivity].
  - right. split.
    + intros H. apply arrayIncludes_In in H. congruence.
    + eexists. split; [reflexivity|]. cbn. repeat split.
Qed.

(** X17.  Over any sequence of video uploads the bind group registers each
    texture index once: [externalTexturesIndex] stays free of duplicates
    and holds the indices uploaded so far, the calls that answer [true]
    are as many as the indices added, the flush flag is raised exactly
    when one of them did, and nothing else of the bind group changes. *)
Theorem external_textures_registered_once g uploads :
  NoDup (externalTexturesIndex g) ->
  let answers := fst (videoUploads g uploads) in
  let g' := snd (videoUploads g uploads) in
  NoDup (externalTexturesIndex g')
  /\ (forall i, In i (externalTexturesIndex g')
                <-> In i (externalTexturesIndex g) \/ In i uploads)
  /\ length (externalTexturesIndex g')
     = length (externalTexturesIndex g) + length (filter (fun b => b) answers)
  /\ needsPipelineFlush g' = needsPipelineFlush g || existsb (fun b => b) answers
  /\ length answers = length uploads
  /\ bindGroup g' = bindGroup g /\ bindings g' = bindings g
  /\ textures g' = textures g /\ samplers g' = samplers g.
Proof.
  revert g. induction uploads as [|i rest IH]; intros g Hnd; cbn zeta.
  - cbn [videoUploads fst snd filter existsb length].
    rewrite orb_false_r, Nat.add_0_r. repeat split; auto.
    intros [H|[]]; exact H.
  - cbn [videoUploads].
    destruct (shouldUpdate_cases g i)
      as [(Hin & ->)|(Hnot & g1 & -> & He & Hf & Hb1 & Hb2 & Hb3 & Hb4)].
    + specialize (IH g Hnd). cbn zeta in IH.
      destruct (videoUploads g rest) as [answers g2]. cbn [fst snd] in *.
      destruct IH as (I1 & I2 & I3 & I4 & I5 & I6).
      cbn [filter existsb length orb]. repeat split; try tauto; try lia.
      all: try (intros H; apply I2 in H; cbn [In]; tauto).
      all: try (intros [H|[<-|H]]; apply I2; tauto).
    + assert (Hnd1 : NoDup (externalTexturesIndex g1)).
      { rewrite He. apply PipelineFacts.NoDup_app_intro; auto.
        - constructor; [intros []|constructor].
        - intros x Hx [<-|[]]. contradiction. }
      specialize (IH g1 Hnd1). cbn zeta in IH.
      destruct (videoUploads g1 rest) as [answers g2]. cbn [fst snd] in *.
      destruct IH as (I1 & I2 & I3 & I4 & I5 & I6 & I7 & I8 & I9).
      cbn [filter existsb length orb]. rewrite He in I2, I3.
      rewrite length_app in I3. cbn [length] in I3.
      repeat split; try congruence; try lia.
      all: try (intros H; apply I2 in H; rewrite in_app_iff in H; cbn [In] in *; tauto).
      all: try (intros H; apply I2; rewrite in_app_iff; cbn [In] in *; tauto).
      all: try (rewrite I4, Hf; now rewrite orb_true_r).
Qed.

Lemma external_textures_registered_once_witness :
  NoDup (externalTexturesIndex Examples.emptyBindGroup)
  /\ externalTexturesIndex
       (snd (videoUploads Examples.emptyBindGroup [0; 0; 1; 0])) = [0; 1]
  /\ NoDup (externalTexturesIndex
              (snd (videoUploads Examples.emptyBindGroup [0; 0; 1; 0]))).
Proof.
  split; [constructor|]. split; [reflexivity|].
  apply (@external_textures_registered_once Examples.emptyBindGroup [0; 0; 1; 0]).
  constructor.
Defined.

End VideoUploadFacts.

(** ** The textures of a material *)

Module MaterialFacts.
Import Materials.

Lemma fold_addTexture_codes added : forall m,
  vertexCode (fold_left addTexture added m) = vertexCode m
  /\ fragmentCode (fold_left addTexture added m) = fragmentCode m.
Proof.
  induction added as [|t added IH]; intros m; [now split|].
  cbn [fold_left]. destruct (IH (addTexture m t)) as [-> ->]. now split.
Qed.

Lemma usedInShaders_codes m m' t :
  vertexCode m' = vertexCode m -> fragmentCode m' = fragmentCode m ->
  usedInShaders m' t = usedInShaders m t.
Proof. unfold usedInShaders. now intros -> ->. Qed.

Lemma fold_addTexture added : forall m,
  groupBindings (texturesBindGroup m)
  = flat_map bindings (groupTextures (texturesBindGroup m)) ->
  let m' := fold_left addTexture added m in
  textures m' = textures m ++ added
  /\ groupTextures (texturesBindGroup m')
     = groupTextures (texturesBindGroup m) ++ filter (usedInShaders m) added
  /\ groupBindings (texturesBindGroup m')
     = flat_map bindings (groupTextures (texturesBindGroup m')).
Proof.
  induction added as [|t added IH]; intros m Hinv; cbn zeta.
  - cbn [fold_left filter]. now rewrite !app_nil_r.
  - cbn [fold_left].
    assert (Hinv1 : groupBindings (texturesBindGroup (addTexture m t))
      = flat_map bindings (groupTextures (texturesBindGroup (addTexture m t)))).
    { unfold addTexture. cbn [texturesBindGroup].
      destruct (usedInShaders m t); [|exact Hinv].
      unfold TextureBindGroup_addTexture. cbn [groupBindings groupTextures].
      rewrite flat_map_app, Hinv. cbn [flat_map]. now rewrite app_nil_r. }
    destruct (IH (addTexture m t) Hinv1) as (H1 & H2 & H3). cbn zeta in *.
    rewrite H1, H3. split; [|split; [|reflexivity]].
    + cbn [addTexture textures]. now rewrite <- app_assoc.
    + rewrite H2. cbn [filter].
      rewrite (filter_ext _ _ (fun x => @usedInShaders_codes m (addTexture m t) x
                                          eq_refl eq_refl)).
      unfold addTexture at 1. cbn [texturesBindGroup].
      destruct (usedInShaders m t); [|reflexivity].
      cbn [TextureBindGroup_addTexture groupTextures]. now rewrite <- app_assoc.
Qed.

Lemma nth_error_flat_map3 (A B : Type) (f : A -> list B) l :
  (forall x, In x l -> length (f x) = 3) ->
  length (flat_map f l) = 3 * length l
  /\ forall i x k, nth_error l i = Some x -> k < 3 ->
       nth_error (flat_map f l) (i * 3 + k) = nth_error (f x) k.
Proof.
  induction l as [|a l IH]; intros H.
  - split; [reflexivity|]. intros [|i] x k Hn; discriminate.
  - destruct IH as [IH1 IH2]; [intros; apply H; now right|].
    assert (Ha : length (f a) = 3) by (apply H; now left).
    split.
    + cbn [flat_map length]. rewrite length_app. lia.
    + intros [|i] x k Hn Hk; cbn [flat_map].
      * injection Hn as ->. cbn [Nat.mul Nat.add].
        apply nth_error_app1. lia.
      * cbn [nth_error] in Hn.
        rewrite nth_error_app2 by lia.
        replace (S i * 3 + k - length (f a)) with (i * 3 + k) by lia.
        now apply IH2.
Qed.

(** X18.  The textures bind group of a material keeps three bindings per
    texture, those of [Texture.setBindings], in the order the textures
    were added: whatever textures are added, the material tracks them all,
    the bind group holds those named in the vertex or the fragment shader,
    and the entry [textureIndex * 3 + 1] that [resetTextureBindGroup] and
    [updateVideoTextureBindGroupLayout] patch is the texture binding of
    the texture at [textureIndex].  A texture without a name counts as
    used by any shader. *)
Theorem texture_entry_index_aligned m added :
  (forall t, In t (groupTextures (texturesBindGroup m)) \/ In t added ->
             bindings t = bindings (setBindings t)) ->
  groupBindings (texturesBindGroup m)
  = flat_map bindings (groupTextures (texturesBindGroup m)) ->
  let m' := fold_left addTexture added m in
  textures m' = textures m ++ added
  /\ groupTextures (texturesBindGroup m')
     = groupTextures (texturesBindGroup m) ++ filter (usedInShaders m) added
  /\ length (groupBindings (texturesBindGroup m'))
     = 3 * length (groupTextures (texturesBindGroup m'))
  /\ (forall textureIndex t,
        nth_error (groupTextures (texturesBindGroup m')) textureIndex = Some t ->
        nth_error (groupBindings (texturesBindGroup m')) (entryIndex textureIndex)
        = nth_error (bindings t) 1
        /\ exists l kind,
             nth_error (bindings t) 1
             = Some (BindGroupTextureBinding l (name (options t)) kind))
  /\ (forall t, name (options t) = EmptyString -> In t added ->
                In t (groupTextures (texturesBindGroup m'))).
Proof.
  intros Hset Hinv m'.
  destruct (@fold_addTexture added m Hinv) as (H1 & H2 & H3). fold m' in H1, H2, H3.
  assert (Hlen : forall t, In t (groupTextures (texturesBindGroup m')) ->
                           length (bindings t) = 3).
  { intros t Ht. rewrite H2 in Ht. apply in_app_or in Ht.
    rewrite Hset; [reflexivity|].
    destruct Ht as [Ht|Ht]; [now left|]. apply filter_In in Ht. tauto. }
  destruct (@nth_error_flat_map3 _ _ bindings _ Hlen) as [L1 L2].
  split; [exact H1|]. split; [exact H2|]. split; [now rewrite H3|]. split.
  - intros i t Hn. split.
    + rewrite H3. unfold entryIndex. apply L2; [exact Hn|lia].
    + rewrite Hset.
      * cbn [setBindings bindings nth_error]. eauto.
      * apply nth_error_In in Hn. rewrite H2 in Hn. apply in_app_or in Hn.
        destruct Hn as [Hn|Hn]; [now left|]. apply filter_In in Hn. tauto.
  - intros t Hname Hin. rewrite H2. apply in_or_app. right.
    apply filter_In. split; [exact Hin|].
    unfold usedInShaders. rewrite Hname, PipelineFacts.includes_nil. reflexivity.
Qed.

Lemma texture_entry_index_aligned_witness :
  groupTextures (texturesBindGroup
                   (fold_left addTexture MoreExamples.addedTextures
                              MoreExamples.texturedMaterial))
  = [newTexture "Texture" "planeTexture"]
  /\ length (groupBindings (texturesBindGroup
                              (fold_left addTexture MoreExamples.addedTextures
                                         MoreExamples.texturedMaterial))) = 3.
Proof.
  assert (Hset : forall t,
            In t (groupTextures (texturesBindGroup MoreExamples.texturedMaterial))
            \/ In t MoreExamples.addedTextures ->
            bindings t = bindings (setBindings t)).
  { intros t [[]|[<-|[<-|[]]]]; reflexivity. }
  destruct (@texture_entry_index_aligned MoreExamples.texturedMaterial
              MoreExamples.addedTextures Hset eq_refl) as (_ & H2 & H3 & _).
  split.
  - rewrite H2. vm_compute. reflexivity.
  - rewrite H3, H2. vm_compute. reflexivity.
Defined.

End MaterialFacts.

(** ** The sources of a DOM mesh *)

Module DOMMeshFacts.
Import DOMMesh.

Lemma readyAfter_app n l : forall seen l',
  readyAfter n seen (l ++ l')
  = readyAfter n seen l && readyAfter n (seen + length (loadings l)) l'.
Proof.
  induction l as [|c l IH]; intros seen l'.
  - cbn [app readyAfter loadings flat_map length andb]. now rewrite Nat.add_0_r.
  - destruct c; cbn [app readyAfter].
    + rewrite IH. cbn [loadings flat_map app]. now rewrite andb_assoc.
    + rewrite IH. f_equal. f_equal. unfold loadings.
      cbn [flat_map app length]. lia.
Qed.

Lemma loadings_app l l' : loadings (l ++ l') = loadings l ++ loadings l'.
Proof. apply flat_map_app. Qed.

Lemma step_sources n m ev :
  autoloadSources m = true -> loaderSize m = n ->
  _sourcesReady m = (n <=? sourcesLoaded m) ->
  length (loadings (callbacks m)) = sourcesLoaded m ->
  readyAfter n 0 (callbacks m) = true ->
  (DOMMeshReady m = true -> In OnReady (callbacks m)) ->
  let m' := step m ev in
  autoloadSources m' = true /\ loaderSize m' = n
  /\ _sourcesReady m' = (n <=? sourcesLoaded m')
  /\ length (loadings (callbacks m')) = sourcesLoaded m'
  /\ readyAfter n 0 (callbacks m') = true
  /\ (DOMMeshReady m' = true -> In OnReady (callbacks m'))
  /\ loadings (callbacks m') = loadings (callbacks m) ++ uploaded [ev]
  /\ (_ready m' = true -> _ready m = true \/ ev = SetReady true)
  /\ (In OnReady (callbacks m') ->
      In OnReady (callbacks m) \/ _ready m = true \/ ev = SetReady true).
Proof.
  intros Ha Hn Hs Hl Hr Hd. destruct m as [rdy src auto size loaded cbs].
  unfold DOMMeshReady in Hd.
  cbn [autoloadSources loaderSize _sourcesReady sourcesLoaded callbacks _ready] in *.
  subst auto size. destruct ev as [value|texture]; cbn zeta.
  - cbn [step]. unfold set_ready, DOMMeshReady, call.
    cbn [_ready _sourcesReady autoloadSources loaderSize sourcesLoaded callbacks].
    cbn [uploaded flat_map]. rewrite app_nil_r.
    destruct value, src; cbn [andb];
      cbn [_ready _sourcesReady autoloadSources loaderSize sourcesLoaded callbacks].
    + rewrite loadings_app, readyAfter_app, Hr. cbn [loadings flat_map andb readyAfter].
      rewrite app_nil_r. fold (loadings cbs). rewrite Hl. cbn [Nat.add].
      rewrite <- Hs. cbn [andb].
      repeat split; auto.
      all: try (intros _; apply in_or_app; right; now left).
    + repeat split; auto. discriminate.
    + repeat split; auto; discriminate.
    + repeat split; auto; discriminate.
  - cbn [step autoloadSources]. unfold onSourceUploaded, call, set_sourcesReady,
      DOMMeshReady, call.
    cbn [_ready _sourcesReady autoloadSources loaderSize sourcesLoaded callbacks].
    cbn [uploaded flat_map app].
    destruct (S loaded =? n) eqn:E.
    + apply Nat.eqb_eq in E.
      assert (Hle : (n <=? S loaded) = true) by (apply Nat.leb_le; lia).
      destruct rdy; cbn [andb];
        cbn [_ready _sourcesReady autoloadSources loaderSize sourcesLoaded callbacks];
        rewrite ?loadings_app, ?readyAfter_app, ?Hr; cbn [loadings flat_map andb app];
        rewrite ?app_nil_r, ?length_app; cbn [readyAfter length Nat.add];
        fold (loadings cbs); rewrite ?length_app, ?Hl; cbn [length].
      * rewrite loadings_app, length_app, Hl. cbn [loadings flat_map app length].
        replace (loaded + 1) with (S loaded) by lia. rewrite Hle. cbn [andb].
        repeat split; auto.
        all: try (intros _; apply in_or_app; right; now left).
      * repeat split; auto; try lia; try discriminate.
        intros H. apply in_app_or in H. destruct H as [H|[H|[]]];
          [tauto|discriminate].
    + apply Nat.eqb_neq in E.
      cbn [_ready _sourcesReady autoloadSources loaderSize sourcesLoaded callbacks].
      rewrite ?loadings_app, ?readyAfter_app, ?Hr; cbn [loadings flat_map andb app].
      rewrite ?length_app; cbn [readyAfter length Nat.add].
      fold (loadings cbs). rewrite ?Hl.
      repeat split; auto; try lia.
      * rewrite Hs. destruct (n <=? loaded) eqn:E1; symmetry.
        { apply Nat.leb_le in E1. apply Nat.leb_le. lia. }
        apply Nat.leb_gt in E1. apply Nat.leb_gt. lia.
      * intros H. apply in_or_app. left. apply Hd. exact H.
      * intros H. apply in_app_or in H. destruct H as [H|[H|[]]];
          [tauto|discriminate].
Qed.

Lemma uploaded_cons ev events :
  uploaded (ev :: events) = uploaded [ev] ++ uploaded events.
Proof. unfold uploaded. cbn [flat_map]. now rewrite app_nil_r. Qed.

Lemma run_sources n events : forall m,
  autoloadSources m = true -> loaderSize m = n ->
  _sourcesReady m = (n <=? sourcesLoaded m) ->
  length (loadings (callbacks m)) = sourcesLoaded m ->
  readyAfter n 0 (callbacks m) = true ->
  (DOMMeshReady m = true -> In OnReady (callbacks m)) ->
  let m' := run events m in
  _sourcesReady m' = (n <=? sourcesLoaded m')
  /\ sourcesLoaded m' = sourcesLoaded m + length (uploaded events)
  /\ readyAfter n 0 (callbacks m') = true
  /\ (DOMMeshReady m' = true -> In OnReady (callbacks m'))
  /\ loadings (callbacks m') = loadings (callbacks m) ++ uploaded events
  /\ (In OnReady (callbacks m') ->
      In OnReady (callbacks m) \/ _ready m = true \/ In (SetReady true) events).
Proof.
  induction events as [|ev events IH]; intros m Ha Hn Hs Hl Hr Hd; cbn zeta.
  - cbn [run fold_left uploaded flat_map length]. rewrite Nat.add_0_r, app_nil_r.
    repeat split; auto.
  - destruct (@step_sources n m ev Ha Hn Hs Hl Hr Hd)
      as (S1 & S2 & S3 & S4 & S5 & S6 & S7 & S8 & S9).
    cbn zeta in *.
    destruct (IH (step m ev) S1 S2 S3 S4 S5 S6) as (I1 & I2 & I3 & I4 & I5 & I6).
    cbn zeta in *. unfold run in *. cbn [fold_left].
    split; [exact I1|]. split.
    { rewrite I2, <- S4, S7, length_app, Hl, (uploaded_cons ev events), length_app.
      lia. }
    split; [exact I3|]. split; [exact I4|]. split.
    { now rewrite I5, S7, <- app_assoc, <- (uploaded_cons ev events). }
    intros H. apply I6 in H. cbn [In].
    destruct H as [H|[H|H]]; [apply S9 in H|apply S8 in H|]; tauto.
Qed.

(** X19.  A DOM mesh that loads its sources keeps its ready callback back until
    all of them are uploaded: after any events, the sources are ready
    exactly when as many uploads as there are sources have been reported,
    the loading callback has been called once per upload, in order, no
    ready callback precedes the last of them nor a [ready = true] of the
    mesh, and once both flags are up the ready callback has been called. *)
Theorem ready_callback_waits_for_sources images videos canvases events :
  let n := images + videos + canvases in
  let m := run events (construct true images videos canvases) in
  _sourcesReady m = (n <=? length (uploaded events))
  /\ loadings (callbacks m) = uploaded events
  /\ readyAfter n 0 (callbacks m) = true
  /\ (DOMMeshReady m = true -> In OnReady (callbacks m))
  /\ (In OnReady (callbacks m) ->
      n <= length (uploaded events) /\ In (SetReady true) events).
Proof.
  intros n m.
  assert (H0 : exists m0, construct true images videos canvases = m0
    /\ autoloadSources m0 = true /\ loaderSize m0 = n
    /\ sourcesLoaded m0 = 0 /\ _sourcesReady m0 = (n <=? 0)
    /\ callbacks m0 = [] /\ _ready m0 = false).
  { eexists. split; [reflexivity|].
    unfold construct, setInitSources, set_sourcesReady, set_ready, DOMMeshReady.
    cbn. fold n. destruct (n =? 0) eqn:E; cbn.
    - apply Nat.eqb_eq in E. rewrite E. repeat split.
    - repeat split. symmetry. apply Nat.leb_gt. apply Nat.eqb_neq in E. lia. }
  destruct H0 as (m0 & Hm0 & Ha & Hn & Hk & Hs & Hc & Hr).
  unfold m. rewrite Hm0.
  destruct (@run_sources n events m0 Ha Hn) as (I1 & I2 & I3 & I4 & I5 & I6).
  - now rewrite Hk.
  - now rewrite Hc, Hk.
  - now rewrite Hc.
  - unfold DOMMeshReady. rewrite Hr. discriminate.
  - cbn zeta in *. rewrite Hk in I2. rewrite Hc in I5, I6. cbn [Nat.add app] in *.
    rewrite I2 in I1. split; [exact I1|]. split; [exact I5|].
    split; [exact I3|]. split; [exact I4|].
    intros H. split.
    + assert (G : forall l seen, In OnReady l -> readyAfter n seen l = true ->
                                 n <= seen + length (loadings l)).
      { clear. induction l as [|c l IH]; intros seen Hin Hra; [destruct Hin|].
        destruct c; cbn [readyAfter loadings flat_map app length] in *.
        - apply andb_true_iff in Hra. destruct Hra as [Hle _].
          apply Nat.leb_le in Hle. lia.
        - destruct Hin as [Hin|Hin]; [discriminate|].
          specialize (IH (S seen) Hin Hra). unfold loadings in IH. lia. }
      specialize (G _ 0 H I3). rewrite I5 in G. exact G.
    + apply I6 in H. destruct H as [[]|[H|H]]; [congruence|exact H].
Qed.

Lemma set_ready_sources_ready value m :
  _sourcesReady m = true ->
  autoloadSources (set_ready value m) = autoloadSources m
  /\ _sourcesReady (set_ready value m) = true
  /\ callbacks (set_ready value m)
     = callbacks m ++ (if value then [OnReady] else []).
Proof.
  intros Hs. unfold set_ready, DOMMeshReady, call. cbn [_ready _sourcesReady].
  rewrite Hs. destruct value; cbn; rewrite ?app_nil_r; auto.
Qed.

(** X20.  A DOM mesh that does not load its sources has them ready from the
    start, and answers every [ready = true] of the mesh with the ready
    callback. *)
Theorem without_autoload_ready_follows_mesh images videos canvases events :
  let m := run events (construct false images videos canvases) in
  _sourcesReady m = true
  /\ callbacks m
     = flat_map (fun ev => match ev with SetReady true => [OnReady] | _ => [] end)
                events.
Proof.
  cbn zeta.
  assert (G : forall events m, autoloadSources m = false -> _sourcesReady m = true ->
    _sourcesReady (run events m) = true
    /\ callbacks (run events m)
       = callbacks m
         ++ flat_map (fun ev => match ev with SetReady true => [OnReady] | _ => [] end)
                     events).
  { clear. induction events as [|ev events IH]; intros m Ha Hs.
    - cbn [run fold_left flat_map]. now rewrite app_nil_r.
    - unfold run in *. cbn [fold_left flat_map].
      destruct ev as [value|texture]; cbn [step].
      + destruct (@set_ready_sources_ready value m Hs) as (E1 & E2 & E3).
        destruct (IH (set_ready value m)) as [I1 I2]; [congruence|exact E2|].
        rewrite I1, I2, E3, <- app_assoc. split; [reflexivity|].
        now destruct value.
      + rewrite Ha. apply IH; assumption. }
  apply (G events (construct false images videos canvases)); reflexivity.
Qed.

End DOMMeshFacts.
